(** * CDC COVID ETL pipeline: a shallow embedding of the fetch, transform and
      load code, and the properties of its specification.

    Sources embedded here:
    - [api_client.py]       ([APIClient.fetch_data], [APIClient.fetch_data_chunked])
    - [data_transformer.py] ([DataTransformer.clean_and_transform])
    - [mysql_handler.py]    ([MySQLHandler.load_cdc_data] and its INSERT statement,
                            the three aggregate queries)
    - [main.py]             ([CLIManager._handle_fetch],
                            [CLIManager._handle_query_data])

    Modelling conventions.
    - A pandas DataFrame is a list of column labels and a list of rows, each
      row a finite map from column label to cell.  Row labels (the index) are
      not modelled: every column assignment of the source assigns a series
      computed from the same frame, so index alignment is the identity.
    - A cell is a missing value (NaN / NaT / None), a string, an integer or a
      timestamp (nanoseconds since the epoch, as pandas stores it).  A frame
      holds no number with a fractional part; such numbers arise inside
      [pd.to_numeric] only, where they are float64 values.
    - A Python [str] is held as its UTF-8 encoding.
    - [pd.to_datetime] and [pd.to_numeric] work on a whole column: the date
      format is settled for the column, and so is the dtype of the numbers,
      which go through float64 as soon as one value of the column is missing,
      unparsable or not an integer.  How one text is read, how a scalar is
      printed and what a float cast gives out of range are operations of the
      class [Pandas]; the development is generic in them and [csv_pandas] is
      a concrete instance for the examples.
    - Python ints are [Z].  Logging is not modelled, except where a
      property is about a branch that only logs.
    - A call that may raise returns how it ended ([Returns] or [Raises])
      beside the state it left. *)

From stdpp Require Import base strings list gmap pretty.
From Stdlib Require Import ZArith Lia Ascii.

Local Open Scope Z_scope.

(** ** Cells and frames *)

Inductive cell : Type :=
  | NA
  | Str (s : string)
  | Int (z : Z)
  | Timestamp (ns : Z).

#[global] Instance cell_eq_dec : EqDecision cell.
Proof. solve_decision. Defined.

Definition notna (c : cell) : bool :=
  match c with NA => false | _ => true end.

Record DataFrame : Type := mkFrame {
  columns : list string;
  rows : list (gmap string cell)
}.

#[global] Instance DataFrame_eq_dec : EqDecision DataFrame.
Proof. solve_decision. Defined.

(** [pd.DataFrame()] *)
Definition empty_frame : DataFrame := mkFrame [] [].

(** [len(df)] *)
Definition len (d : DataFrame) : Z := Z.of_nat (length (rows d)).

(** [df.empty]: true when either axis has length zero. *)
Definition empty (d : DataFrame) : bool :=
  match columns d, rows d with
  | [], _ => true
  | _, [] => true
  | _, _ => false
  end.

(** [col in df.columns] *)
Definition has_column (col : string) (d : DataFrame) : bool :=
  bool_decide (col ∈ columns d).

(** [row[col]] *)
Definition get (col : string) (r : gmap string cell) : cell :=
  default NA (r !! col).

(** [df[col]], as the list of its cells. *)
Definition column (col : string) (d : DataFrame) : list cell :=
  get col <$> rows d.

(** [df[col] = f(df)], evaluated row by row; a new label is appended. *)
Definition setitem (col : string) (f : gmap string cell → cell) (d : DataFrame)
  : DataFrame :=
  mkFrame (if has_column col d then columns d else columns d ++ [col])
          ((λ r, <[col := f r]> r) <$> rows d).

(** [df[mask]] with the mask computed row by row: a new frame. *)
Definition select (keep : gmap string cell → bool) (d : DataFrame) : DataFrame :=
  mkFrame (columns d) (List.filter keep (rows d)).

(** [df.dropna(subset=[col])]: a new frame. *)
Definition dropna (col : string) (d : DataFrame) : DataFrame :=
  select (λ r, notna (get col r)) d.

(** ** Calendar

    A timestamp is a number of nanoseconds since 1970-01-01T00:00, a date a
    number of days since 1970-01-01. *)

Definition ns_per_day : Z := 86400 * 1000000000.

Definition is_leap (y : Z) : bool :=
  ((y mod 4 =? 0) && negb (y mod 100 =? 0)) || (y mod 400 =? 0).

Definition days_in_month (y m : Z) : Z :=
  if m =? 2 then (if is_leap y then 29 else 28)
  else if (m =? 4) || (m =? 6) || (m =? 9) || (m =? 11) then 30 else 31.

(** Days since 1970-01-01 of a proleptic Gregorian date. *)
Definition days_from_civil (y m d : Z) : Z :=
  let y' := if m <=? 2 then y - 1 else y in
  let era := y' / 400 in
  let yoe := y' - era * 400 in
  let doy := (153 * (if 2 <? m then m - 3 else m + 9) + 2) / 5 + d - 1 in
  let doe := yoe * 365 + yoe / 4 - yoe / 100 + doy in
  era * 146097 + doe - 719468.

(** Proleptic Gregorian date of a day number. *)
Definition civil_from_days (z : Z) : Z * Z * Z :=
  let z := z + 719468 in
  let era := z / 146097 in
  let doe := z - era * 146097 in
  let yoe := (doe - doe / 1460 + doe / 36524 - doe / 146096) / 365 in
  let doy := doe - (365 * yoe + yoe / 4 - yoe / 100) in
  let mp := (5 * doy + 2) / 153 in
  let d := doy - (153 * mp + 2) / 5 + 1 in
  let m := if mp <? 10 then mp + 3 else mp - 9 in
  (if m <=? 2 then yoe + era * 400 + 1 else yoe + era * 400, m, d).

Definition pad2 (n : Z) : string :=
  if n <? 10 then "0" +:+ pretty n else pretty n.

(** [ts.strftime('%Y-%m-%d')] *)
Definition strftime_ymd (t : Z) : string :=
  let '(y, m, d) := civil_from_days (t / ns_per_day) in
  pretty y +:+ "-" +:+ pad2 m +:+ "-" +:+ pad2 d.

(** [str(ts)], to the second *)
Definition str_timestamp (t : Z) : string :=
  let secs := (t mod ns_per_day) / 1000000000 in
  strftime_ymd t +:+ " " +:+ pad2 (secs / 3600) +:+ ":" +:+
  pad2 (secs / 60 mod 60) +:+ ":" +:+ pad2 (secs mod 60).

(** ** Text *)

(** [str.isspace] of the character encoded by one byte, by two and by three
    (U+0085, U+00A0; U+1680, U+2000 to U+200A, U+2028, U+2029, U+202F,
    U+205F, U+3000). *)
Definition py_isspace (a : Ascii.ascii) : bool :=
  let n := Ascii.N_of_ascii a in
  ((9 <=? n)%N && (n <=? 13)%N) || ((28 <=? n)%N && (n <=? 32)%N).

Definition py_isspace2 (a b : Ascii.ascii) : bool :=
  let a := Ascii.N_of_ascii a in
  let b := Ascii.N_of_ascii b in
  ((a =? 194) && ((b =? 133) || (b =? 160)))%N.

Definition py_isspace3 (a b c : Ascii.ascii) : bool :=
  let a := Ascii.N_of_ascii a in
  let b := Ascii.N_of_ascii b in
  let c := Ascii.N_of_ascii c in
  (((a =? 225) && (b =? 154) && (c =? 128))
   || ((a =? 226) && (b =? 128)
       && (((128 <=? c) && (c <=? 138)) || (c =? 168) || (c =? 169)
           || (c =? 175)))
   || ((a =? 226) && (b =? 129) && (c =? 159))
   || ((a =? 227) && (b =? 128) && (c =? 128)))%N.

(** The bytes after a leading white-space character, if there is one. *)
Definition skip_space (l : list Ascii.ascii) : option (list Ascii.ascii) :=
  match l with
  | a :: l1 =>
      if py_isspace a then Some l1
      else match l1 with
           | b :: l2 =>
               if py_isspace2 a b then Some l2
               else match l2 with
                    | c :: l3 => if py_isspace3 a b c then Some l3 else None
                    | [] => None
                    end
           | [] => None
           end
  | [] => None
  end.

(** The same for a trailing character, on the bytes in reverse order. *)
Definition skip_space_back (l : list Ascii.ascii) : option (list Ascii.ascii) :=
  match l with
  | c :: l1 =>
      if py_isspace c then Some l1
      else match l1 with
           | b :: l2 =>
               if py_isspace2 b c then Some l2
               else match l2 with
                    | a :: l3 => if py_isspace3 a b c then Some l3 else None
                    | [] => None
                    end
           | [] => None
           end
  | [] => None
  end.

Fixpoint strip_front (skip : list Ascii.ascii → option (list Ascii.ascii))
    (fuel : nat) (l : list Ascii.ascii) : list Ascii.ascii :=
  match fuel with
  | O => l
  | S fuel =>
      match skip l with
      | Some l' => strip_front skip fuel l'
      | None => l
      end
  end.

Definition lstrip_bytes (l : list Ascii.ascii) : list Ascii.ascii :=
  strip_front skip_space (length l) l.

Definition rstrip_bytes (l : list Ascii.ascii) : list Ascii.ascii :=
  rev (strip_front skip_space_back (length l) (rev l)).

Definition lstrip (s : string) : string :=
  String.string_of_list_ascii (lstrip_bytes (String.list_ascii_of_string s)).

Definition rstrip (s : string) : string :=
  String.string_of_list_ascii (rstrip_bytes (String.list_ascii_of_string s)).

(** [str.strip()] *)
Definition strip (s : string) : string := lstrip (rstrip s).

(** ** Numbers *)

(** What [pd.to_numeric] reads in one element: an integer, a finite float64
    [m * 2^e], or an infinity. *)
Inductive number : Type :=
  | Whole (z : Z)
  | Float (m e : Z)
  | Inf.

Inductive dtype : Type := Int64 | UInt64 | Float64.

Definition int64 (z : Z) : bool := (- 2 ^ 63 <=? z) && (z <? 2 ^ 63).
Definition uint64 (z : Z) : bool := (0 <=? z) && (z <? 2 ^ 64).

(** The dtype of the column [pd.to_numeric(series, errors='coerce')]
    returns ([None] is NaN): int64 when every element is an integer of that
    range, uint64 when every element is a non-negative integer below 2^64,
    float64 otherwise. *)
Definition numeric_dtype (xs : list (option number)) : dtype :=
  if forallb (λ x, match x with Some (Whole z) => int64 z | _ => false end) xs
  then Int64
  else if forallb (λ x, match x with Some (Whole z) => uint64 z | _ => false end) xs
  then UInt64
  else Float64.

(** An integer as a float64: rounded to 53 significant bits, ties to even;
    [None] is infinity. *)
Definition float_of_Z (z : Z) : option Z :=
  let a := Z.abs z in
  if a <? 2 ^ 53 then Some z
  else
    let k := Z.log2 a - 52 in
    let q := a / 2 ^ k in
    let r := a mod 2 ^ k in
    let half := 2 ^ (k - 1) in
    let q := if (half <? r) || ((r =? half) && Z.odd q) then q + 1 else q in
    if q * 2 ^ k <? 2 ^ 1024 then Some (Z.sgn z * (q * 2 ^ k)) else None.

(** The integer part of the float64 [m * 2^e]. *)
Definition trunc_float (m e : Z) : Z :=
  if 0 <=? e then m * 2 ^ e else Z.quot m (2 ^ (- e)).

(** An integer of the uint64 column as an int64: modulo 2^64. *)
Definition wrap_int64 (z : Z) : Z :=
  let z := z mod 2 ^ 64 in if z <? 2 ^ 63 then z else z - 2 ^ 64.

(** ** pandas conversions *)

Class Pandas : Type := {
  (** the format [pd.to_datetime] settles on for a column, [None] when it
      reads each element on its own *)
  datetime_format : list cell → option string;
  (** text to timestamp under that format, [None] when the text does not
      match *)
  parse_datetime : option string → string → option Z;
  (** text to number, [None] when the text is not a number *)
  parse_number : string → option number;
  (** [str(x)] of a number and of a timestamp *)
  repr_number : Z → string;
  repr_timestamp : Z → string;
  (** what the cast of a float64 to int64 gives for an integer part out of
      range, which C leaves open: some int64 *)
  overflow_cast : Z → Z;
  overflow_cast_int64 : ∀ v, int64 (overflow_cast v) = true
}.

Section Conversions.
Context {pd : Pandas}.

(** [pd.to_datetime(series, errors='coerce')] at the cell [c] of [series].
    An integer is a number of nanoseconds; out of the range of a timestamp
    it is NaT. *)
Definition to_datetime (series : list cell) (c : cell) : cell :=
  match c with
  | NA => NA
  | Str s =>
      match parse_datetime (datetime_format series) s with
      | Some t => Timestamp t
      | None => NA
      end
  | Int z => if (- 2 ^ 63 <? z) && (z <? 2 ^ 63) then Timestamp z else NA
  | Timestamp t => Timestamp t
  end.

(** [pd.to_numeric(series, errors='coerce')], one element; [None] is NaN *)
Definition to_numeric (c : cell) : option number :=
  match c with
  | NA => None
  | Str s => parse_number s
  | Int z => Some (Whole z)
  | Timestamp t => Some (Whole t)
  end.

(** The cast of a float64 with integer part [v] to int64. *)
Definition cast_int64 (v : Z) : Z := if int64 v then v else overflow_cast v.

(** [.fillna(0).astype(int)] at one element of a column of dtype [dt];
    [None] is the exception [astype] raises for a value that is not
    finite. *)
Definition astype_int (dt : dtype) (x : option number) : option Z :=
  match x with
  | None => Some 0
  | Some (Whole z) =>
      match dt with
      | Int64 => Some z
      | UInt64 => Some (wrap_int64 z)
      | Float64 => cast_int64 <$> float_of_Z z
      end
  | Some (Float m e) => Some (cast_int64 (trunc_float m e))
  | Some Inf => None
  end.

(** [astype(int)] goes through: every value of the column is finite. *)
Definition castable (series : list cell) : bool :=
  forallb (λ c, bool_decide
                  (is_Some (astype_int (numeric_dtype (to_numeric <$> series))
                              (to_numeric c))))
          series.

(** [pd.to_numeric(series, errors='coerce').fillna(0).astype(int)] at the
    cell [c] of a [series] that can be cast. *)
Definition coerce_int (series : list cell) (c : cell) : cell :=
  Int (default 0 (astype_int (numeric_dtype (to_numeric <$> series))
                    (to_numeric c))).

(** [series.fillna('Unknown')] *)
Definition fillna_unknown (c : cell) : cell :=
  match c with NA => Str "Unknown" | _ => c end.

(** [series.astype(str)] *)
Definition astype_str (c : cell) : cell :=
  match c with
  | NA => Str "nan"
  | Str s => Str s
  | Int z => Str (repr_number z)
  | Timestamp t => Str (repr_timestamp t)
  end.

(** [series.str.strip()]: NaN on a cell that is not a string *)
Definition str_strip (c : cell) : cell :=
  match c with Str s => Str (strip s) | _ => NA end.

(** [series.fillna('Unknown').astype(str).str.strip()] *)
Definition standardize (c : cell) : cell :=
  str_strip (astype_str (fillna_unknown c)).
End Conversions.

(** ** data_transformer.py *)

(** The local variable [df] of [clean_and_transform] is bound either to the
    object the caller passed or to a frame the function created itself
    ([dropna] returns a new object).  A column assignment writes to whichever
    object [df] is bound to at that point. *)
Inductive binding : Type :=
  | Caller
  | Local (d : DataFrame).

Record frame_state : Type := mkState {
  caller_obj : DataFrame;
  df : binding
}.

Definition deref (s : frame_state) : DataFrame :=
  match df s with Caller => caller_obj s | Local d => d end.

(** [df[col] = ...] *)
Definition assign (col : string) (f : gmap string cell → cell) (s : frame_state)
  : frame_state :=
  match df s with
  | Caller => mkState (setitem col f (caller_obj s)) Caller
  | Local d => mkState (caller_obj s) (Local (setitem col f d))
  end.

(** [df = df.dropna(subset=[col])] *)
Definition rebind_dropna (col : string) (s : frame_state) : frame_state :=
  mkState (caller_obj s) (Local (dropna col (deref s))).

Definition case_month : string := "case_month".
Definition numerical_cols : list string :=
  ["case_positive_specimen_interval"; "case_onset_interval"].
Definition str_cols : list string :=
  ["res_state"; "age_group"; "sex"; "race"; "ethnicity"; "exposure_yn";
   "current_status"; "symptom_status"; "death_yn"; "hosp_yn"; "icu_yn";
   "underlying_conditions_yn"].
Definition location_cols : list string := ["res_state"; "state_fips_code"].

(** How a call ends. *)
Inductive exit : Type := Returns | Raises.

#[global] Instance exit_eq_dec : EqDecision exit.
Proof. solve_decision. Defined.

(** [for col in cols: step], left at the first exception. *)
Fixpoint for_cols (step : frame_state → string → frame_state * exit)
    (s : frame_state) (cols : list string) : frame_state * exit :=
  match cols with
  | [] => (s, Returns)
  | col :: cols =>
      match step s col with
      | (s, Returns) => for_cols step s cols
      | (s, Raises) => (s, Raises)
      end
  end.

Section Transformer.
Context {pd : Pandas}.

(** Lines 28-30 *)
Definition parse_dates (s : frame_state) : frame_state :=
  if has_column case_month (deref s)
  then rebind_dropna case_month
         (assign case_month
            (λ r, to_datetime (column case_month (deref s)) (get case_month r))
            s)
  else s.

(** Lines 35-36.  The right-hand side is evaluated before the column is
    assigned: when [astype(int)] raises, [df] is as it was. *)
Definition coerce_numeric (s : frame_state) (col : string)
  : frame_state * exit :=
  if has_column col (deref s) then
    let series := column col (deref s) in
    if castable series
    then (assign col (λ r, coerce_int series (get col r)) s, Returns)
    else (s, Raises)
  else (s, Returns).

(** Lines 41-42 *)
Definition standardize_str (s : frame_state) (col : string) : frame_state :=
  if has_column col (deref s)
  then assign col (λ r, standardize (get col r)) s
  else s.

(** Lines 47-48 *)
Definition drop_location (s : frame_state) (col : string) : frame_state :=
  if has_column col (deref s) then rebind_dropna col s else s.

(** Lines 51-52 *)
Definition ensure_process (s : frame_state) : frame_state :=
  if has_column "process" (deref s)
  then s
  else assign "process" (λ _, Str "Unknown") s.

(** [DataTransformer.clean_and_transform(df)].  The final state holds the
    caller's object as the call leaves it and the binding of [df], which is
    the returned value when the call returns. *)
Definition clean_and_transform (b : DataFrame) : frame_state * exit :=
  let s := mkState b Caller in
  if empty b then (s, Returns)
  else
    let s := parse_dates s in
    match for_cols coerce_numeric s numerical_cols with
    | (s, Raises) => (s, Raises)
    | (s, Returns) =>
        let s := foldl standardize_str s str_cols in
        let s := foldl drop_location s location_cols in
        (ensure_process s, Returns)
    end.

(** The value returned by the call; [None] when it raises. *)
Definition clean (b : DataFrame) : option DataFrame :=
  match clean_and_transform b with
  | (s, Returns) => Some (deref s)
  | (_, Raises) => None
  end.

(** The caller's batch after the call, however it ended. *)
Definition caller_after (b : DataFrame) : DataFrame :=
  caller_obj (clean_and_transform b).1.
End Transformer.

(** ** api_client.py *)

(** What one [pd.read_csv(url)] does: a frame, or one of the two exception
    classes the source handles. *)
Inductive outcome : Type :=
  | Response (d : DataFrame)
  | RequestException
  | OtherException.

(** Observable effects of the client. *)
Inductive event : Type :=
  | ReadCsv (limit offset : Z)   (* one [pd.read_csv(url)] *)
  | Sleep (seconds : Z)          (* [time.sleep(wait)] *)
  | Yield (nrows : Z).           (* a chunk of [nrows] rows is yielded *)

#[global] Instance event_eq_dec : EqDecision event.
Proof. solve_decision. Defined.

Record world : Type := mkWorld {
  attempts : nat;        (* requests issued so far *)
  trace : list event     (* effects so far, oldest first *)
}.

Definition world0 : world := mkWorld 0 [].

(** The remote endpoint: the outcome of the [n]-th request ever issued, for
    the [limit] and [offset] substituted into the URL. *)
Class Source : Type := http : nat → Z → Z → outcome.

Record fetch_args : Type := mkArgs {
  chunk_size : Z;
  max_rows : option Z;
  start_date : option Z;   (* a [datetime.date], as a day number *)
  end_date : option Z
}.

(** The generator object of [fetch_data_chunked]: at the top of the [while]
    loop, suspended at [yield chunk] (the yielded object is the one bound to
    the local [chunk], shared with the consumer), or finished. *)
Inductive generator : Type :=
  | AtLoop (offset total_rows : Z)
  | AtYield (offset total_rows limit : Z) (chunk : DataFrame)
  | Finished.

Definition fetch_data_chunked : generator := AtLoop 0 0.

(** What the consumer did, in place, to the object it was handed. *)
Definition with_chunk (c : DataFrame) (g : generator) : generator :=
  match g with
  | AtYield offset total_rows limit _ => AtYield offset total_rows limit c
  | _ => g
  end.

Section Client.
Context {pd : Pandas} {src : Source}.

Definition read_csv (limit offset : Z) (w : world) : world * outcome :=
  (mkWorld (S (attempts w)) (trace w ++ [ReadCsv limit offset]),
   http (attempts w) limit offset).

Definition sleep (seconds : Z) (w : world) : world :=
  mkWorld (attempts w) (trace w ++ [Sleep seconds]).

Definition yield (chunk : DataFrame) (w : world) : world :=
  mkWorld (attempts w) (trace w ++ [Yield (len chunk)]).

(** The body of [for attempt in range(retries)], over the attempts left. *)
Fixpoint fetch_attempts (range : list Z) (limit offset retries wait : Z)
    (w : world) : world * DataFrame :=
  match range with
  | [] => (w, empty_frame)
  | attempt :: range' =>
      let '(w, r) := read_csv limit offset w in
      match r with
      | Response d => (w, d)
      | RequestException =>
          fetch_attempts range' limit offset retries wait
            (if attempt <? retries - 1 then sleep wait w else w)
      | OtherException =>
          fetch_attempts range' limit offset retries wait
            (if attempt <? retries - 1 then sleep wait w else w)
      end
  end.

(** [APIClient.fetch_data(limit, offset, retries, wait)].  Both handlers
    swallow the exception, so every path returns a frame. *)
Definition fetch_data (limit offset retries wait : Z) (w : world)
  : world * DataFrame :=
  fetch_attempts (seqZ 0 retries) limit offset retries wait w.

(** [start_date or end_date] *)
Definition dates_requested (a : fetch_args) : bool :=
  bool_decide (is_Some (start_date a)) || bool_decide (is_Some (end_date a)).

(** [chunk['case_month'].dt.date >= start_date]; false on NaT *)
Definition on_or_after (start : Z) (r : gmap string cell) : bool :=
  match get case_month r with
  | Timestamp t => start <=? t / ns_per_day
  | _ => false
  end.

Definition on_or_before (stop : Z) (r : gmap string cell) : bool :=
  match get case_month r with
  | Timestamp t => t / ns_per_day <=? stop
  | _ => false
  end.

(** Lines 59-67: the date filter. *)
Definition filter_dates (a : fetch_args) (chunk : DataFrame) : DataFrame :=
  if dates_requested a then
    if has_column case_month chunk then
      let chunk :=
        setitem case_month
          (λ r, to_datetime (column case_month chunk) (get case_month r))
          chunk in
      let chunk :=
        match start_date a with
        | Some d => select (on_or_after d) chunk
        | None => chunk
        end in
      match end_date a with
      | Some d => select (on_or_before d) chunk
      | None => chunk
      end
    else chunk
  else chunk.

(** Line 53: [min(chunk_size, max_rows - total_rows) if max_rows else chunk_size] *)
Definition request_limit (a : fetch_args) (total_rows : Z) : Z :=
  match max_rows a with
  | Some m => if bool_decide (m = 0) then chunk_size a
              else Z.min (chunk_size a) (m - total_rows)
  | None => chunk_size a
  end.

(** Line 51: [max_rows is not None and total_rows >= max_rows] *)
Definition budget_spent (a : fetch_args) (total_rows : Z) : bool :=
  match max_rows a with
  | Some m => m <=? total_rows
  | None => false
  end.

(** One pass from the top of the loop to the [yield] or to a [break]. *)
Definition loop_body (a : fetch_args) (offset total_rows : Z) (w : world)
  : world * generator * option DataFrame :=
  if budget_spent a total_rows then (w, Finished, None)
  else
    let limit := request_limit a total_rows in
    let '(w, chunk) := fetch_data limit offset 3 2 w in
    if empty chunk then (w, Finished, None)
    else
      let chunk := filter_dates a chunk in
      if empty chunk && dates_requested a then (w, Finished, None)
      else (yield chunk w, AtYield offset total_rows limit chunk, Some chunk).

(** [next(gen)]: resume after the [yield] (lines 75-81), then run the loop
    up to the next [yield]. *)
Definition next (a : fetch_args) (g : generator) (w : world)
  : world * generator * option DataFrame :=
  match g with
  | AtLoop offset total_rows => loop_body a offset total_rows w
  | AtYield offset total_rows limit chunk =>
      let fetched := len chunk in
      let total_rows := total_rows + fetched in
      let offset := offset + chunk_size a in
      if fetched <? limit then (w, Finished, None)
      else loop_body a offset total_rows w
  | Finished => (w, Finished, None)
  end.

(** How the body of a [for chunk in gen] loop ends. *)
Inductive control : Type := Continue | Break | Raise.

(** The state of a [for] loop over the generator. *)
Inductive loop_status : Type :=
  | Running        (* out of fuel, the loop is still going *)
  | Completed      (* StopIteration *)
  | Broken         (* [break] *)
  | Raised.        (* an exception left the body *)

(** [for chunk in gen: body].  The body receives the yielded object and
    returns it as it left it. *)
Fixpoint for_each {St : Type} (a : fetch_args)
    (body : St → DataFrame → St * DataFrame * control)
    (fuel : nat) (g : generator) (w : world) (s : St)
  : world * generator * St * loop_status :=
  match fuel with
  | O => (w, g, s, Running)
  | S fuel =>
      let '(w, g, y) := next a g w in
      match y with
      | None => (w, g, s, Completed)
      | Some chunk =>
          let '(s, chunk, c) := body s chunk in
          match c with
          | Continue => for_each a body fuel (with_chunk chunk g) w s
          | Break => (w, with_chunk chunk g, s, Broken)
          | Raise => (w, with_chunk chunk g, s, Raised)
          end
      end
  end.

(** [list(fetch_data_chunked(...))], up to [fuel] resumptions. *)
Definition fetch_chunks (a : fetch_args) (fuel : nat) (w : world)
  : world * generator * list DataFrame * loop_status :=
  for_each a (λ acc chunk, (acc ++ [chunk], chunk, Continue)) fuel
    fetch_data_chunked w [].
End Client.

(** ** mysql_handler.py *)

(** Columns of the INSERT statement, in the order of its VALUES tuple. *)
Definition insert_cols : list string :=
  ["case_month"; "res_state"; "state_fips_code"; "age_group"; "sex"; "race";
   "ethnicity"; "case_positive_specimen_interval"; "case_onset_interval";
   "process"; "exposure_yn"; "current_status"; "symptom_status"; "hosp_yn";
   "icu_yn"; "death_yn"; "underlying_conditions_yn"].

(** [UNIQUE KEY unique_case (...)] *)
Definition unique_case : list string :=
  ["case_month"; "res_state"; "age_group"; "sex"; "race"; "ethnicity"].

(** The columns assigned by [ON DUPLICATE KEY UPDATE]. *)
Definition volatile : list string :=
  ["death_yn"; "hosp_yn"; "icu_yn"; "underlying_conditions_yn"].

(** [expected_cols]: each column and its default. *)
Definition expected_cols : list (string * cell) :=
  [("case_month", NA); ("res_state", Str "Unknown"); ("state_fips_code", Int 0);
   ("age_group", Str "Unknown"); ("sex", Str "Unknown"); ("race", Str "Unknown");
   ("ethnicity", Str "Unknown"); ("case_positive_specimen_interval", Int 0);
   ("case_onset_interval", Int 0); ("process", Str "Unknown");
   ("exposure_yn", Str "Unknown"); ("current_status", Str "Unknown");
   ("symptom_status", Str "Unknown"); ("hosp_yn", Str "Unknown");
   ("icu_yn", Str "Unknown"); ("death_yn", Str "Unknown");
   ("underlying_conditions_yn", Str "Unknown")].

(** [{col: row[col] if col in row else default_val for col, default_val in
    expected_cols.items()}]; the labels of [row] are the columns of the frame. *)
Definition row_data (d : DataFrame) (r : gmap string cell) : gmap string cell :=
  list_to_map
    ((λ e, (e.1, if has_column e.1 d then get e.1 r else e.2)) <$> expected_cols).

(** [x.strftime('%Y-%m-%d') if pd.notnull(x) else None]; [None] here is the
    AttributeError of a value that is neither missing nor a timestamp. *)
Definition case_month_str (c : cell) : option cell :=
  match c with
  | NA => Some NA
  | Timestamp t => Some (Str (strftime_ymd t))
  | Str _ => None
  | Int _ => None
  end.

(** The tuple appended to [rows], as a map from the INSERT's column to the
    parameter bound to it.  A missing parameter is SQL NULL. *)
Definition build_row (d : DataFrame) (r : gmap string cell)
  : option (gmap string cell) :=
  let row_data := row_data d r in
  cm ← case_month_str (get "case_month" row_data);
  Some (<["case_month" := cm]> row_data).

(** The [for _, row in df.iterrows()] loop. *)
Definition build_rows (d : DataFrame) : option (list (gmap string cell)) :=
  mapM (build_row d) (rows d).

Definition key_of (r : gmap string cell) : list cell :=
  (λ c, get c r) <$> unique_case.

(** A new row collides with a stored one on [unique_case] when the key
    columns are equal and none is NULL (a unique index admits any number of
    rows with a NULL in the key). *)
Definition duplicate_key (new old : gmap string cell) : bool :=
  forallb notna (key_of new) && bool_decide (key_of new = key_of old).

(** [death_yn=VALUES(death_yn), hosp_yn=VALUES(hosp_yn), ...] *)
Definition update_volatile (new old : gmap string cell) : gmap string cell :=
  foldr (λ c acc, <[c := get c new]> acc) old volatile.

(** [INSERT ... ON DUPLICATE KEY UPDATE ...] for one VALUES tuple.  The table
    is the list of stored rows; the surrogate [id] is not modelled. *)
Fixpoint insert_sql (new : gmap string cell) (table : list (gmap string cell))
  : list (gmap string cell) :=
  match table with
  | [] => [new]
  | old :: table' =>
      if duplicate_key new old then update_volatile new old :: table'
      else old :: insert_sql new table'
  end.

(** [cursor.executemany(insert_sql, rows)] *)
Definition executemany (rows : list (gmap string cell))
    (table : list (gmap string cell)) : list (gmap string cell) :=
  foldl (λ t r, insert_sql r t) table rows.

(** What the connector and the engine do during the [n]-th call of
    [load_cdc_data] on a connection. *)
Class Engine : Type := {
  (** [self.conn.cursor()] raises *)
  cursor_error : nat → bool;
  (** [executemany] or [commit] raises [mysql.connector.Error], for the
      table as committed and the tuples bound *)
  engine_error : nat → list (gmap string cell) → list (gmap string cell) → bool;
  (** [self.conn.rollback()] raises *)
  rollback_error : nat → bool;
  (** [cursor.close()] raises *)
  close_error : nat → bool
}.

(** [self.conn]: [None], or a connection to the committed table; and the
    number of loads the connection has seen. *)
Record MySQLHandler : Type := mkHandler {
  conn : option (list (gmap string cell));
  calls : nat
}.

Section Storage.
Context {db : Engine}.

(** [MySQLHandler.load_cdc_data(df)].  The cursor is opened and the tuples
    are built outside the [try]: an exception there leaves the method at
    once.  An engine error inside the [try] is logged and the batch rolled
    back; the cursor is closed in the [finally] clause. *)
Definition load_cdc_data (h : MySQLHandler) (d : DataFrame)
  : MySQLHandler * exit :=
  match conn h with
  | None => (h, Returns)
  | Some table =>
      let n := calls h in
      let h := mkHandler (Some table) (S n) in
      if cursor_error n then (h, Raises)
      else
        match build_rows d with
        | None => (h, Raises)
        | Some rows =>
            if engine_error n table rows then
              if rollback_error n then (h, Raises)
              else if close_error n then (h, Raises)
              else (h, Returns)
            else
              let h := mkHandler (Some (executemany rows table)) (S n) in
              if close_error n then (h, Raises) else (h, Returns)
        end
  end.
End Storage.

(** ** main.py *)

Record fetch_state : Type := mkFetch {
  db_handler : MySQLHandler;
  total_processed_rows : Z;
  empty_chunk_seen : bool     (* the branch "Chunk was empty, stopping fetch" *)
}.

Section Orchestrator.
Context {pd : Pandas} {src : Source} {db : Engine}.

(** The body of the [for] loop of [_handle_fetch].  The chunk is handed to
    [clean_and_transform], which writes to it in place; nothing in the loop
    catches an exception. *)
Definition process_chunk (s : fetch_state) (chunk : DataFrame)
  : fetch_state * DataFrame * control :=
  if negb (empty chunk) then
    match clean_and_transform chunk with
    | (t, Raises) => (s, caller_obj t, Raise)
    | (t, Returns) =>
        let transformed_data := deref t in
        if negb (empty transformed_data) then
          match load_cdc_data (db_handler s) transformed_data with
          | (h, Returns) =>
              (mkFetch h (total_processed_rows s + len transformed_data)
                       (empty_chunk_seen s), caller_obj t, Continue)
          | (h, Raises) =>
              (mkFetch h (total_processed_rows s) (empty_chunk_seen s),
               caller_obj t, Raise)
          end
        else (s, caller_obj t, Continue)
    end
  else (mkFetch (db_handler s) (total_processed_rows s) true, chunk, Break).

(** [CLIManager._handle_fetch(args)], up to [fuel] chunks. *)
Definition handle_fetch (a : fetch_args) (fuel : nat) (w : world)
    (h : MySQLHandler) : world * generator * fetch_state * loop_status :=
  for_each a process_chunk fuel fetch_data_chunked w (mkFetch h 0 false).
End Orchestrator.

(** ** A concrete pandas for the examples

    Numbers are read as decimal literals: an optional sign, digits with an
    optional fraction and an optional exponent, between ASCII blanks; or an
    infinity, written out.  A literal without fraction and exponent is an
    integer; any other is taken as the nearest float64 (the reader of pandas
    may be one unit in the last place off); a literal beyond the float64
    range is not a number.  For dates the format of the column is guessed
    from its first value that is not missing: [%Y-%m-%d] or [%Y-%m], which
    every text of the column must then match; when that value has neither
    form, each text is read on its own, as year, month and optional day, the
    last two of one or two digits.  A cast out of range gives -2^63, as on
    x86-64. *)

Definition blank (a : Ascii.ascii) : bool :=
  let n := Ascii.N_of_ascii a in
  ((9 <=? n)%N && (n <=? 13)%N) || (n =? 32)%N.

Fixpoint ltrim (s : string) : string :=
  match s with
  | EmptyString => EmptyString
  | String a s' => if blank a then ltrim s' else s
  end.

Fixpoint rtrim (s : string) : string :=
  match s with
  | EmptyString => EmptyString
  | String a s' =>
      match rtrim s' with
      | EmptyString => if blank a then EmptyString else String a EmptyString
      | r => String a r
      end
  end.

(** The digits [s] starts with, read onto [acc]; how many they are; and
    the rest of [s]. *)
Fixpoint scan_digits (s : string) (acc : Z) (n : Z) : Z * Z * string :=
  match s with
  | EmptyString => (acc, n, s)
  | String a s' =>
      match Ascii.is_nat a with
      | Some d => scan_digits s' (10 * acc + Z.of_nat d) (n + 1)
      | None => (acc, n, s)
      end
  end.

Definition digits (s : string) (acc : Z) : option Z :=
  match scan_digits s acc 0 with
  | (z, n, EmptyString) => if 0 <? n then Some z else None
  | _ => None
  end.

(** A sign in front of [s], and the rest. *)
Definition scan_sign (s : string) : bool * string :=
  match s with
  | String "-"%char s' => (true, s')
  | String "+"%char s' => (false, s')
  | _ => (false, s)
  end.

(** The float64 nearest to [num / den], for [num] and [den] positive; ties
    go to the even mantissa. *)
Definition nearest_float (neg : bool) (num den : Z) : number :=
  let e := Z.log2 num - Z.log2 den - 52 in
  let scaled e := if 0 <=? e then (num, den * 2 ^ e) else (num * 2 ^ (- e), den) in
  let e := if (scaled e).1 / (scaled e).2 <? 2 ^ 52 then e - 1 else e in
  let e := Z.max e (- 1074) in
  let '(A, B) := scaled e in
  let q := A / B in
  let r := A mod B in
  let q := if (B <? 2 * r) || ((2 * r =? B) && Z.odd q) then q + 1 else q in
  if (0 <=? e) && (2 ^ 1024 <=? q * 2 ^ e) then Inf
  else Float (if neg then - q else q) e.

Definition lower (a : Ascii.ascii) : Ascii.ascii :=
  let n := Ascii.N_of_ascii a in
  if (65 <=? n)%N && (n <=? 90)%N then Ascii.ascii_of_N (n + 32) else a.

Fixpoint lowercase (s : string) : string :=
  match s with
  | EmptyString => EmptyString
  | String a s' => String (lower a) (lowercase s')
  end.

(** A literal too large for a float64 is not read at all. *)
Definition in_float_range (x : number) : option number :=
  match x with
  | Whole z => match float_of_Z z with Some _ => Some x | None => None end
  | Float _ _ => Some x
  | Inf => None
  end.

Definition parse_decimal (s : string) : option number :=
  let '(neg, s) := scan_sign (ltrim (rtrim s)) in
  if bool_decide (lowercase s = "inf") || bool_decide (lowercase s = "infinity")
  then Some Inf
  else
    let '(i, ni, s1) := scan_digits s 0 0 in
    let '(m, nf, dot, s2) :=
      match s1 with
      | String "."%char s' =>
          let '(m, nf, s2) := scan_digits s' i 0 in (m, nf, true, s2)
      | _ => (i, 0, false, s1)
      end in
    if ni + nf =? 0 then None
    else
      match s2 with
      | EmptyString =>
          in_float_range
            (if dot
             then (if m =? 0 then Float 0 0 else nearest_float neg m (10 ^ nf))
             else Whole (if neg then - m else m))
      | String c s3 =>
          if bool_decide (lower c = "e"%char) then
            let '(eneg, s4) := scan_sign s3 in
            match digits s4 0 with
            | Some x =>
                let x := (if eneg then - x else x) - nf in
                in_float_range
                  (if m =? 0 then Float 0 0
                   else if 0 <=? x then nearest_float neg (m * 10 ^ x) 1
                   else nearest_float neg m (10 ^ (- x)))
            | None => None
            end
          else None
      end.

Definition valid_date (y m d : Z) : bool :=
  (1 <=? m) && (m <=? 12) && (1 <=? d) && (d <=? days_in_month y m).

Definition timestamp_of (y m d : Z) : option Z :=
  if valid_date y m d then Some (days_from_civil y m d * ns_per_day) else None.

(** The fields of [s] between its dashes. *)
Fixpoint split_dash (s : string) : list string :=
  match s with
  | EmptyString => [EmptyString]
  | String a s' =>
      if bool_decide (a = "-"%char) then EmptyString :: split_dash s'
      else match split_dash s' with
           | f :: fs => String a f :: fs
           | [] => [String a EmptyString]
           end
  end.

(** A field of digits, [lo] to [hi] of them. *)
Definition field (lo hi : nat) (s : string) : option Z :=
  if bool_decide (lo ≤ String.length s ≤ hi)%nat then digits s 0 else None.

(** [%Y-%m-%d] and [%Y-%m], matched exactly. *)
Definition parse_ymd (s : string) : option Z :=
  match split_dash s with
  | [y; m; d] =>
      y ← field 4 4 y; m ← field 2 2 m; d ← field 2 2 d; timestamp_of y m d
  | _ => None
  end.

Definition parse_ym (s : string) : option Z :=
  match split_dash s with
  | [y; m] => y ← field 4 4 y; m ← field 2 2 m; timestamp_of y m 1
  | _ => None
  end.

(** One text on its own. *)
Definition parse_any_date (s : string) : option Z :=
  match split_dash (strip s) with
  | [y; m; d] =>
      y ← field 4 4 y; m ← field 1 2 m; d ← field 1 2 d; timestamp_of y m d
  | [y; m] => y ← field 4 4 y; m ← field 1 2 m; timestamp_of y m 1
  | _ => None
  end.

Definition guess_format (series : list cell) : option string :=
  match List.find notna series with
  | Some (Str s) =>
      if bool_decide (is_Some (parse_ymd s)) then Some "%Y-%m-%d"
      else if bool_decide (is_Some (parse_ym s)) then Some "%Y-%m"
      else None
  | _ => None
  end.

Definition parse_date (format : option string) (s : string) : option Z :=
  match format with
  | None => parse_any_date s
  | Some f =>
      if bool_decide (f = "%Y-%m-%d") then parse_ymd s
      else if bool_decide (f = "%Y-%m") then parse_ym s
      else None
  end.

Definition csv_pandas : Pandas := {|
  datetime_format := guess_format;
  parse_datetime := parse_date;
  parse_number := parse_decimal;
  repr_number := pretty;
  repr_timestamp := str_timestamp;
  overflow_cast := λ _, - 2 ^ 63;
  overflow_cast_int64 := λ _, eq_refl
|}.

(** ** Vocabulary of the statements *)

(** The steps of [clean_and_transform] on the value [df] is bound to. *)
Definition set_if (col : string) (f : gmap string cell → cell) (d : DataFrame)
  : DataFrame :=
  if has_column col d then setitem col f d else d.

Definition drop_if (col : string) (d : DataFrame) : DataFrame :=
  if has_column col d then dropna col d else d.

Definition set_unless (col : string) (f : gmap string cell → cell)
    (d : DataFrame) : DataFrame :=
  if has_column col d then d else setitem col f d.

(** Every row of [d] holds a cell satisfying [P] in column [col]. *)
Definition col_all (P : cell → Prop) (col : string) (d : DataFrame) : Prop :=
  ∀ r, r ∈ rows d → ∃ c, r !! col = Some c ∧ P c.

(** The same, provided the frame has the column at all. *)
Definition col_ok (P : cell → Prop) (col : string) (d : DataFrame) : Prop :=
  has_column col d = true → col_all P col d.

Definition is_timestamp (c : cell) : Prop := ∃ t, c = Timestamp t.
Definition is_int (c : cell) : Prop := ∃ z, c = Int z ∧ int64 z = true.
Definition is_clean_str (c : cell) : Prop := ∃ s, c = Str s ∧ strip s = s.
Definition is_present (c : cell) : Prop := c ≠ NA.

(** The shape of a frame that left [clean_and_transform]. *)
Record cleaned (d : DataFrame) : Prop := mkCleaned {
  cleaned_date : col_ok is_timestamp case_month d;
  cleaned_num : ∀ col, col ∈ numerical_cols → col_ok is_int col d;
  cleaned_str : ∀ col, col ∈ str_cols → col_ok is_clean_str col d;
  cleaned_fips : col_ok is_present "state_fips_code" d;
  cleaned_process : has_column "process" d = true
}.

(** A column assignment of [clean_and_transform] seen from one row of the
    batch [b]. *)
Definition row_set_if (b : DataFrame) (col : string) (g : cell → cell)
    (r : gmap string cell) : gmap string cell :=
  if has_column col b then <[col := g (get col r)]> r else r.

(** The same with the function of the column in question. *)
Definition row_set_each (b : DataFrame) (G : string → cell → cell)
    (cols : list string) (r : gmap string cell) : gmap string cell :=
  foldl (λ r col, row_set_if b col (G col) r) r cols.

Section TransformerVocabulary.
Context {pd : Pandas}.

(** Line 36 on the value [df] is bound to. *)
Definition coerce_col (d : DataFrame) (col : string) : option DataFrame :=
  if has_column col d then
    if castable (column col d)
    then Some (setitem col (λ r, coerce_int (column col d) (get col r)) d)
    else None
  else Some d.

Fixpoint coerce_cols (d : DataFrame) (cols : list string) : option DataFrame :=
  match cols with
  | [] => Some d
  | col :: cols => d ← coerce_col d col; coerce_cols d cols
  end.

(** The value returned by [clean_and_transform] on a non-empty batch, step
    by step; [None] when it raises. *)
Definition transform (b : DataFrame) : option DataFrame :=
  let d := drop_if case_month
             (set_if case_month
                (λ r, to_datetime (column case_month b) (get case_month r)) b) in
  d ← coerce_cols d numerical_cols;
  let d := foldl (λ d col, set_if col (λ r, standardize (get col r)) d) d
                 str_cols in
  let d := foldl (λ d col, drop_if col d) d location_cols in
  Some (set_unless "process" (λ _, Str "Unknown") d).

(** The rows of the batch [b] that the date step keeps: those whose
    case_month is read as a date, if the batch has the column. *)
Definition dated (b : DataFrame) (r : gmap string cell) : bool :=
  if has_column case_month b
  then notna (to_datetime (column case_month b) (get case_month r))
  else true.

(** The column [col] as line 36 finds it: its cells in the rows the date
    step kept. *)
Definition interval_series (b : DataFrame) (col : string) : list cell :=
  get col <$> List.filter (dated b) (rows b).

(** [astype(int)] goes through for each interval column the batch has. *)
Definition finite_intervals (b : DataFrame) : bool :=
  forallb (λ col, negb (has_column col b) || castable (interval_series b col))
          numerical_cols.

(** What the steps make of one row of the batch [b], if they keep it. *)
Definition transform_row (b : DataFrame) (r : gmap string cell)
  : gmap string cell :=
  let r := row_set_if b case_month (to_datetime (column case_month b)) r in
  let r := row_set_each b (λ col, coerce_int (interval_series b col))
             numerical_cols r in
  let r := row_set_each b (λ _, standardize) str_cols r in
  if has_column "process" b then r else <["process" := Str "Unknown"]> r.

(** The rows of the batch [b] that [clean_and_transform] keeps: those the
    date step keeps and whose state_fips_code is not missing, if the batch
    has the column. *)
Definition kept (b : DataFrame) (r : gmap string cell) : bool :=
  dated b r &&
  (if has_column "state_fips_code" b
   then notna (get "state_fips_code" r) else true).
End TransformerVocabulary.

(** The local [df] no longer names the caller's object. *)
Definition rebound (s : frame_state) : Prop := df s ≠ Caller.

Definition row_of (l : list (string * cell)) : gmap string cell := list_to_map l.

(** *** Concrete batches *)

(** One well-formed row whose onset interval is negative (symptoms began
    before the specimen was taken); the feed has no specimen-interval column. *)
Definition early_onset_batch : DataFrame :=
  mkFrame ["case_month"; "res_state"; "state_fips_code"; "case_onset_interval"]
    [row_of [("case_month", Str "2020-03"); ("res_state", Str "NY");
             ("state_fips_code", Int 36); ("case_onset_interval", Int (-3))]].

(** What [clean_and_transform] returns for it. *)
Definition early_onset_cleaned : DataFrame :=
  mkFrame ["case_month"; "res_state"; "state_fips_code"; "case_onset_interval";
           "process"]
    [row_of [("case_month", Timestamp 1583020800000000000);
             ("res_state", Str "NY"); ("state_fips_code", Int 36);
             ("case_onset_interval", Int (-3)); ("process", Str "Unknown")]].

(** Two cases whose onset interval is the text of an integer above 2^53;
    the second lacks its specimen interval. *)
Definition long_interval_batch : DataFrame :=
  mkFrame ["state_fips_code"; "case_positive_specimen_interval";
           "case_onset_interval"]
    [row_of [("state_fips_code", Int 36);
             ("case_positive_specimen_interval", Str "9007199254740993");
             ("case_onset_interval", Str "9007199254740993")];
     row_of [("state_fips_code", Int 6);
             ("case_positive_specimen_interval", NA);
             ("case_onset_interval", Str "1")]].

(** One case whose onset interval is infinite. *)
Definition infinite_interval_batch : DataFrame :=
  mkFrame ["state_fips_code"; "case_onset_interval"]
    [row_of [("state_fips_code", Int 36); ("case_onset_interval", Str "inf")]].

(** Two rows: the first lacks its [res_state], the second its
    [state_fips_code]. *)
Definition missing_location_batch : DataFrame :=
  mkFrame ["case_month"; "res_state"; "state_fips_code"]
    [row_of [("case_month", Str "2020-03"); ("res_state", NA);
             ("state_fips_code", Int 36)];
     row_of [("case_month", Str "2020-03"); ("res_state", Str "CA");
             ("state_fips_code", NA)]].

(** *** Traces *)

(** The effects of [n] failed attempts: [n] requests with a sleep between
    consecutive ones and none after the last. *)
Fixpoint failed_trace (limit offset wait : Z) (n : nat) : list event :=
  match n with
  | O => []
  | S n' =>
      ReadCsv limit offset ::
      match n' with
      | O => []
      | S _ => Sleep wait :: failed_trace limit offset wait n'
      end
  end.

(** The next [n] requests for [limit] rows at [offset] all fail. *)
Definition all_fail (src : Source) (w : world) (limit offset : Z) (n : nat)
  : Prop :=
  ∀ k d, (k < n)%nat → http (attempts w + k) limit offset ≠ Response d.

(** A source that is down. *)
Definition unreachable : Source := λ _ _ _, RequestException.

(** The chunks a [fetch_chunks] run yielded, and the state a [handle_fetch]
    run ended in. *)
Definition chunks_of (run : world * generator * list DataFrame * loop_status)
  : list DataFrame := run.1.2.

Definition state_of (run : world * generator * fetch_state * loop_status)
  : fetch_state := run.1.2.

Definition world_of {St : Type} (run : world * generator * St * loop_status)
  : world := run.1.1.1.

Definition status_of {St : Type} (run : world * generator * St * loop_status)
  : loop_status := run.2.

(** [len] summed over the chunks yielded. *)
Definition rows_yielded (chunks : list DataFrame) : Z :=
  foldr (λ c n, len c + n) 0 chunks.

(** The contract of the endpoint: a request for [limit] rows is answered
    with at most [limit] rows. *)
Definition honours_limit (src : Source) : Prop :=
  ∀ n limit offset d, http n limit offset = Response d → len d ≤ Z.max 0 limit.

(** Reading a trace against the budget [m]: the rows yielded in total,
    provided every request asked for [min(chunk_size, m - rows yielded before
    it)]; [None] as soon as a request asked for anything else. *)
Fixpoint budget_scan (chunk_size m total : Z) (tr : list event) : option Z :=
  match tr with
  | [] => Some total
  | ReadCsv limit _ :: tr =>
      if bool_decide (limit = Z.min chunk_size (m - total))
      then budget_scan chunk_size m total tr else None
  | Sleep _ :: tr => budget_scan chunk_size m total tr
  | Yield n :: tr => budget_scan chunk_size m (total + n) tr
  end.

(** The budget invariant of a run that started in the world [w0]: what the
    generator's counters say about the chunks collected in [acc] and the
    effects since [w0]. *)
Definition budget_inv (a : fetch_args) (m : Z) (w0 : world)
    (g : generator) (w : world) (acc : list DataFrame) : Prop :=
  ∃ new, trace w = trace w0 ++ new ∧
    budget_scan (chunk_size a) m 0 new = Some (rows_yielded acc) ∧
    0 ≤ rows_yielded acc ≤ m ∧
    match g with
    | AtLoop _ total_rows => total_rows = rows_yielded acc
    | AtYield _ total_rows _ chunk =>
        total_rows + len chunk = rows_yielded acc ∧ 1 ≤ len chunk
    | Finished => True
    end.

(** A bound on the resumptions a generator under budget [m] still needs. *)
Definition resumptions_left (m : Z) (g : generator) : nat :=
  match g with
  | AtLoop _ total_rows => S (Z.to_nat (m - total_rows))
  | AtYield _ total_rows _ chunk => S (Z.to_nat (m - total_rows - len chunk))
  | Finished => 1
  end.

(** A page of [n] rows, and a source of 250 rows that serves the page asked
    for. *)
Definition page (n : Z) : DataFrame :=
  mkFrame ["res_state"; "state_fips_code"]
    (replicate (Z.to_nat n)
       (row_of [("res_state", Str "NY"); ("state_fips_code", Int 36)])).

Definition paged_source : Source :=
  λ _ limit offset, Response (page (Z.min limit (250 - offset))).

(** A source that answers every request with five rows, whatever the
    limit. *)
Definition generous_source : Source := λ _ _ _, Response (page 5).

Definition case_columns : list string :=
  ["case_month"; "res_state"; "state_fips_code"].

(** A source that serves a fixed list of cases, [limit] rows from [offset]. *)
Definition table_source (cases : list (gmap string cell)) : Source :=
  λ _ limit offset,
    Response (mkFrame case_columns
                (take (Z.to_nat limit) (drop (Z.to_nat offset) cases))).

Definition case_in (month : string) : gmap string cell :=
  row_of [("case_month", Str month); ("res_state", Str "NY");
          ("state_fips_code", Int 36)].

(** Three cases, the first of them from before March 2020. *)
Definition three_cases : list (gmap string cell) :=
  [case_in "2020-02"; case_in "2020-03"; case_in "2020-03"].

Definition two_cases : list (gmap string cell) :=
  [case_in "2020-03"; case_in "2020-03"].

Definition from_march : fetch_args :=
  mkArgs 2 None (Some (days_from_civil 2020 3 1)) None.

Definition unfiltered : fetch_args := mkArgs 2 None None None.

Definition capped : fetch_args := mkArgs 2 (Some 2) None None.

(** *** Stored records *)

(** The record [load_cdc_data] builds for a New York case of the given
    month ([NA]: NULL) and [death_yn], every other column at its default. *)
Definition case_record (month : cell) (death : string) : gmap string cell :=
  row_of
    [("case_month", month); ("res_state", Str "NY"); ("state_fips_code", Int 0);
     ("age_group", Str "Unknown"); ("sex", Str "Unknown");
     ("race", Str "Unknown"); ("ethnicity", Str "Unknown");
     ("case_positive_specimen_interval", Int 0); ("case_onset_interval", Int 0);
     ("process", Str "Unknown"); ("exposure_yn", Str "Unknown");
     ("current_status", Str "Unknown"); ("symptom_status", Str "Unknown");
     ("hosp_yn", Str "Unknown"); ("icu_yn", Str "Unknown");
     ("death_yn", Str death); ("underlying_conditions_yn", Str "Unknown")].

(** A batch of one case whose feed has no [case_month] column. *)
Definition undated_batch (death : string) : DataFrame :=
  mkFrame ["res_state"; "death_yn"]
    [row_of [("res_state", Str "NY"); ("death_yn", Str death)]].

(** An engine that accepts every batch. *)
Definition accepting : Engine := {|
  cursor_error := λ _, false;
  engine_error := λ _ _ _, false;
  rollback_error := λ _, false;
  close_error := λ _, false
|}.

(** An engine that refuses the first batch it is sent and accepts every
    later one. *)
Definition refusing_once : Engine := {|
  cursor_error := λ _, false;
  engine_error := λ n _ _, bool_decide (n = 0%nat);
  rollback_error := λ _, false;
  close_error := λ _, false
|}.

(** ** Further vocabulary *)

(** [F] maps the rows of [b] that satisfy [P], in order, onto the rows of
    [d], which has the columns of [b]. *)
Definition rows_as (F : gmap string cell → gmap string cell)
    (P : gmap string cell → bool) (b d : DataFrame) : Prop :=
  columns d = columns b ∧ rows d = F <$> List.filter P (rows b).

(** A batch of three rows: a good one, one without [res_state] and one
    whose month does not parse. *)
Definition mixed_batch : DataFrame :=
  mkFrame ["case_month"; "res_state"; "state_fips_code"]
    [row_of [("case_month", Str "2020-03"); ("res_state", Str " NY ");
             ("state_fips_code", Int 36)];
     row_of [("case_month", Str "2020-04"); ("res_state", NA);
             ("state_fips_code", Int 6)];
     row_of [("case_month", Str "soon"); ("res_state", Str "TX");
             ("state_fips_code", Int 48)]].

(** What [clean_and_transform] returns for it. *)
Definition mixed_cleaned : DataFrame :=
  mkFrame ["case_month"; "res_state"; "state_fips_code"; "process"]
    [row_of [("case_month", Timestamp 1583020800000000000);
             ("res_state", Str "NY"); ("state_fips_code", Int 36);
             ("process", Str "Unknown")];
     row_of [("case_month", Timestamp 1585699200000000000);
             ("res_state", Str "Unknown"); ("state_fips_code", Int 6);
             ("process", Str "Unknown")]].

(** Two rows of a column of months: the state of the first is written
    between no-break spaces (U+00A0), the month of the second with its
    day. *)
Definition odd_batch : DataFrame :=
  mkFrame ["case_month"; "res_state"; "state_fips_code"]
    [row_of [("case_month", Str "2020-03");
             ("res_state",
              Str (String (Ascii.ascii_of_N 194) (String (Ascii.ascii_of_N 160)
                     ("NY" +:+ String (Ascii.ascii_of_N 194)
                                 (String (Ascii.ascii_of_N 160) "")))));
             ("state_fips_code", Int 36)];
     row_of [("case_month", Str "2020-04-15"); ("res_state", Str "CA");
             ("state_fips_code", Int 6)]].

(** The effects of [k] failed attempts, each followed by a sleep, and of
    the attempt that succeeds. *)
Definition retried_trace (limit offset wait : Z) (k : nat) : list event :=
  concat (replicate k [ReadCsv limit offset; Sleep wait])
  ++ [ReadCsv limit offset].

(** Reading a trace for its offsets: the offset the next request is due to
    ask for, provided every request asked for [chunk_size] times the number
    of chunks yielded before it; [None] as soon as one asked for another. *)
Fixpoint offsets_scan (chunk_size offset : Z) (tr : list event) : option Z :=
  match tr with
  | [] => Some offset
  | ReadCsv _ o :: tr =>
      if bool_decide (o = offset) then offsets_scan chunk_size offset tr
      else None
  | Sleep _ :: tr => offsets_scan chunk_size offset tr
  | Yield _ :: tr => offsets_scan chunk_size (offset + chunk_size) tr
  end.

(** The offset the generator asks for next. *)
Definition next_offset (a : fetch_args) (g : generator) : option Z :=
  match g with
  | AtLoop offset _ => Some offset
  | AtYield offset _ _ _ => Some (offset + chunk_size a)
  | Finished => None
  end.

(** The case_month of the row is a timestamp of a day within the range
    requested. *)
Definition in_date_range (a : fetch_args) (r : gmap string cell) : Prop :=
  ∃ t, get case_month r = Timestamp t ∧
       (∀ d, start_date a = Some d → d ≤ t / ns_per_day) ∧
       (∀ d, end_date a = Some d → t / ns_per_day ≤ d).

(** A source that never runs short: it answers every request with a full
    page. *)
Definition endless_source : Source := λ _ limit _, Response (page limit).


(** Two keys collide on [unique_case]: they are equal and hold no NULL. *)
Definition collides (k1 k2 : list cell) : bool :=
  forallb notna k1 && bool_decide (k1 = k2).

(** No two of the keys collide. *)
Fixpoint unique_keys (ks : list (list cell)) : Prop :=
  match ks with
  | [] => True
  | k :: ks' => Forall (λ k', collides k k' = false) ks' ∧ unique_keys ks'
  end.

(** The table satisfies [UNIQUE KEY unique_case]. *)
Definition unique_case_holds (table : list (gmap string cell)) : Prop :=
  unique_keys (key_of <$> table).

(** The stored row [now] is the row [old] but for its volatile columns. *)
Definition same_but_volatile (old now : gmap string cell) : Prop :=
  ∀ col, col ∉ volatile → now !! col = old !! col.

(** The index of the first stored row the new row collides with. *)
Fixpoint find_duplicate (new : gmap string cell)
    (table : list (gmap string cell)) : option nat :=
  match table with
  | [] => None
  | old :: table' =>
      if duplicate_key new old then Some 0%nat
      else S <$> find_duplicate new table'
  end.

(** The row holds a value for each volatile column, as every tuple bound
    to the INSERT does. *)
Definition has_volatile (r : gmap string cell) : Prop :=
  ∀ col, col ∈ volatile → is_Some (r !! col).

(** A batch of two dated cases of one key and one of another. *)
Definition dated_batch : DataFrame :=
  mkFrame ["case_month"; "res_state"; "death_yn"]
    [row_of [("case_month", Timestamp 1583020800000000000);
             ("res_state", Str "NY"); ("death_yn", Str "No")];
     row_of [("case_month", Timestamp 1583020800000000000);
             ("res_state", Str "CA"); ("death_yn", Str "No")];
     row_of [("case_month", Timestamp 1583020800000000000);
             ("res_state", Str "NY"); ("death_yn", Str "Yes")]].

(** Two generator objects that differ at most in the content of the chunk
    they are suspended on, which has the same number of rows in both. *)
Definition gen_sim (g g' : generator) : Prop :=
  match g, g' with
  | AtLoop o t, AtLoop o' t' => o = o' ∧ t = t'
  | AtYield o t l c, AtYield o' t' l' c' =>
      o = o' ∧ t = t' ∧ l = l' ∧ len c = len c'
  | Finished, Finished => True
  | _, _ => False
  end.

#[global] Instance MySQLHandler_eq_dec : EqDecision MySQLHandler.
Proof. solve_decision. Defined.

(** ** mysql_handler.py: the aggregate queries *)

(** [COUNT( * ) ... GROUP BY col], one row at a time: the count of the
    value's group goes up by one, a new group starting at 1.  Values compare
    as they do for the unique key, NULL forming a group of its own. *)
Fixpoint count_group (v : cell) (groups : list (cell * Z)) : list (cell * Z) :=
  match groups with
  | [] => [(v, 1)]
  | g :: groups' =>
      if bool_decide (g.1 = v) then (g.1, g.2 + 1) :: groups'
      else g :: count_group v groups'
  end.

Definition group_by (col : string) (table : list (gmap string cell))
  : list (cell * Z) :=
  foldl (λ groups r, count_group (get col r) groups) [] table.

(** [ORDER BY total_cases DESC].  The engine is free in the order of groups
    of equal count; here they stay in the order they have. *)
Fixpoint insert_desc (g : cell * Z) (sorted : list (cell * Z))
  : list (cell * Z) :=
  match sorted with
  | [] => [g]
  | g' :: sorted' =>
      if g'.2 <? g.2 then g :: g' :: sorted'
      else g' :: insert_desc g sorted'
  end.

Definition order_by_total_cases_desc (groups : list (cell * Z))
  : list (cell * Z) :=
  foldr insert_desc [] groups.

(** [pd.DataFrame(cursor.fetchall())] of a dictionary cursor: a row per
    group, and the frame without columns when there is none. *)
Definition result_frame (col : string) (groups : list (cell * Z)) : DataFrame :=
  match groups with
  | [] => empty_frame
  | _ =>
      mkFrame [col; "total_cases"]
        ((λ g, row_of [(col, g.1); ("total_cases", Int g.2)]) <$> groups)
  end.

(** The engine may refuse a query ([mysql.connector.Error]); the queries
    are told apart by the column they group by. *)
Class Reader : Type :=
  query_error : string → list (gmap string cell) → bool.

Section Queries.
Context {rd : Reader}.

(** [SELECT col, COUNT( * ) AS total_cases FROM cdc_covid_cases ... GROUP BY
    col ORDER BY total_cases DESC], with the error handling shared by the
    three query methods. *)
Definition select_counts (col : string) (selected : list (gmap string cell))
  : DataFrame :=
  if query_error col selected then empty_frame
  else result_frame col (order_by_total_cases_desc (group_by col selected)).

(** [MySQLHandler.query_total_cases_by_state(state_code)]; the WHERE clause
    is added when [state_code] is neither [None] nor empty. *)
Definition query_total_cases_by_state (h : MySQLHandler)
    (state_code : option string) : DataFrame :=
  match conn h with
  | None => empty_frame
  | Some table =>
      match state_code with
      | Some code =>
          if bool_decide (code = "") then select_counts "res_state" table
          else select_counts "res_state"
                 (List.filter
                    (λ r, bool_decide (get "res_state" r = Str code)) table)
      | None => select_counts "res_state" table
      end
  end.

(** [MySQLHandler.query_cases_by_age_group()] *)
Definition query_cases_by_age_group (h : MySQLHandler) : DataFrame :=
  match conn h with
  | None => empty_frame
  | Some table => select_counts "age_group" table
  end.

(** [MySQLHandler.query_cases_by_sex()] *)
Definition query_cases_by_sex (h : MySQLHandler) : DataFrame :=
  match conn h with
  | None => empty_frame
  | Some table => select_counts "sex" table
  end.

(** What [_handle_query_data] prints. *)
Inductive printed : Type :=
  | QueryResults (result_df : DataFrame)   (* "Query Results:" and the table *)
  | NoResults                              (* "No results found for your query." *)
  | UnknownQuery.                          (* nothing printed, an error logged *)

(** [CLIManager._handle_query_data(args)] *)
Definition handle_query_data (h : MySQLHandler) (query_type : string)
    (state : option string) : printed :=
  let show result_df :=
    if negb (empty result_df) then QueryResults result_df else NoResults in
  if bool_decide (query_type = "total_cases")
  then show (query_total_cases_by_state h state)
  else if bool_decide (query_type = "cases_by_age_group")
  then show (query_cases_by_age_group h)
  else if bool_decide (query_type = "cases_by_sex")
  then show (query_cases_by_sex h)
  else UnknownQuery.
End Queries.

(** The [total_cases] column of a result, and the column grouped by. *)
Definition total_cases (d : DataFrame) : list Z :=
  (λ r, match get "total_cases" r with Int n => n | _ => 0 end) <$> rows d.

Definition grouped (col : string) (d : DataFrame) : list cell :=
  get col <$> rows d.

Definition sum_counts (counts : list Z) : Z := foldr Z.add 0 counts.

(** A reader that answers every query. *)
Definition answering : Reader := λ _ _, false.

(** A table of two New York cases and one Californian. *)
Definition three_stored : list (gmap string cell) :=
  [<["res_state" := Str "CA"]> (case_record (Str "2020-03-01") "No");
   case_record (Str "2020-03-01") "No";
   case_record (Str "2020-04-01") "No"].

(** The stored rows whose [col] is [v]. *)
Definition stored_with (col : string) (v : cell)
    (table : list (gmap string cell)) : list (gmap string cell) :=
  List.filter (λ r, bool_decide (get col r = v)) table.

(** The cases a list of groups, and a result, report for the value [v]. *)
Definition tally (v : cell) (groups : list (cell * Z)) : Z :=
  sum_counts ((List.filter (λ g, bool_decide (g.1 = v)) groups).*2).

Definition cases_for (col : string) (v : cell) (d : DataFrame) : Z :=
  sum_counts (total_cases (mkFrame (columns d) (stored_with col v (rows d)))).

(** Counts from the largest down. *)
Fixpoint descending (counts : list Z) : bool :=
  match counts with
  | n :: (n' :: _) as rest => (n' <=? n) && descending rest
  | _ => true
  end.

(** A ranking: counts from the largest down, each at least one, no value of
    the grouped column twice. *)
Definition ranked (col : string) (d : DataFrame) : Prop :=
  descending (total_cases d) = true ∧
  Forall (λ n, 1 ≤ n) (total_cases d) ∧
  NoDup (grouped col d).

(** ** Facts about strings and frames *)

Lemma skip_space_split l l' :
  skip_space l = Some l' → ∃ p, l = p ++ l' ∧ p ≠ [].
Proof.
  unfold skip_space. intros Hs.
  destruct l as [|a [|b [|c l3]]]; [done|..];
    repeat match type of Hs with
           | (if ?t then _ else _) = _ => destruct t
           end; simplify_eq.
  - by exists [a].
  - by exists [a].
  - by exists [a; b].
  - by exists [a].
  - by exists [a; b].
  - by exists [a; b; c].
Qed.

Lemma skip_space_back_split l l' :
  skip_space_back l = Some l' → ∃ p, l = p ++ l' ∧ p ≠ [].
Proof.
  unfold skip_space_back. intros Hs.
  destruct l as [|a [|b [|c l3]]]; [done|..];
    repeat match type of Hs with
           | (if ?t then _ else _) = _ => destruct t
           end; simplify_eq.
  - by exists [a].
  - by exists [a].
  - by exists [a; b].
  - by exists [a].
  - by exists [a; b].
  - by exists [a; b; c].
Qed.

Lemma skip_space_back_app l l' x :
  skip_space_back l = Some l' → skip_space_back (l ++ x) = Some (l' ++ x).
Proof.
  unfold skip_space_back. intros Hs.
  destruct l as [|a [|b [|c l3]]]; [done|..]; cbn [app];
    repeat match type of Hs with
           | (if ?t then _ else _) = _ => destruct t
           end; by simplify_eq.
Qed.

Section StripFront.
Variable skip : list Ascii.ascii → option (list Ascii.ascii).
Hypothesis skip_split : ∀ l l', skip l = Some l' → ∃ p, l = p ++ l' ∧ p ≠ [].
Hypothesis skip_app : ∀ l l' x, skip l = Some l' → skip (l ++ x) = Some (l' ++ x).

(** With fuel for every byte, nothing is left to strip. *)
Lemma strip_front_done fuel l :
  (length l ≤ fuel)%nat → skip (strip_front skip fuel l) = None.
Proof.
  revert l. induction fuel as [|fuel IH]; intros l Hlen; simpl.
  - destruct l; [|simpl in Hlen; lia].
    destruct (skip []) as [l'|] eqn:Hs; [|done].
    destruct (skip_split _ _ Hs) as (p & Hp & Hne). by destruct p.
  - destruct (skip l) as [l'|] eqn:Hs; [|done]. apply IH.
    destruct (skip_split _ _ Hs) as (p & -> & Hne).
    rewrite length_app in Hlen. destruct p; [done|]. simpl in Hlen. lia.
Qed.

Lemma strip_front_fixed fuel l : skip l = None → strip_front skip fuel l = l.
Proof. intros Hs. destruct fuel; simpl; [done|]. by rewrite Hs. Qed.

Lemma strip_front_suffix fuel l : ∃ p, l = p ++ strip_front skip fuel l.
Proof.
  revert l. induction fuel as [|fuel IH]; intros l; simpl; [by exists []|].
  destruct (skip l) as [l'|] eqn:Hs; [|by exists []].
  destruct (skip_split _ _ Hs) as (p & -> & _).
  destruct (IH l') as [p' Hp']. exists (p ++ p').
  by rewrite <-app_assoc, <-Hp'.
Qed.

Lemma strip_front_idem l fuel :
  strip_front skip fuel (strip_front skip (length l) l)
  = strip_front skip (length l) l.
Proof. apply strip_front_fixed, strip_front_done. lia. Qed.

(** A list that is stripped stays so when bytes are cut off its end. *)
Lemma skip_prefix l x : skip (l ++ x) = None → skip l = None.
Proof.
  intros Hs. destruct (skip l) as [l'|] eqn:Hl; [|done].
  by rewrite (skip_app _ _ x Hl) in Hs.
Qed.
End StripFront.

Lemma lstrip_bytes_idem l : lstrip_bytes (lstrip_bytes l) = lstrip_bytes l.
Proof.
  unfold lstrip_bytes at 1 2.
  apply strip_front_idem. apply skip_space_split.
Qed.

Lemma rstrip_bytes_idem l : rstrip_bytes (rstrip_bytes l) = rstrip_bytes l.
Proof.
  unfold rstrip_bytes. rewrite rev_involutive, !length_rev. f_equal.
  rewrite <-(length_rev l).
  apply strip_front_idem. apply skip_space_back_split.
Qed.

Lemma rstrip_lstrip_bytes l :
  rstrip_bytes l = l → rstrip_bytes (lstrip_bytes l) = lstrip_bytes l.
Proof.
  intros Hl.
  assert (skip_space_back (rev l) = None) as Hnone.
  { assert (length (rev l) ≤ length l)%nat as Hlen
      by (rewrite length_rev; lia).
    pose proof (strip_front_done skip_space_back skip_space_back_split
                  (length l) (rev l) Hlen) as Hdone.
    unfold rstrip_bytes in Hl. apply (f_equal (@rev _)) in Hl.
    rewrite rev_involutive in Hl. by rewrite Hl in Hdone. }
  destruct (strip_front_suffix skip_space skip_space_split (length l) l)
    as [p Hp].
  fold (lstrip_bytes l) in Hp.
  unfold rstrip_bytes. rewrite strip_front_fixed; [apply rev_involutive|].
  apply (skip_prefix skip_space_back skip_space_back_app _ (rev p)).
  by rewrite <-rev_app_distr, <-Hp.
Qed.

Lemma strip_idem s : strip (strip s) = strip s.
Proof.
  unfold strip, lstrip, rstrip.
  rewrite !String.list_ascii_of_string_of_list_ascii.
  by rewrite rstrip_lstrip_bytes, lstrip_bytes_idem
    by apply rstrip_bytes_idem.
Qed.

Lemma elem_of_filter {A} (p : A → bool) (l : list A) x :
  x ∈ List.filter p l ↔ x ∈ l ∧ p x = true.
Proof. rewrite !list_elem_of_In. apply filter_In. Qed.

Lemma filter_all {A} (p : A → bool) (l : list A) :
  (∀ x, x ∈ l → p x = true) → List.filter p l = l.
Proof.
  induction l as [|x l IH]; intros Hall; simpl; [done|].
  rewrite Hall by left. f_equal. apply IH. intros y Hy. apply Hall. by right.
Qed.

Lemma filter_length_le {A} (p : A → bool) (l : list A) :
  (length (List.filter p l) ≤ length l)%nat.
Proof. induction l as [|x l IH]; simpl; [lia|]. destruct (p x); simpl; lia. Qed.

Lemma has_column_true col d : has_column col d = true ↔ col ∈ columns d.
Proof. unfold has_column. by rewrite bool_decide_eq_true. Qed.

Lemma columns_set_if col f d : columns (set_if col f d) = columns d.
Proof.
  unfold set_if. destruct (has_column col d) eqn:Hc; [|done].
  simpl. by rewrite Hc.
Qed.

Lemma columns_drop_if col d : columns (drop_if col d) = columns d.
Proof. unfold drop_if. by destruct (has_column col d). Qed.

Lemma has_column_set_if c col f d :
  has_column c (set_if col f d) = has_column c d.
Proof. unfold has_column. by rewrite columns_set_if. Qed.

Lemma has_column_setitem c col f d :
  has_column c (setitem col f d) = has_column c d || bool_decide (c = col).
Proof.
  unfold has_column at 1. simpl. destruct (has_column col d) eqn:Hc.
  - apply has_column_true in Hc. unfold has_column.
    apply eq_true_iff_eq. rewrite orb_true_iff, !bool_decide_eq_true.
    split; [by left|]. intros [?| ->]; done.
  - unfold has_column. apply eq_true_iff_eq.
    rewrite orb_true_iff, !bool_decide_eq_true, elem_of_app, list_elem_of_singleton.
    done.
Qed.

Lemma len_setitem col f d : len (setitem col f d) = len d.
Proof. unfold len. simpl. by rewrite length_fmap. Qed.

Lemma len_select keep d : len (select keep d) ≤ len d.
Proof. unfold len. simpl. pose proof (filter_length_le keep (rows d)). lia. Qed.

Lemma empty_false_len d : empty d = false → 1 ≤ len d.
Proof.
  unfold empty, len. destruct (columns d); [done|].
  destruct (rows d); [done|]. simpl. lia.
Qed.

(** *** Column properties through the steps *)

Lemma col_ok_impl (P Q : cell → Prop) col d :
  (∀ c, P c → Q c) → col_ok P col d → col_ok Q col d.
Proof.
  intros HPQ Hok Hc r Hr. destruct (Hok Hc r Hr) as (c & ? & ?). eauto.
Qed.

Lemma drop_if_id col d : col_ok is_present col d → drop_if col d = d.
Proof.
  intros Hok. unfold drop_if. destruct (has_column col d) eqn:Hc; [|done].
  destruct d as [cols rs]. unfold dropna, select. simpl. f_equal.
  apply filter_all. intros r Hr. destruct (Hok Hc r Hr) as (c & Hl & Hp).
  unfold get. rewrite Hl. simpl. by destruct c.
Qed.

(** ** data_transformer.py *)

Lemma filter_fmap {A B} (p : B → bool) (f : A → B) (l : list A) :
  List.filter p (f <$> l) = f <$> List.filter (λ x, p (f x)) l.
Proof.
  induction l as [|x l IH]; [done|].
  rewrite fmap_cons. cbn [List.filter]. cbv beta.
  destruct (p (f x)); rewrite IH; [by rewrite fmap_cons|done].
Qed.

Lemma filter_filter {A} (p q : A → bool) (l : list A) :
  List.filter q (List.filter p l) = List.filter (λ x, p x && q x) l.
Proof.
  induction l as [|x l IH]; simpl; [done|].
  destruct (p x); simpl; [|done]. destruct (q x); simpl; by rewrite IH.
Qed.

Lemma filter_ext_bool {A} (p q : A → bool) (l : list A) :
  (∀ x, p x = q x) → List.filter p l = List.filter q l.
Proof.
  intros Hpq. induction l as [|x l IH]; simpl; [done|].
  by rewrite Hpq, IH.
Qed.

Lemma forallb_elem_of {A} (p : A → bool) (l : list A) x :
  forallb p l = true → x ∈ l → p x = true.
Proof.
  intros Hall Hx. apply list_elem_of_In in Hx.
  by apply (proj1 (forallb_forall p l) Hall).
Qed.

Lemma forallb_intro {A} (p : A → bool) (l : list A) :
  (∀ x, x ∈ l → p x = true) → forallb p l = true.
Proof.
  intros Hall. apply forallb_forall. intros x Hx. apply Hall.
  by apply list_elem_of_In.
Qed.

(** *** Rows *)

Lemma lookup_row_set_if_ne b col c g r :
  col ≠ c → row_set_if b c g r !! col = r !! col.
Proof.
  intros Hne. unfold row_set_if. destruct (has_column c b); [|done].
  by rewrite lookup_insert_ne.
Qed.

Lemma lookup_row_set_if_eq b col g r :
  has_column col b = true → row_set_if b col g r !! col = Some (g (get col r)).
Proof. intros Hc. unfold row_set_if. rewrite Hc. apply lookup_insert_eq. Qed.

Lemma get_row_set_if_ne b col c g r :
  col ≠ c → get col (row_set_if b c g r) = get col r.
Proof. intros Hne. unfold get. by rewrite lookup_row_set_if_ne. Qed.

Lemma get_row_set_if_eq b col g r :
  has_column col b = true → get col (row_set_if b col g r) = g (get col r).
Proof. intros Hc. unfold get at 1. by rewrite lookup_row_set_if_eq. Qed.

Lemma lookup_row_set_each_ne b G l col r :
  col ∉ l → row_set_each b G l r !! col = r !! col.
Proof.
  unfold row_set_each. revert r.
  induction l as [|c l IH]; intros r Hnot; simpl; [done|].
  apply not_elem_of_cons in Hnot as [Hne Hnot].
  rewrite IH by done. by apply lookup_row_set_if_ne.
Qed.

Lemma get_row_set_each_ne b G l col r :
  col ∉ l → get col (row_set_each b G l r) = get col r.
Proof. intros Hnot. unfold get. by rewrite lookup_row_set_each_ne. Qed.

Lemma lookup_row_set_each_in b G l col r :
  col ∈ l → NoDup l → has_column col b = true →
  row_set_each b G l r !! col = Some (G col (get col r)).
Proof.
  unfold row_set_each. revert r.
  induction l as [|c l IH]; intros r Hin Hnd Hc; simpl.
  - by apply elem_of_nil in Hin.
  - apply NoDup_cons in Hnd as [Hcl Hnd].
    destruct (decide (col = c)) as [->|Hne].
    + fold (row_set_each b G l (row_set_if b c (G c) r)).
      rewrite lookup_row_set_each_ne by done.
      by apply lookup_row_set_if_eq.
    + apply elem_of_cons in Hin as [?|Hin]; [done|].
      rewrite IH by done. by rewrite get_row_set_if_ne.
Qed.

(** *** Frames through the steps *)

Lemma rows_as_refl b : rows_as (λ r, r) (λ _, true) b b.
Proof.
  split; [done|]. rewrite list_fmap_id.
  symmetry. by apply filter_all.
Qed.

Lemma rows_as_has_column F P b d col :
  rows_as F P b d → has_column col d = has_column col b.
Proof. intros [Hcols _]. unfold has_column. by rewrite Hcols. Qed.

Lemma rows_as_set_if F P b d col g :
  rows_as F P b d →
  rows_as (λ r0, row_set_if b col g (F r0)) P b
          (set_if col (λ r, g (get col r)) d).
Proof.
  intros Has. pose proof (rows_as_has_column _ _ _ _ col Has) as Hc.
  destruct Has as [Hcols Hrows]. split; [by rewrite columns_set_if|].
  unfold set_if, row_set_if. rewrite Hc.
  destruct (has_column col b); [|done].
  cbn [setitem rows]. rewrite Hrows, <-list_fmap_compose. done.
Qed.

Lemma rows_as_drop_if F P b d col :
  rows_as F P b d →
  rows_as F (λ r0, P r0 && (if has_column col b
                            then notna (get col (F r0)) else true))
          b (drop_if col d).
Proof.
  intros Has. pose proof (rows_as_has_column _ _ _ _ col Has) as Hc.
  destruct Has as [Hcols Hrows]. split; [by rewrite columns_drop_if|].
  unfold drop_if. rewrite Hc. destruct (has_column col b).
  - cbn [dropna select rows]. rewrite Hrows, filter_fmap, filter_filter. done.
  - rewrite Hrows. f_equal. apply filter_ext_bool. intros x.
    by rewrite andb_true_r.
Qed.

Lemma rows_as_set_each F P b d G l :
  rows_as F P b d →
  rows_as (λ r0, row_set_each b G l (F r0)) P b
          (foldl (λ d c, set_if c (λ r, G c (get c r)) d) d l).
Proof.
  unfold row_set_each.
  revert F d. induction l as [|c l IH]; intros F d Has; simpl; [done|].
  apply (IH (λ r0, row_set_if b c (G c) (F r0))). by apply rows_as_set_if.
Qed.

Lemma rows_as_ext F P Q b d :
  (∀ r, P r = Q r) → rows_as F P b d → rows_as F Q b d.
Proof.
  intros HPQ [Hcols Hrows]. split; [done|].
  rewrite Hrows. f_equal. by apply filter_ext_bool.
Qed.

Lemma rows_as_column F P b d col :
  rows_as F P b d →
  (∀ r0, get col (F r0) = get col r0) →
  column col d = get col <$> List.filter P (rows b).
Proof.
  intros [_ Hrows] Hget. unfold column. rewrite Hrows, <-list_fmap_compose.
  apply list_fmap_ext. intros i r0 _. apply Hget.
Qed.

Lemma set_if_same col f d :
  (has_column col d = true → ∀ r, r ∈ rows d → <[col := f r]> r = r) →
  set_if col f d = d.
Proof.
  intros Hsame. unfold set_if. destruct (has_column col d) eqn:Hc; [|done].
  destruct d as [cols rs]. unfold setitem. rewrite Hc. simpl. f_equal.
  rewrite <-(list_fmap_id rs) at 2. apply list_fmap_ext.
  intros i r Hr. simpl. apply (Hsame eq_refl).
  by eapply list_elem_of_lookup_2.
Qed.

Section TransformerFacts.
Context {pd : Pandas}.

(** *** The conversions *)

Lemma to_datetime_shape series c :
  is_timestamp (to_datetime series c) ∨ to_datetime series c = NA.
Proof.
  destruct c as [|s|z|t]; simpl; [by right| | |left; by eexists].
  - destruct (parse_datetime _ s); [left; by eexists|by right].
  - destruct (_ && _); [left; by eexists|by right].
Qed.

Lemma to_datetime_fixed series c :
  is_timestamp c → to_datetime series c = c.
Proof. by intros [t ->]. Qed.

Lemma standardize_shape c : is_clean_str (standardize c).
Proof.
  destruct c; simpl; eexists; (split; [done|apply strip_idem]).
Qed.

Lemma standardize_fixed c : is_clean_str c → standardize c = c.
Proof.
  intros (s & -> & Hs). change (standardize (Str s)) with (Str (strip s)).
  by rewrite Hs.
Qed.

Lemma notna_standardize c : notna (standardize c) = true.
Proof. by destruct c. Qed.

Lemma wrap_int64_range z : int64 (wrap_int64 z) = true.
Proof.
  unfold wrap_int64, int64.
  pose proof (Z.mod_pos_bound z (2 ^ 64) eq_refl) as Hm.
  change (2 ^ 64) with (2 * 2 ^ 63) in *.
  destruct (z mod (2 * 2 ^ 63) <? 2 ^ 63) eqn:Hlt;
    apply andb_true_intro; split; lia.
Qed.

Lemma cast_int64_range v : int64 (cast_int64 v) = true.
Proof.
  unfold cast_int64. destruct (int64 v) eqn:Hv; [done|].
  apply overflow_cast_int64.
Qed.

(** In a column of dtype int64 every element is an integer of that
    range. *)
Lemma numeric_dtype_int64 xs x :
  numeric_dtype xs = Int64 → x ∈ xs →
  ∃ z, x = Some (Whole z) ∧ int64 z = true.
Proof.
  unfold numeric_dtype. destruct (forallb _ xs) eqn:Hall.
  - intros _ Hx. pose proof (forallb_elem_of _ _ _ Hall Hx) as Hz.
    destruct x as [[z| |]|]; [eauto|done..].
  - intros Hdt. by case_match.
Qed.

Lemma numeric_dtype_all_int64 xs :
  (∀ x, x ∈ xs → ∃ z, x = Some (Whole z) ∧ int64 z = true) →
  numeric_dtype xs = Int64.
Proof.
  intros Hall. unfold numeric_dtype. rewrite forallb_intro; [done|].
  intros x Hx. by destruct (Hall x Hx) as (z & -> & ?).
Qed.

(** Whatever the column, what [astype(int)] gives is an int64. *)
Lemma astype_int_range xs x z :
  x ∈ xs → astype_int (numeric_dtype xs) x = Some z → int64 z = true.
Proof.
  intros Hx Hz. destruct x as [[z0|m e|]|]; simpl in Hz.
  - destruct (numeric_dtype xs) eqn:Hdt.
    + destruct (numeric_dtype_int64 _ _ Hdt Hx) as (z1 & [= <-] & Hr).
      by simplify_eq.
    + simplify_eq. apply wrap_int64_range.
    + destruct (float_of_Z z0); simplify_eq/=. apply cast_int64_range.
  - simplify_eq. apply cast_int64_range.
  - done.
  - by simplify_eq.
Qed.

Lemma coerce_int_shape series c :
  c ∈ series → is_int (coerce_int series c).
Proof.
  intros Hc. unfold coerce_int.
  destruct (astype_int _ (to_numeric c)) as [z|] eqn:Hz; simpl.
  - exists z. split; [done|].
    eapply astype_int_range; [|done]. apply list_elem_of_fmap. eauto.
  - by exists 0.
Qed.

(** On a column of int64 integers the conversion goes through and changes
    nothing. *)
Lemma int_series_dtype series :
  (∀ c, c ∈ series → is_int c) →
  numeric_dtype (to_numeric <$> series) = Int64.
Proof.
  intros Hall. apply numeric_dtype_all_int64. intros x Hx.
  apply list_elem_of_fmap in Hx as (c & -> & Hc).
  destruct (Hall c Hc) as (z & -> & Hz). eauto.
Qed.

Lemma castable_ints series :
  (∀ c, c ∈ series → is_int c) → castable series = true.
Proof.
  intros Hall. unfold castable. rewrite int_series_dtype by done.
  apply forallb_intro. intros c Hc. destruct (Hall c Hc) as (z & -> & Hz).
  apply bool_decide_eq_true. simpl. by eexists.
Qed.

Lemma coerce_int_fixed series c :
  (∀ c, c ∈ series → is_int c) → is_int c → coerce_int series c = c.
Proof.
  intros Hall (z & -> & Hz). unfold coerce_int.
  by rewrite int_series_dtype.
Qed.

(** *** The value returned *)

Lemma deref_assign col f s : deref (assign col f s) = setitem col f (deref s).
Proof. unfold assign, deref. by destruct (df s). Qed.

Lemma deref_rebind_dropna col s :
  deref (rebind_dropna col s) = dropna col (deref s).
Proof. done. Qed.

Lemma deref_parse_dates s :
  deref (parse_dates s)
  = drop_if case_month
      (set_if case_month
         (λ r, to_datetime (column case_month (deref s)) (get case_month r))
         (deref s)).
Proof.
  unfold parse_dates, drop_if. rewrite has_column_set_if. unfold set_if.
  destruct (has_column case_month (deref s)); [|done].
  by rewrite deref_rebind_dropna, deref_assign.
Qed.

Lemma coerce_numeric_value s col :
  match coerce_col (deref s) col with
  | Some d => ∃ s', coerce_numeric s col = (s', Returns) ∧ deref s' = d
  | None => coerce_numeric s col = (s, Raises)
  end.
Proof.
  unfold coerce_col, coerce_numeric.
  destruct (has_column col (deref s)); [|by eexists].
  destruct (castable _); [|done].
  eexists. split; [done|]. apply deref_assign.
Qed.

Lemma for_cols_coerce_value s cols :
  match coerce_cols (deref s) cols with
  | Some d =>
      ∃ s', for_cols coerce_numeric s cols = (s', Returns) ∧ deref s' = d
  | None => ∃ s', for_cols coerce_numeric s cols = (s', Raises)
  end.
Proof.
  revert s. induction cols as [|col cols IH]; intros s; simpl; [by eexists|].
  pose proof (coerce_numeric_value s col) as Hstep.
  destruct (coerce_col (deref s) col) as [d|]; simpl.
  - destruct Hstep as (s' & -> & <-). apply IH.
  - rewrite Hstep. by eexists.
Qed.

Lemma deref_standardize_str s col :
  deref (standardize_str s col)
  = set_if col (λ r, standardize (get col r)) (deref s).
Proof.
  unfold standardize_str, set_if. destruct (has_column col (deref s)); [|done].
  apply deref_assign.
Qed.

Lemma deref_drop_location s col :
  deref (drop_location s col) = drop_if col (deref s).
Proof. unfold drop_location, drop_if. by destruct (has_column col (deref s)). Qed.

Lemma deref_ensure_process s :
  deref (ensure_process s) = set_unless "process" (λ _, Str "Unknown") (deref s).
Proof.
  unfold ensure_process, set_unless.
  destruct (has_column "process" (deref s)); [done|]. apply deref_assign.
Qed.

Lemma deref_foldl (step : frame_state → string → frame_state)
    (pure : DataFrame → string → DataFrame) l s :
  (∀ s c, deref (step s c) = pure (deref s) c) →
  deref (foldl step s l) = foldl pure (deref s) l.
Proof.
  intros Hstep. revert s. induction l as [|c l IH]; intros s; simpl; [done|].
  by rewrite IH, Hstep.
Qed.

(** The returned value is the input itself on an empty batch and the
    step-by-step [transform] otherwise; the call raises when that does. *)
Lemma clean_value b : clean b = if empty b then Some b else transform b.
Proof.
  unfold clean, clean_and_transform, transform. cbv zeta.
  destruct (empty b); [done|].
  pose proof (for_cols_coerce_value (parse_dates (mkState b Caller))
                numerical_cols) as Hnum.
  rewrite deref_parse_dates in Hnum.
  change (deref (mkState b Caller)) with b in Hnum.
  destruct (coerce_cols _ numerical_cols) as [d|]; cbn [mbind option_bind].
  - destruct Hnum as (s' & -> & <-).
    rewrite deref_ensure_process.
    rewrite (deref_foldl drop_location (λ d col, drop_if col d))
      by apply deref_drop_location.
    by rewrite (deref_foldl standardize_str
               (λ d col, set_if col (λ r, standardize (get col r)) d))
      by apply deref_standardize_str.
  - by destruct Hnum as (s' & ->).
Qed.

Lemma coerce_col_set_if d col :
  coerce_col d col
  = if negb (has_column col d) || castable (column col d)
    then Some (set_if col (λ r, coerce_int (column col d) (get col r)) d)
    else None.
Proof.
  unfold coerce_col, set_if. by destruct (has_column col d).
Qed.

Lemma coerce_cols_rows_as F b d cols :
  rows_as F (dated b) b d →
  NoDup cols →
  (∀ col r0, col ∈ cols → get col (F r0) = get col r0) →
  match coerce_cols d cols with
  | Some d' =>
      forallb (λ col, negb (has_column col b)
                      || castable (interval_series b col)) cols = true ∧
      rows_as (λ r0, row_set_each b (λ col, coerce_int (interval_series b col))
                       cols (F r0))
              (dated b) b d'
  | None =>
      forallb (λ col, negb (has_column col b)
                      || castable (interval_series b col)) cols = false
  end.
Proof.
  revert F d. induction cols as [|col cols IH]; intros F d Has Hnd Hget.
  { by split. }
  apply NoDup_cons in Hnd as [Hcol Hnd].
  cbn [coerce_cols forallb]. rewrite coerce_col_set_if.
  rewrite (rows_as_has_column _ _ _ _ col Has).
  rewrite (rows_as_column _ _ _ _ col Has) by (intros r0; apply Hget; left).
  fold (interval_series b col).
  destruct (negb (has_column col b) || castable (interval_series b col));
    [|done].
  cbn [mbind option_bind andb].
  apply (IH (λ r0, row_set_if b col (coerce_int (interval_series b col)) (F r0)));
    [by apply rows_as_set_if|done|].
  intros c r0 Hc. rewrite get_row_set_if_ne; [apply Hget; by right|].
  by intros ->.
Qed.

Lemma numerical_cols_nodup : NoDup numerical_cols.
Proof. by apply (bool_decide_unpack _). Qed.

Lemma str_cols_nodup : NoDup str_cols.
Proof. by apply (bool_decide_unpack _). Qed.

Lemma not_in_cols col (l : list string) :
  bool_decide (col ∈ l) = false → col ∉ l.
Proof. by intros ?%bool_decide_eq_false. Qed.

(** The value returned for a non-empty batch, row by row. *)
Lemma transform_exact b :
  transform b
  = if finite_intervals b
    then Some (mkFrame (if has_column "process" b then columns b
                        else columns b ++ ["process"])
                       (transform_row b <$> List.filter (kept b) (rows b)))
    else None.
Proof.
  unfold transform, finite_intervals. cbv zeta.
  set (F1 := row_set_if b case_month (to_datetime (column case_month b))).
  match goal with |- context [coerce_cols ?d _] =>
    assert (rows_as F1 (dated b) b d) as H1 end.
  { eapply rows_as_ext;
      [|apply rows_as_drop_if, (rows_as_set_if (λ r0, r0)), rows_as_refl].
    intros r0. cbv beta. unfold dated.
    destruct (has_column case_month b) eqn:Hc; [|done].
    fold (F1 r0). unfold F1. by rewrite get_row_set_if_eq. }
  pose proof (coerce_cols_rows_as F1 b _ numerical_cols H1 numerical_cols_nodup)
    as H2.
  destruct (coerce_cols _ numerical_cols) as [d2|].
  2:{ rewrite H2; [done|]. intros col r0 Hcol. unfold F1.
      apply get_row_set_if_ne. intros ->. by apply not_in_cols in Hcol. }
  destruct H2 as [-> H2].
  { intros col r0 Hcol. unfold F1.
    apply get_row_set_if_ne. intros ->. by apply not_in_cols in Hcol. }
  cbn [mbind option_bind]. f_equal.
  set (F := λ r0, row_set_each b (λ _, standardize) str_cols
                    (row_set_each b
                       (λ col, coerce_int (interval_series b col))
                       numerical_cols (F1 r0))).
  assert (∀ r0, get "state_fips_code" (F r0) = get "state_fips_code" r0)
    as Hfips.
  { intros r0. unfold F, F1.
    rewrite !get_row_set_each_ne by (by apply not_in_cols).
    by apply get_row_set_if_ne. }
  assert (∀ r0, has_column "res_state" b = true →
                notna (get "res_state" (F r0)) = true) as Hstate.
  { intros r0 Hc. unfold F, get.
    rewrite (lookup_row_set_each_in b (λ _, standardize) str_cols "res_state")
      by (done || apply str_cols_nodup || by apply (bool_decide_unpack _)).
    apply notna_standardize. }
  match goal with |- set_unless _ _ ?d = _ =>
    assert (rows_as F (kept b) b d) as [Hcols Hrows] end.
  { unfold location_cols. cbn [foldl].
    eapply rows_as_ext; [|apply rows_as_drop_if, rows_as_drop_if;
      apply (rows_as_set_each _ _ b _ (λ _, standardize)); apply H2].
    intros r0. cbv beta. fold (F r0). unfold kept. rewrite Hfips.
    destruct (has_column "res_state" b) eqn:Hrs.
    - rewrite Hstate by done. by rewrite andb_true_r.
    - by rewrite andb_true_r. }
  match goal with |- set_unless _ _ ?d = _ => generalize dependent d end.
  intros d Hcols Hrows.
  assert (has_column "process" d = has_column "process" b) as Hc
    by (unfold has_column; by rewrite Hcols).
  unfold set_unless. rewrite Hc. unfold transform_row. cbv zeta.
  fold F1. fold F.
  destruct (has_column "process" b) eqn:Hp.
  - destruct d as [cols rs]. simpl in *. by rewrite Hcols, Hrows.
  - unfold setitem. rewrite Hc, Hcols, Hrows, <-list_fmap_compose. done.
Qed.

(** The rows of the value returned. *)
Lemma transform_rows b d r :
  transform b = Some d → r ∈ rows d →
  ∃ r0, r0 ∈ rows b ∧ kept b r0 = true ∧ r = transform_row b r0.
Proof.
  rewrite transform_exact. destruct (finite_intervals b); [|done].
  intros [= <-] Hr. cbn [rows] in Hr.
  apply list_elem_of_fmap in Hr as (r0 & -> & Hr0).
  apply elem_of_filter in Hr0 as [Hr0 Hk]. eauto.
Qed.

Lemma transform_columns b d col :
  transform b = Some d →
  has_column col d = has_column col b || bool_decide (col = "process").
Proof.
  rewrite transform_exact. destruct (finite_intervals b); [|done].
  intros [= <-]. unfold has_column. cbn [columns].
  destruct (bool_decide ("process" ∈ columns b)) eqn:Hp.
  - apply bool_decide_eq_true in Hp. apply eq_true_iff_eq.
    rewrite orb_true_iff, !bool_decide_eq_true. split; [by left|].
    by intros [?| ->].
  - apply eq_true_iff_eq.
    rewrite orb_true_iff, !bool_decide_eq_true, elem_of_app,
      list_elem_of_singleton. done.
Qed.

Lemma kept_dated b r : kept b r = true → dated b r = true.
Proof. unfold kept. by intros [? _]%andb_prop. Qed.

(** The cells of a row that was kept, column by column. *)
Lemma transform_row_month b r0 :
  has_column case_month b = true → dated b r0 = true →
  ∃ t, transform_row b r0 !! case_month = Some (Timestamp t).
Proof.
  intros Hc Hd. unfold dated in Hd. rewrite Hc in Hd.
  assert (∃ t, to_datetime (column case_month b) (get case_month r0)
               = Timestamp t) as [t Ht].
  { destruct (to_datetime_shape (column case_month b) (get case_month r0))
      as [[t Ht]|Hna]; [eauto|]. by rewrite Hna in Hd. }
  exists t. unfold transform_row. cbv zeta.
  assert (∀ r : gmap string cell,
            (if has_column "process" b then r
             else <["process" := Str "Unknown"]> r) !! case_month
            = r !! case_month) as Hproc.
  { intros r. destruct (has_column "process" b); [done|].
    by rewrite lookup_insert_ne. }
  rewrite Hproc.
  rewrite !lookup_row_set_each_ne by (by apply not_in_cols).
  by rewrite lookup_row_set_if_eq, Ht.
Qed.

Lemma transform_row_interval b col r0 :
  col ∈ numerical_cols → has_column col b = true →
  transform_row b r0 !! col
  = Some (coerce_int (interval_series b col) (get col r0)).
Proof.
  intros Hcol Hc. unfold transform_row. cbv zeta.
  assert (col ≠ "process" ∧ (col ∉ str_cols) ∧ col ≠ case_month)
    as (Hp & Hs & Hm).
  { apply list_elem_of_In in Hcol. simpl in Hcol.
    destruct Hcol as [<-|[<-|[]]];
      (split; [done|]; split; [by apply not_in_cols|done]). }
  assert (∀ r : gmap string cell,
            (if has_column "process" b then r
             else <["process" := Str "Unknown"]> r) !! col = r !! col)
    as Hproc.
  { intros r. destruct (has_column "process" b); [done|].
    by rewrite lookup_insert_ne. }
  rewrite Hproc, lookup_row_set_each_ne by done.
  rewrite (lookup_row_set_each_in b _ numerical_cols col)
    by (done || apply numerical_cols_nodup).
  by rewrite get_row_set_if_ne.
Qed.

Lemma transform_row_text b col r0 :
  col ∈ str_cols → has_column col b = true →
  ∃ c, transform_row b r0 !! col = Some (standardize c).
Proof.
  intros Hcol Hc. unfold transform_row. cbv zeta.
  assert (col ≠ "process") as Hp.
  { intros ->. apply list_elem_of_In in Hcol. simpl in Hcol. intuition done. }
  assert (∀ r : gmap string cell,
            (if has_column "process" b then r
             else <["process" := Str "Unknown"]> r) !! col = r !! col)
    as Hproc.
  { intros r. destruct (has_column "process" b); [done|].
    by rewrite lookup_insert_ne. }
  rewrite Hproc.
  rewrite (lookup_row_set_each_in b (λ _, standardize) str_cols col)
    by (done || apply str_cols_nodup).
  eauto.
Qed.

Lemma transform_row_fips b r0 :
  transform_row b r0 !! "state_fips_code" = r0 !! "state_fips_code".
Proof.
  unfold transform_row. cbv zeta.
  assert (∀ r : gmap string cell,
            (if has_column "process" b then r
             else <["process" := Str "Unknown"]> r) !! "state_fips_code"
            = r !! "state_fips_code") as Hproc.
  { intros r. destruct (has_column "process" b); [done|].
    by rewrite lookup_insert_ne. }
  rewrite Hproc.
  rewrite !lookup_row_set_each_ne by (by apply not_in_cols).
  by apply lookup_row_set_if_ne.
Qed.

Lemma interval_series_elem b col r0 :
  r0 ∈ rows b → dated b r0 = true → get col r0 ∈ interval_series b col.
Proof.
  intros Hr0 Hd. unfold interval_series. apply list_elem_of_fmap.
  exists r0. split; [done|]. by apply elem_of_filter.
Qed.

(** Whatever the input, the value returned for a non-empty batch has the
    cleaned shape. *)
Lemma transform_cleaned b d : transform b = Some d → cleaned d.
Proof.
  intros Ht.
  assert (∀ col, col ≠ "process" → has_column col d = true →
                 has_column col b = true) as Hcolumn.
  { intros col Hne Hc. rewrite (transform_columns b d col Ht) in Hc.
    by rewrite (bool_decide_eq_false_2 (col = "process")), orb_false_r in Hc. }
  split.
  - intros Hc r Hr. apply Hcolumn in Hc; [|done].
    destruct (transform_rows b d r Ht Hr) as (r0 & Hr0 & Hk & ->).
    destruct (transform_row_month b r0 Hc (kept_dated _ _ Hk)) as [t Hl].
    exists (Timestamp t). split; [done|]. by exists t.
  - intros col Hcol Hc r Hr. apply Hcolumn in Hc.
    2:{ intros ->. apply list_elem_of_In in Hcol. simpl in Hcol.
        intuition done. }
    destruct (transform_rows b d r Ht Hr) as (r0 & Hr0 & Hk & ->).
    eexists. split; [by apply transform_row_interval|].
    apply coerce_int_shape, interval_series_elem; [done|].
    by apply kept_dated.
  - intros col Hcol Hc r Hr. apply Hcolumn in Hc.
    2:{ intros ->. apply list_elem_of_In in Hcol. simpl in Hcol.
        intuition done. }
    destruct (transform_rows b d r Ht Hr) as (r0 & Hr0 & Hk & ->).
    destruct (transform_row_text b col r0 Hcol Hc) as [c Hl].
    eexists. split; [done|]. apply standardize_shape.
  - intros Hc r Hr. apply Hcolumn in Hc; [|done].
    destruct (transform_rows b d r Ht Hr) as (r0 & Hr0 & Hk & ->).
    rewrite transform_row_fips.
    unfold kept in Hk. rewrite Hc in Hk. apply andb_prop in Hk as [_ Hk].
    unfold get in Hk. destruct (r0 !! "state_fips_code") as [c|]; [|done].
    exists c. split; [done|]. by intros ->.
  - rewrite (transform_columns b d "process" Ht).
    rewrite bool_decide_eq_true_2 by done. apply orb_true_r.
Qed.

Lemma clean_cleaned b d : empty b = false → clean b = Some d → cleaned d.
Proof. intros Hb. rewrite clean_value, Hb. apply transform_cleaned. Qed.

Lemma has_column_clean b d col :
  clean b = Some d → has_column col b = true → has_column col d = true.
Proof.
  rewrite clean_value. destruct (empty b); [by intros [= <-]|].
  intros Ht Hc. by rewrite (transform_columns b d col Ht), Hc.
Qed.

(** C8 (amended). [clean_and_transform] adds no interval column to a
    batch that lacks it.  In each interval column the batch has, every row
    it returns holds an int64, which may be negative.  That integer is
    settled by the column as a whole, as it stands among the rows the date
    step kept: it is the number read in the row's own cell when every cell
    of the column reads as an integer of the int64 range, and otherwise what
    the cast of the float64 column gives, with 0 for a cell that is missing
    or unparsable. *)
Theorem interval_columns_are_integers (b d : DataFrame) (col : string)
    (r : gmap string cell) :
  col ∈ numerical_cols →
  clean b = Some d →
  has_column col d = has_column col b ∧
  (has_column col b = true → r ∈ rows d →
   ∃ r0 z, r0 ∈ rows b ∧ dated b r0 = true ∧ r = transform_row b r0 ∧
     r !! col = Some (Int z) ∧ int64 z = true ∧
     astype_int (numeric_dtype (to_numeric <$> interval_series b col))
                (to_numeric (get col r0)) = Some z ∧
     (to_numeric (get col r0) = None → z = 0) ∧
     (numeric_dtype (to_numeric <$> interval_series b col) = Int64 →
      to_numeric (get col r0) = Some (Whole z))).
Proof.
  intros Hcol Hclean. rewrite clean_value in Hclean.
  destruct (empty b) eqn:Hb.
  - injection Hclean as <-. split; [done|]. intros Hc Hr.
    unfold empty in Hb. apply has_column_true in Hc.
    destruct (columns b); [by apply elem_of_nil in Hc|].
    destruct (rows b); [by apply elem_of_nil in Hr|done].
  - split.
    { rewrite (transform_columns b d col Hclean).
      rewrite bool_decide_eq_false_2; [apply orb_false_r|].
      intros ->. apply list_elem_of_In in Hcol. simpl in Hcol.
      intuition done. }
    intros Hc Hr.
    destruct (transform_rows b d r Hclean Hr) as (r0 & Hr0 & Hk & ->).
    pose proof (kept_dated _ _ Hk) as Hd.
    pose proof (interval_series_elem b col r0 Hr0 Hd) as Hin.
    assert (castable (interval_series b col) = true) as Hcast.
    { rewrite transform_exact in Hclean. unfold finite_intervals in Hclean.
      destruct (forallb _ numerical_cols) eqn:Hall; [|done].
      pose proof (forallb_elem_of _ _ _ Hall Hcol) as Hf. cbv beta in Hf.
      by rewrite Hc in Hf. }
    pose proof (forallb_elem_of _ _ _ Hcast Hin) as Hsome. cbv beta in Hsome.
    apply bool_decide_eq_true in Hsome as [z Hz].
    exists r0, z. split; [done|]. split; [done|]. split; [done|].
    split; [|split; [|split; [done|split]]].
    + rewrite transform_row_interval by done. unfold coerce_int.
      by rewrite Hz.
    + eapply astype_int_range; [|done]. apply list_elem_of_fmap. eauto.
    + intros Hn. rewrite Hn in Hz. by simplify_eq/=.
    + intros Hdt.
      destruct (numeric_dtype_int64 _ (to_numeric (get col r0)) Hdt)
        as (z1 & Hz1 & _); [apply list_elem_of_fmap; eauto|].
      rewrite Hz1, Hdt in Hz. simpl in Hz. by simplify_eq.
Qed.
End TransformerFacts.

(** C8, witness of the amended statement: the one row of
    [early_onset_batch]. *)
Lemma interval_columns_are_integers_witness :
  has_column "case_onset_interval" early_onset_cleaned
  = has_column "case_onset_interval" early_onset_batch ∧
  (has_column "case_onset_interval" early_onset_batch = true →
   row_of [("case_month", Timestamp 1583020800000000000);
           ("res_state", Str "NY"); ("state_fips_code", Int 36);
           ("case_onset_interval", Int (-3)); ("process", Str "Unknown")]
   ∈ rows early_onset_cleaned →
   ∃ r0 z, r0 ∈ rows early_onset_batch ∧
     @dated csv_pandas early_onset_batch r0 = true ∧
     row_of [("case_month", Timestamp 1583020800000000000);
             ("res_state", Str "NY"); ("state_fips_code", Int 36);
             ("case_onset_interval", Int (-3)); ("process", Str "Unknown")]
     = @transform_row csv_pandas early_onset_batch r0 ∧
     row_of [("case_month", Timestamp 1583020800000000000);
             ("res_state", Str "NY"); ("state_fips_code", Int 36);
             ("case_onset_interval", Int (-3)); ("process", Str "Unknown")]
       !! "case_onset_interval" = Some (Int z) ∧
     int64 z = true ∧
     @astype_int csv_pandas
       (numeric_dtype
          (@to_numeric csv_pandas
             <$> @interval_series csv_pandas early_onset_batch
                   "case_onset_interval"))
       (@to_numeric csv_pandas (get "case_onset_interval" r0)) = Some z ∧
     (@to_numeric csv_pandas (get "case_onset_interval" r0) = None → z = 0) ∧
     (numeric_dtype
        (@to_numeric csv_pandas
           <$> @interval_series csv_pandas early_onset_batch
                 "case_onset_interval") = Int64 →
      @to_numeric csv_pandas (get "case_onset_interval" r0) = Some (Whole z))).
Proof.
  apply (@interval_columns_are_integers csv_pandas early_onset_batch
           early_onset_cleaned).
  - apply (bool_decide_unpack _). vm_compute. exact I.
  - apply (bool_decide_unpack _). vm_compute. exact I.
Defined.

(** C8, counterexample to the claim as stated: the output row keeps the
    negative interval -3, and the specimen-interval column, absent from the
    batch, is absent from the output. *)
Lemma interval_negative_counterexample :
  (λ d, (λ r, (get "case_onset_interval" r,
               r !! "case_positive_specimen_interval")) <$> rows d)
    <$> @clean csv_pandas early_onset_batch
  = Some [(Int (-3), None)].
Proof. vm_compute. reflexivity. Qed.

(** The integer depends on the rest of the column.  The same text is read
    exactly in a column of integers, and rounded, through float64, in a
    column where a value is missing. *)
Example interval_through_float :
  (λ d, (λ r, (get "case_positive_specimen_interval" r,
               get "case_onset_interval" r)) <$> rows d)
    <$> @clean csv_pandas long_interval_batch
  = Some [(Int 9007199254740992, Int 9007199254740993); (Int 0, Int 1)].
Proof. vm_compute. reflexivity. Qed.

(** An infinite value makes the call raise. *)
Example infinite_interval_raises :
  @clean csv_pandas infinite_interval_batch = None.
Proof. vm_compute. reflexivity. Qed.

(** C1. On [missing_location_batch] the row without [res_state] is not
    dropped: it comes out with [res_state] set to "Unknown".  (The row
    without [state_fips_code] is dropped.) *)
Theorem missing_res_state_survives :
  rows <$> @clean csv_pandas missing_location_batch
  = Some [row_of [("case_month", Timestamp 1583020800000000000);
                  ("res_state", Str "Unknown"); ("state_fips_code", Int 36);
                  ("process", Str "Unknown")]].
Proof. apply (bool_decide_unpack _). vm_compute. exact I. Qed.

(** *** What the call does to the caller's object *)

Section CallerObject.
Context {pd : Pandas}.

Lemma assign_rebound col f s :
  rebound s → rebound (assign col f s) ∧
              caller_obj (assign col f s) = caller_obj s.
Proof. unfold rebound, assign. by destruct (df s). Qed.

Lemma rebind_dropna_rebound col s :
  rebound (rebind_dropna col s) ∧ caller_obj (rebind_dropna col s) = caller_obj s.
Proof. done. Qed.

Lemma foldl_rebound (step : frame_state → string → frame_state) l s :
  (∀ s c, rebound s → rebound (step s c) ∧ caller_obj (step s c) = caller_obj s) →
  rebound s →
  rebound (foldl step s l) ∧ caller_obj (foldl step s l) = caller_obj s.
Proof.
  intros Hstep. revert s. induction l as [|c l IH]; intros s Hs; simpl; [done|].
  destruct (Hstep s c Hs) as [Hr Ho]. destruct (IH _ Hr) as [Hr' Ho'].
  split; [done|]. by rewrite Ho'.
Qed.

Lemma for_cols_rebound (step : frame_state → string → frame_state * exit) l s :
  (∀ s c, rebound s →
          rebound (step s c).1 ∧ caller_obj (step s c).1 = caller_obj s) →
  rebound s →
  rebound (for_cols step s l).1 ∧
  caller_obj (for_cols step s l).1 = caller_obj s.
Proof.
  intros Hstep. revert s. induction l as [|c l IH]; intros s Hs; simpl; [done|].
  destruct (Hstep s c Hs) as [Hr Ho].
  destruct (step s c) as [s' [|]]; simpl in *; [|done].
  destruct (IH _ Hr) as [Hr' Ho']. split; [done|]. by rewrite Ho'.
Qed.

Lemma coerce_numeric_rebound s c :
  rebound s → rebound (coerce_numeric s c).1 ∧
              caller_obj (coerce_numeric s c).1 = caller_obj s.
Proof.
  intros Hs. unfold coerce_numeric.
  destruct (has_column c (deref s)); [|done].
  destruct (castable _); [by apply assign_rebound|done].
Qed.

Lemma standardize_str_rebound s c :
  rebound s → rebound (standardize_str s c) ∧
              caller_obj (standardize_str s c) = caller_obj s.
Proof.
  intros Hs. unfold standardize_str.
  destruct (has_column c (deref s)); [by apply assign_rebound|done].
Qed.

Lemma drop_location_rebound s c :
  rebound s → rebound (drop_location s c) ∧
              caller_obj (drop_location s c) = caller_obj s.
Proof.
  intros Hs. unfold drop_location.
  destruct (has_column c (deref s)); [apply rebind_dropna_rebound|done].
Qed.

Lemma ensure_process_rebound s :
  rebound s → rebound (ensure_process s) ∧
              caller_obj (ensure_process s) = caller_obj s.
Proof.
  intros Hs. unfold ensure_process.
  destruct (has_column "process" (deref s)); [done|by apply assign_rebound].
Qed.

(** Once [df] is rebound, the rest of the function leaves the caller's
    object alone, however it ends. *)
Lemma clean_and_transform_rebound b :
  empty b = false →
  rebound (parse_dates (mkState b Caller)) →
  rebound (clean_and_transform b).1 ∧
  caller_obj (clean_and_transform b).1
  = caller_obj (parse_dates (mkState b Caller)).
Proof.
  intros Hb Hs. unfold clean_and_transform. cbv zeta. rewrite Hb.
  destruct (for_cols_rebound coerce_numeric numerical_cols _
              coerce_numeric_rebound Hs) as [H1 E1].
  destruct (for_cols coerce_numeric _ numerical_cols) as [s1 [|]];
    simpl in H1, E1; [|done].
  destruct (foldl_rebound standardize_str str_cols _
              standardize_str_rebound H1) as [H2 E2].
  destruct (foldl_rebound drop_location location_cols _
              drop_location_rebound H2) as [H3 E3].
  destruct (ensure_process_rebound _ H3) as [H4 E4].
  cbn [fst]. split; [done|]. by rewrite E4, E3, E2, E1.
Qed.

(** No step changes the number of rows of the caller's object. *)
Lemma len_caller_assign col f s :
  len (caller_obj (assign col f s)) = len (caller_obj s).
Proof. unfold assign. destruct (df s); simpl; [apply len_setitem|done]. Qed.

Lemma len_caller_foldl (step : frame_state → string → frame_state) l s :
  (∀ s c, len (caller_obj (step s c)) = len (caller_obj s)) →
  len (caller_obj (foldl step s l)) = len (caller_obj s).
Proof.
  intros Hstep. revert s. induction l as [|c l IH]; intros s; simpl; [done|].
  by rewrite IH, Hstep.
Qed.

Lemma len_caller_for_cols (step : frame_state → string → frame_state * exit)
    l s :
  (∀ s c, len (caller_obj (step s c).1) = len (caller_obj s)) →
  len (caller_obj (for_cols step s l).1) = len (caller_obj s).
Proof.
  intros Hstep. revert s. induction l as [|c l IH]; intros s; simpl; [done|].
  pose proof (Hstep s c) as Hs.
  destruct (step s c) as [s' [|]]; simpl in *; [|done].
  by rewrite IH.
Qed.

Lemma len_caller_after b : len (caller_after b) = len b.
Proof.
  unfold caller_after, clean_and_transform. cbv zeta.
  destruct (empty b); [done|].
  assert (len (caller_obj (parse_dates (mkState b Caller))) = len b) as H0.
  { unfold parse_dates. change (deref (mkState b Caller)) with b.
    destruct (has_column case_month b); simpl; [apply len_setitem|done]. }
  pose proof (len_caller_for_cols coerce_numeric numerical_cols
                (parse_dates (mkState b Caller))) as H1.
  destruct (for_cols coerce_numeric _ numerical_cols) as [s1 [|]];
    cbn [fst] in *.
  2:{ rewrite H1; [done|]. intros s c. unfold coerce_numeric.
      destruct (has_column c (deref s)); [|done].
      destruct (castable _); [apply len_caller_assign|done]. }
  rewrite <-H0, <-H1.
  2:{ intros s c. unfold coerce_numeric.
      destruct (has_column c (deref s)); [|done].
      destruct (castable _); [apply len_caller_assign|done]. }
  unfold ensure_process.
  match goal with |- context [has_column "process" ?d] =>
    destruct (has_column "process" d) end.
  2: rewrite len_caller_assign.
  all: rewrite (len_caller_foldl drop_location)
         by (intros s c; unfold drop_location;
             by destruct (has_column c (deref s)));
       by rewrite (len_caller_foldl standardize_str)
         by (intros s c; unfold standardize_str;
             destruct (has_column c (deref s)); [apply len_caller_assign|done]).
Qed.

(** C7 (amended). [clean_and_transform] writes to the caller's batch.  It
    never removes a row from it.  On an empty batch it returns the object it
    was given, unchanged.  On a non-empty batch that has a case_month column
    it overwrites that column of the caller's object in place with the dates
    read for the column, leaves the rest of that object as it was, and goes
    on to work on a new frame, which is what it returns when it returns. *)
Theorem caller_batch_after_clean (b : DataFrame) :
  len (caller_after b) = len b ∧
  (empty b = true → clean_and_transform b = (mkState b Caller, Returns)) ∧
  (empty b = false → has_column case_month b = true →
   ∃ d e,
     clean_and_transform b
     = (mkState
          (setitem case_month
             (λ r, to_datetime (column case_month b) (get case_month r)) b)
          (Local d), e)).
Proof.
  split; [apply len_caller_after|]. split.
  - intros Hb. unfold clean_and_transform. by rewrite Hb.
  - intros Hb Hc.
    assert (parse_dates (mkState b Caller)
            = rebind_dropna case_month
                (assign case_month
                   (λ r, to_datetime (column case_month b) (get case_month r))
                   (mkState b Caller))) as Hp.
    { unfold parse_dates. change (deref (mkState b Caller)) with b.
      by rewrite Hc. }
    destruct (clean_and_transform_rebound b Hb) as [Hr Ho].
    { by rewrite Hp. }
    rewrite Hp in Ho. cbn in Ho.
    destruct (clean_and_transform b) as [[o [|d]] e]; cbn in *; [done|].
    exists d, e. by rewrite Ho.
Qed.

(** *** A second call on a cleaned frame *)

Lemma assign_settled d col f s :
  caller_obj s = d → deref s = d → setitem col f d = d →
  caller_obj (assign col f s) = d ∧ deref (assign col f s) = d.
Proof.
  intros Ho Hd Hset. rewrite deref_assign, Hd. split; [|done].
  unfold assign, deref in *. destruct (df s); simpl; [|done].
  by rewrite Ho.
Qed.

Lemma rebind_dropna_settled d col s :
  caller_obj s = d → deref s = d → dropna col d = d →
  caller_obj (rebind_dropna col s) = d ∧ deref (rebind_dropna col s) = d.
Proof. intros Ho Hd Hdrop. by rewrite deref_rebind_dropna, Hd. Qed.

Lemma foldl_settled d (step : frame_state → string → frame_state) l s :
  (∀ s c, c ∈ l → caller_obj s = d → deref s = d →
          caller_obj (step s c) = d ∧ deref (step s c) = d) →
  caller_obj s = d → deref s = d →
  caller_obj (foldl step s l) = d ∧ deref (foldl step s l) = d.
Proof.
  revert s. induction l as [|c l IH]; intros s Hstep Ho Hd; simpl; [done|].
  destruct (Hstep s c) as [Ho' Hd']; [by left|done..|].
  apply IH; [|done..]. intros s' c' Hc'. apply Hstep. by right.
Qed.

Lemma for_cols_settled d (step : frame_state → string → frame_state * exit)
    l s :
  (∀ s c, c ∈ l → caller_obj s = d → deref s = d →
          ∃ s', step s c = (s', Returns) ∧ caller_obj s' = d ∧ deref s' = d) →
  caller_obj s = d → deref s = d →
  ∃ s', for_cols step s l = (s', Returns) ∧ caller_obj s' = d ∧ deref s' = d.
Proof.
  revert s. induction l as [|c l IH]; intros s Hstep Ho Hd; simpl; [by eexists|].
  destruct (Hstep s c) as (s' & -> & Ho' & Hd'); [by left|done..|].
  apply IH; [|done..]. intros s'' c' Hc'. apply Hstep. by right.
Qed.

Lemma set_if_setitem col f d :
  has_column col d = true → set_if col f d = d → setitem col f d = d.
Proof. intros Hc. unfold set_if. by rewrite Hc. Qed.

Lemma drop_if_dropna col d :
  has_column col d = true → drop_if col d = d → dropna col d = d.
Proof. intros Hc. unfold drop_if. by rewrite Hc. Qed.

Lemma col_all_column (P : cell → Prop) col d c :
  col_all P col d → c ∈ column col d → P c.
Proof.
  intros Hall Hc. apply list_elem_of_fmap in Hc as (r & -> & Hr).
  destruct (Hall r Hr) as (c & Hl & HP). unfold get. by rewrite Hl.
Qed.

(** A column assignment that finds each cell as it would set it. *)
Lemma setitem_same (P : cell → Prop) col (g : cell → cell) d :
  has_column col d = true → col_all P col d → (∀ c, P c → g c = c) →
  setitem col (λ r, g (get col r)) d = d.
Proof.
  intros Hc Hall Hg. apply set_if_setitem; [done|]. apply set_if_same.
  intros _ r Hr. destruct (Hall r Hr) as (c & Hl & HP).
  apply insert_id. unfold get. rewrite Hl. simpl. by rewrite Hg.
Qed.

(** On a frame of the cleaned shape the call returns and changes nothing:
    the caller's object and the value returned are both that frame. *)
Lemma clean_and_transform_settled d :
  cleaned d →
  ∃ s, clean_and_transform d = (s, Returns) ∧ caller_obj s = d ∧ deref s = d.
Proof.
  intros [Hdate Hnum Hstr Hfips Hproc].
  unfold clean_and_transform. cbv zeta.
  destruct (empty d); [by eexists|].
  set (s0 := mkState d Caller).
  assert (caller_obj (parse_dates s0) = d ∧ deref (parse_dates s0) = d)
    as [Ho1 Hd1].
  { unfold parse_dates. change (deref s0) with d.
    destruct (has_column case_month d) eqn:Hc; [|done].
    assert (setitem case_month
              (λ r, to_datetime (column case_month d) (get case_month r)) d
            = d) as Hset.
    { apply (setitem_same is_timestamp); [done|by apply Hdate|].
      apply to_datetime_fixed. }
    destruct (assign_settled d case_month
                (λ r, to_datetime (column case_month d) (get case_month r)) s0)
      as [Ho Hd]; [done..|].
    apply rebind_dropna_settled; [done..|].
    apply drop_if_dropna; [done|]. apply drop_if_id.
    eapply col_ok_impl; [|done]. by intros c [t ->]. }
  destruct (for_cols_settled d coerce_numeric numerical_cols (parse_dates s0))
    as (s2 & -> & Ho2 & Hd2); [|done..|].
  { intros s c Hc Ho Hd. unfold coerce_numeric. rewrite Hd.
    destruct (has_column c d) eqn:Hcol; [|by eexists].
    assert (∀ x, x ∈ column c d → is_int x) as Hints.
    { intros x Hx. eapply col_all_column; [by apply Hnum|done]. }
    rewrite castable_ints by done.
    eexists. split; [done|].
    apply assign_settled; [done..|].
    apply (setitem_same is_int); [done|by apply Hnum|].
    intros x Hx. by apply coerce_int_fixed. }
  destruct (foldl_settled d standardize_str str_cols s2)
    as [Ho3 Hd3]; [|done..|].
  { intros s c Hc Ho Hd. unfold standardize_str. rewrite Hd.
    destruct (has_column c d) eqn:Hcol; [|done].
    apply assign_settled; [done..|].
    apply (setitem_same is_clean_str); [done|by apply Hstr|].
    apply standardize_fixed. }
  destruct (foldl_settled d drop_location location_cols
              (foldl standardize_str s2 str_cols))
    as [Ho4 Hd4]; [|done..|].
  { intros s c Hc Ho Hd. unfold drop_location. rewrite Hd.
    destruct (has_column c d) eqn:Hcol; [|done].
    apply rebind_dropna_settled; [done..|].
    apply drop_if_dropna; [done|]. apply drop_if_id.
    apply list_elem_of_In in Hc. simpl in Hc.
    destruct Hc as [<-|[<-|[]]]; [|done].
    eapply col_ok_impl; [|apply Hstr; by left].
    by intros c (s' & -> & _). }
  eexists. split; [done|].
  unfold ensure_process. by rewrite Hd4, Hproc.
Qed.

Lemma clean_settled d : cleaned d → clean d = Some d ∧ caller_after d = d.
Proof.
  intros Hd. unfold clean, caller_after.
  destruct (clean_and_transform_settled d Hd) as (s & -> & Ho & Hs).
  cbn. by rewrite Hs.
Qed.

Lemma clean_of_empty b : empty b = true → clean b = Some b ∧ caller_after b = b.
Proof.
  intros Hb. unfold clean, caller_after, clean_and_transform. by rewrite Hb.
Qed.

(** What the call returns, it returns again, unchanged. *)
Lemma clean_again b d : clean b = Some d → clean d = Some d ∧ caller_after d = d.
Proof.
  intros Hclean. destruct (empty b) eqn:Hb.
  - rewrite (proj1 (clean_of_empty b Hb)) in Hclean. injection Hclean as <-.
    by apply clean_of_empty.
  - by apply clean_settled, (clean_cleaned b).
Qed.

(** C5. [clean_and_transform] is idempotent.  It returns on every batch
    but a non-empty one with a value that is not finite in an interval
    column; and for every batch on which it returns, it returns on the value
    it returned, that value is what it returns again, and the second call
    leaves the frame it is given as it was. *)
Theorem clean_idempotent (b : DataFrame) :
  (is_Some (clean b) ↔ empty b = true ∨ finite_intervals b = true) ∧
  clean b ≫= clean = clean b ∧
  caller_after <$> clean b = clean b.
Proof.
  split.
  - rewrite clean_value. destruct (empty b).
    + split; [by left|by eexists].
    + rewrite transform_exact. destruct (finite_intervals b).
      * split; [by right|by eexists].
      * split; [by intros [? ?]|by intros [?|?]].
  - destruct (clean b) as [d|] eqn:Hclean; [|done].
    destruct (clean_again b d Hclean) as [Hd Ho].
    cbn. by rewrite Hd, Ho.
Qed.
End CallerObject.

(** C7, counterexample to the claim as stated: after the call the caller's
    [early_onset_batch] holds a timestamp where it held the text "2020-03". *)
Lemma caller_batch_counterexample :
  get case_month <$> rows early_onset_batch = [Str "2020-03"] ∧
  get case_month <$> rows (@caller_after csv_pandas early_onset_batch)
  = [Timestamp 1583020800000000000].
Proof. split; vm_compute; reflexivity. Qed.
(** ** api_client.py *)

Section ClientFacts.
Context {pd : Pandas} {src : Source}.

Lemma fetch_attempts_all_fail limit offset retries wait (n : nat) :
  ∀ (k : Z) (w : world),
    k + Z.of_nat n = retries →
    all_fail src w limit offset n →
    fetch_attempts (seqZ k (Z.of_nat n)) limit offset retries wait w
    = (mkWorld (attempts w + n)
               (trace w ++ failed_trace limit offset wait n), empty_frame).
Proof.
  induction n as [|n IH]; intros k w Hk Hfail.
  - destruct w as [i tr]. simpl. by rewrite Nat.add_0_r, app_nil_r.
  - rewrite seqZ_cons by lia.
    replace (Z.pred (Z.of_nat (S n))) with (Z.of_nat n) by lia.
    cbn [fetch_attempts read_csv].
    pose proof (Hfail 0%nat) as H0. rewrite Nat.add_0_r in H0.
    set (w1 := mkWorld (S (attempts w)) (trace w ++ [ReadCsv limit offset])).
    set (w2 := if k <? retries - 1 then sleep wait w1 else w1).
    assert (fetch_attempts (seqZ (Z.succ k) (Z.of_nat n)) limit offset retries
              wait w2
            = (mkWorld (attempts w + S n)
                 (trace w ++ failed_trace limit offset wait (S n)), empty_frame))
      as Hrest.
    { rewrite IH; [|lia|].
      - f_equal. subst w2 w1.
        destruct n as [|n].
        + rewrite (proj2 (Z.ltb_ge _ _)) by lia. simpl.
          f_equal; [lia|by rewrite app_nil_r].
        + rewrite (proj2 (Z.ltb_lt _ _)) by lia.
          cbn [sleep attempts trace failed_trace].
          f_equal; [lia|]. rewrite <-!app_assoc. done.
      - intros j d Hj.
        replace (attempts w2 + j)%nat with (attempts w + S j)%nat.
        + apply Hfail. lia.
        + subst w2 w1. destruct (k <? retries - 1); simpl; lia. }
    destruct (http (attempts w) limit offset) as [d| |] eqn:Hr.
    + exfalso. apply (H0 d); [lia|done].
    + exact Hrest.
    + exact Hrest.
Qed.

End ClientFacts.


Section GeneratorFacts.
Context {pd : Pandas} {src : Source}.

(** A [yield] hands out a non-empty chunk and suspends on it. *)
Lemma loop_body_yields a offset total_rows w w' g c :
  loop_body a offset total_rows w = (w', g, Some c) →
  empty c = false ∧
  g = AtYield offset total_rows (request_limit a total_rows) c.
Proof.
  unfold loop_body. destruct (budget_spent a total_rows); [done|].
  destruct (fetch_data _ _ _ _ w) as [w1 chunk].
  destruct (empty chunk) eqn:He; [done|].
  destruct (empty (filter_dates a chunk) && dates_requested a) eqn:Hf; [done|].
  intros [= <- <- <-]. split; [|done].
  apply andb_false_iff in Hf as [Hf|Hf]; [done|].
  unfold filter_dates. by rewrite Hf.
Qed.

Lemma next_yields a g w w' g' c :
  next a g w = (w', g', Some c) →
  empty c = false ∧ ∃ offset total_rows limit, g' = AtYield offset total_rows limit c.
Proof.
  destruct g as [o t|o t l ch|]; simpl; [| |done].
  - intros [? ->]%loop_body_yields. eauto.
  - destruct (len ch <? l); [done|].
    intros [? ->]%loop_body_yields. eauto.
Qed.

(** An invariant of the loop state that every resumption and every pass of
    the body keeps holds when the loop stops, however it stops. *)
Lemma for_each_invariant {St : Type} (I : generator → world → St → Prop)
    a (body : St → DataFrame → St * DataFrame * control) :
  (∀ g w s w' g', I g w s → next a g w = (w', g', None) → I g' w' s) →
  (∀ g w s w' g' c, I g w s → next a g w = (w', g', Some c) →
     I (with_chunk (body s c).1.2 g') w' (body s c).1.1) →
  ∀ fuel g w s, I g w s →
    I (for_each a body fuel g w s).1.1.2
      (for_each a body fuel g w s).1.1.1
      (for_each a body fuel g w s).1.2.
Proof.
  intros Hstop Hyield. induction fuel as [|fuel IH]; intros g w s HI; [done|].
  simpl. destruct (next a g w) as [[w' g'] [c|]] eqn:Hn.
  - pose proof (Hyield _ _ _ _ _ _ HI Hn) as HI'.
    destruct (body s c) as [[s' c'] ctl]. simpl in HI'.
    destruct ctl; [by apply IH|done..].
  - simpl. by eapply Hstop.
Qed.

Lemma fetch_chunks_nonempty a fuel w :
  Forall (λ c, empty c = false) (chunks_of (fetch_chunks a fuel w)).
Proof.
  unfold chunks_of, fetch_chunks.
  apply (for_each_invariant (λ _ _ acc, Forall (λ c, empty c = false) acc)).
  - done.
  - intros g0 w0 acc w' g' c Hacc [Hc _]%next_yields. simpl.
    apply Forall_app. split; [done|]. by constructor.
  - constructor.
Qed.
End GeneratorFacts.

(** ** main.py *)

Section OrchestratorFacts.
Context {pd : Pandas} {src : Source} {db : Engine}.

Lemma process_chunk_nonempty s c :
  empty c = false →
  empty_chunk_seen (process_chunk s c).1.1 = empty_chunk_seen s.
Proof.
  intros Hc. unfold process_chunk. rewrite Hc. cbn [negb].
  destruct (clean_and_transform c) as [t [|]]; [|done].
  destruct (empty (deref t)); cbn [negb]; [done|].
  by destruct (load_cdc_data _ _) as [h' [|]].
Qed.

(** The in-place writes of the body leave the length of the chunk alone,
    so the generator counts the rows it yielded when it resumes. *)
Lemma process_chunk_keeps_len s c : len (process_chunk s c).1.2 = len c.
Proof.
  unfold process_chunk. destruct (empty c); cbn [negb]; [done|].
  pose proof (len_caller_after c) as Hlen. unfold caller_after in Hlen.
  destruct (clean_and_transform c) as [t [|]]; cbn [fst] in Hlen; [|done].
  destruct (empty (deref t)); cbn [negb]; [done|].
  by destruct (load_cdc_data _ _) as [h' [|]].
Qed.

(** C9. Every chunk [fetch_data_chunked] yields is non-empty, so the
    branch of [_handle_fetch] that stops on an empty chunk is never taken,
    however long the loop runs. *)
Theorem yielded_chunks_nonempty (a : fetch_args) (fuel : nat) (w : world)
    (h : MySQLHandler) :
  Forall (λ c, empty c = false) (chunks_of (fetch_chunks a fuel w)) ∧
  empty_chunk_seen (state_of (handle_fetch a fuel w h)) = false.
Proof.
  split; [apply fetch_chunks_nonempty|].
  unfold state_of, handle_fetch.
  apply (for_each_invariant (λ _ _ s, empty_chunk_seen s = false)).
  - done.
  - intros g0 w0 s w' g' c Hs [Hc _]%next_yields.
    by rewrite process_chunk_nonempty.
  - done.
Qed.
End OrchestratorFacts.

(** *** The row budget *)

Lemma rows_yielded_app acc c : rows_yielded (acc ++ [c]) = rows_yielded acc + len c.
Proof.
  unfold rows_yielded. induction acc as [|x acc IH]; simpl; [lia|].
  rewrite IH. lia.
Qed.

Lemma budget_scan_app chunk m total tr1 tr2 :
  budget_scan chunk m total (tr1 ++ tr2)
  = budget_scan chunk m total tr1 ≫= λ t, budget_scan chunk m t tr2.
Proof.
  revert total. induction tr1 as [|e tr1 IH]; intros total; simpl; [done|].
  destruct e; [|done..]. by destruct (bool_decide _).
Qed.

Lemma budget_scan_requests chunk m total limit offset wait tr :
  limit = Z.min chunk (m - total) →
  Forall (λ e, e = ReadCsv limit offset ∨ e = Sleep wait) tr →
  budget_scan chunk m total tr = Some total.
Proof.
  intros Hl. induction 1 as [|e tr [->| ->] _ IH]; simpl; [done| |done].
  by rewrite bool_decide_eq_true_2.
Qed.

Section BudgetFacts.
Context {pd : Pandas} {src : Source}.

(** What a call of [fetch_data] adds to the trace, and where its result
    comes from. *)
Lemma fetch_attempts_effects range limit offset retries wait w w' d :
  fetch_attempts range limit offset retries wait w = (w', d) →
  (∃ new, trace w' = trace w ++ new ∧
          Forall (λ e, e = ReadCsv limit offset ∨ e = Sleep wait) new) ∧
  (d = empty_frame ∨ ∃ n, http n limit offset = Response d).
Proof.
  revert w. induction range as [|k range IH]; intros w; simpl.
  - intros [= <- <-]. split; [|by left]. exists []. by rewrite app_nil_r.
  - set (w1 := mkWorld (S (attempts w)) (trace w ++ [ReadCsv limit offset])).
    assert (∀ w2, (w2 = w1 ∨ w2 = sleep wait w1) →
              fetch_attempts range limit offset retries wait w2 = (w', d) →
              (∃ new, trace w' = trace w ++ new ∧
                 Forall (λ e, e = ReadCsv limit offset ∨ e = Sleep wait) new) ∧
              (d = empty_frame ∨ ∃ n, http n limit offset = Response d))
      as Hrest.
    { intros w2 Hw2 Hf. destruct (IH _ Hf) as [(new & Htr & Hall) Hd].
      split; [|done].
      destruct Hw2 as [-> | ->]; simpl in Htr; rewrite Htr.
      - exists (ReadCsv limit offset :: new). rewrite <-app_assoc.
        split; [done|]. constructor; [by left|done].
      - exists (ReadCsv limit offset :: Sleep wait :: new).
        rewrite <-!app_assoc. split; [done|].
        constructor; [by left|]. constructor; [by right|done]. }
    destruct (http (attempts w) limit offset) as [d0| |] eqn:Hr.
    + intros [= <- <-]. split; [|right; eauto].
      exists [ReadCsv limit offset]. split; [done|].
      constructor; [by left|constructor].
    + apply Hrest. destruct (k <? retries - 1); [by right|by left].
    + apply Hrest. destruct (k <? retries - 1); [by right|by left].
Qed.

Lemma len_filter_dates a c : len (filter_dates a c) ≤ len c.
Proof.
  unfold filter_dates. destruct (dates_requested a); [|lia].
  destruct (has_column case_month c); [|lia].
  set (c1 := setitem _ _ c). assert (len c1 = len c) as <- by apply len_setitem.
  set (c2 := match start_date a with Some d => _ | None => c1 end).
  assert (len c2 ≤ len c1) by (subst c2; destruct (start_date a);
                               [apply len_select|lia]).
  destruct (end_date a); [|done].
  pose proof (len_select (on_or_before z) c2). lia.
Qed.

Context (a : fetch_args) (m : Z).
Hypothesis Hmax : max_rows a = Some m.
Hypothesis Hsrc : honours_limit src.

(** One pass of the loop under the budget. *)
Lemma loop_body_budget offset total_rows w w' g y :
  0 ≤ total_rows ≤ m →
  loop_body a offset total_rows w = (w', g, y) →
  ∃ new, trace w' = trace w ++ new ∧
    match y with
    | None =>
        g = Finished ∧
        budget_scan (chunk_size a) m total_rows new = Some total_rows
    | Some c =>
        g = AtYield offset total_rows (request_limit a total_rows) c ∧
        budget_scan (chunk_size a) m total_rows new = Some (total_rows + len c) ∧
        1 ≤ len c ∧ total_rows + len c ≤ m
    end.
Proof.
  intros Ht. unfold loop_body, budget_spent. rewrite Hmax.
  destruct (m <=? total_rows) eqn:Hspent.
  { intros [= <- <- <-]. exists []. by rewrite app_nil_r. }
  apply Z.leb_gt in Hspent.
  assert (request_limit a total_rows = Z.min (chunk_size a) (m - total_rows))
    as Hlimit.
  { unfold request_limit. rewrite Hmax. rewrite bool_decide_eq_false_2; [done|lia]. }
  destruct (fetch_data _ _ _ _ w) as [w1 chunk] eqn:Hf.
  apply fetch_attempts_effects in Hf as [(new & Htr & Hall) Hd].
  pose proof (budget_scan_requests _ _ _ _ _ _ _ Hlimit Hall) as Hscan.
  destruct (empty chunk) eqn:He.
  { intros [= <- <- <-]. eauto. }
  destruct (empty (filter_dates a chunk) && dates_requested a) eqn:Hfil.
  { intros [= <- <- <-]. eauto. }
  intros [= <- <- <-]. exists (new ++ [Yield (len (filter_dates a chunk))]).
  split; [simpl; by rewrite Htr, app_assoc|].
  split; [done|]. split.
  { rewrite budget_scan_app, Hscan. simpl. done. }
  assert (empty (filter_dates a chunk) = false) as Hne.
  { apply andb_false_iff in Hfil as [?|Hd']; [done|].
    unfold filter_dates. by rewrite Hd'. }
  apply empty_false_len in Hne.
  pose proof (len_filter_dates a chunk) as Hle.
  destruct Hd as [->|[n Hn]]; [done|].
  apply Hsrc in Hn. rewrite Hlimit in Hn. lia.
Qed.

(** A resumption keeps the budget invariant and uses up the bound. *)
Lemma next_budget w0 g w acc w' g' y :
  budget_inv a m w0 g w acc →
  next a g w = (w', g', y) →
  match y with
  | None => budget_inv a m w0 g' w' acc
  | Some c =>
      budget_inv a m w0 g' w' (acc ++ [c]) ∧ with_chunk c g' = g' ∧
      (resumptions_left m g' < resumptions_left m g)%nat
  end.
Proof.
  intros (new & Htr & Hscan & Hacc & Hg) Hn.
  assert (∀ offset total_rows,
            total_rows = rows_yielded acc →
            loop_body a offset total_rows w = (w', g', y) →
            match y with
            | None => budget_inv a m w0 g' w' acc
            | Some c =>
                budget_inv a m w0 g' w' (acc ++ [c]) ∧ with_chunk c g' = g' ∧
                (resumptions_left m g' < S (Z.to_nat (m - total_rows)))%nat
            end) as Hloop.
  { intros offset total_rows -> Hl.
    destruct (loop_body_budget _ _ _ _ _ _ Hacc Hl) as (new' & Htr' & Hy).
    destruct y as [c|].
    - destruct Hy as (-> & Hscan' & Hc & Hm). split; [|split; [done|simpl; lia]].
      exists (new ++ new'). rewrite rows_yielded_app.
      split; [by rewrite Htr', Htr, app_assoc|].
      split; [by rewrite budget_scan_app, Hscan|]. split; [lia|]. done.
    - destruct Hy as (-> & Hscan'). exists (new ++ new').
      split; [by rewrite Htr', Htr, app_assoc|].
      split; [by rewrite budget_scan_app, Hscan|]. done. }
  destruct g as [o t|o t l ch|]; simpl in Hn.
  - subst t. by apply (Hloop o).
  - destruct Hg as [Hg Hch].
    destruct (len ch <? l).
    + injection Hn as <- <- <-. exists new. done.
    + apply (Hloop _ _ Hg) in Hn. destruct y; [|done].
      destruct Hn as (? & ? & ?). split; [done|]. split; [done|].
      simpl. replace (m - t - len ch) with (m - (t + len ch)) by lia. done.
  - injection Hn as <- <- <-. exists new. done.
Qed.

Lemma fetch_run_budget w0 fuel g w acc :
  budget_inv a m w0 g w acc →
  let run := for_each a (λ acc chunk, (acc ++ [chunk], chunk, Continue))
               fuel g w acc in
  budget_inv a m w0 run.1.1.2 (world_of run) (chunks_of run) ∧
  ((resumptions_left m g ≤ fuel)%nat → status_of run = Completed).
Proof.
  revert g w acc. induction fuel as [|fuel IH]; intros g w acc Hinv; simpl.
  - split; [done|]. destruct g; simpl; lia.
  - destruct (next a g w) as [[w' g'] [c|]] eqn:Hn.
    + destruct (next_budget w0 _ _ _ _ _ _ Hinv Hn) as (Hinv' & -> & Hlt).
      destruct (IH _ _ _ Hinv') as [Hrun Hdone]. split; [done|].
      intros Hfuel. apply Hdone. lia.
    + pose proof (next_budget w0 _ _ _ _ _ _ Hinv Hn). done.
Qed.

(** C4. With [max_rows] set to [m], against a source that returns no more
    rows than it is asked for: whatever the number of resumptions, the rows
    yielded so far number at most [m]; every request issued asked for
    [min(chunk_size, m - rows yielded before it)]; and the sequence is
    complete after at most [m + 1] resumptions. *)
Theorem rows_within_budget (fuel : nat) (w : world) :
  0 ≤ m →
  let run := fetch_chunks a fuel w in
  rows_yielded (chunks_of run) ≤ m ∧
  (∃ new, trace (world_of run) = trace w ++ new ∧
          budget_scan (chunk_size a) m 0 new = Some (rows_yielded (chunks_of run))) ∧
  ((Z.to_nat m < fuel)%nat → status_of run = Completed).
Proof.
  intros Hm.
  assert (budget_inv a m w fetch_data_chunked w []) as Hinv.
  { exists []. rewrite app_nil_r. simpl. done. }
  destruct (fetch_run_budget w fuel _ _ _ Hinv) as [(new & Htr & Hscan & Hle & _) Hdone].
  split; [apply Hle|]. split; [eauto|].
  intros Hfuel. apply Hdone. simpl. rewrite Z.sub_0_r. lia.
Qed.
End BudgetFacts.

(** C4, witness: 150 rows at most, in chunks of 100, from a source of 250
    rows. *)
Lemma rows_within_budget_witness :
  let run := @fetch_chunks csv_pandas paged_source
               (mkArgs 100 (Some 150) None None) 5 world0 in
  rows_yielded (chunks_of run) ≤ 150 ∧
  (∃ new, trace (world_of run) = trace world0 ++ new ∧
          budget_scan 100 150 0 new = Some (rows_yielded (chunks_of run))) ∧
  ((Z.to_nat 150 < 5)%nat → status_of run = Completed).
Proof.
  apply (@rows_within_budget csv_pandas paged_source
           (mkArgs 100 (Some 150) None None) 150).
  - reflexivity.
  - intros n limit offset d [= <-]. unfold len, page. simpl.
    rewrite length_replicate. lia.
  - lia.
Defined.

(** C4, counterexample to the claim as stated.  [fetch_data_chunked] yields
    the page as [fetch_data] returned it: asked for 3 rows under a budget
    of 3, a source that sends 5 has 5 rows yielded.  And under a negative
    budget nothing is requested, so that the 0 rows yielded exceed it. *)
Lemma budget_overrun_counterexample :
  (let run := @fetch_chunks csv_pandas generous_source
                (mkArgs 10 (Some 3) None None) 5 world0 in
   trace (world_of run) = [ReadCsv 3 0; Yield 5] ∧
   rows_yielded (chunks_of run) = 5 ∧ status_of run = Completed) ∧
  (let run := @fetch_chunks csv_pandas paged_source
                (mkArgs 10 (Some (-1)) None None) 5 world0 in
   trace (world_of run) = [] ∧
   rows_yielded (chunks_of run) = 0 ∧ status_of run = Completed).
Proof. split; vm_compute; done. Qed.

(** The scenario of the specification: with [max_rows = 150] and
    [chunk_size = 100] the first request asks for 100 rows, the second for 50. *)
Example budget_scenario :
  let run := @fetch_chunks csv_pandas paged_source
               (mkArgs 100 (Some 150) None None) 5 world0 in
  trace (world_of run) = [ReadCsv 100 0; Yield 100; ReadCsv 50 100; Yield 50] ∧
  status_of run = Completed.
Proof. split; vm_compute; reflexivity. Qed.

(** *** The end of the data *)

Section StopRule.
Context {pd : Pandas} {src : Source}.

Lemma filter_dates_off a c : dates_requested a = false → filter_dates a c = c.
Proof. intros Hd. unfold filter_dates. by rewrite Hd. Qed.

(** Without a date filter the page fetched is yielded as it is. *)
Lemma loop_body_unfiltered a offset total_rows w w1 c :
  dates_requested a = false →
  budget_spent a total_rows = false →
  fetch_data (request_limit a total_rows) offset 3 2 w = (w1, c) →
  empty c = false →
  loop_body a offset total_rows w
  = (yield c w1, AtYield offset total_rows (request_limit a total_rows) c, Some c).
Proof.
  intros Hd Hb Hf Hc. unfold loop_body. rewrite Hb, Hf, Hc.
  rewrite filter_dates_off by done. by rewrite Hc.
Qed.

Lemma request_limit_le a total_rows :
  budget_spent a total_rows = false →
  request_limit a total_rows ≤ chunk_size a.
Proof.
  unfold request_limit, budget_spent. destruct (max_rows a) as [m|]; [|lia].
  case_bool_decide; lia.
Qed.

Lemma short_page_spends_budget a t c :
  budget_spent a t = false →
  len c < chunk_size a →
  (len c <? request_limit a t) = false →
  budget_spent a (t + len c) = true.
Proof.
  unfold request_limit, budget_spent. destruct (max_rows a) as [m|].
  - case_bool_decide; intros ?%Z.leb_gt ? ?%Z.ltb_ge; apply Z.leb_le; lia.
  - intros _ ? ?%Z.ltb_ge. lia.
Qed.

(** C3 (amended). Without a date filter the page fetched is the chunk
    yielded, and after the yield the generator stops at once exactly when
    that page has fewer rows than were requested, going back to the top of
    the loop otherwise; and
    when the first page has exactly [chunk_size] rows and the second fewer,
    but at least one, exactly two chunks are yielded. *)
Theorem short_page_ends_sequence (a : fetch_args) :
  dates_requested a = false →
  (∀ offset total_rows w w1 c,
     budget_spent a total_rows = false →
     fetch_data (request_limit a total_rows) offset 3 2 w = (w1, c) →
     empty c = false →
     let limit := request_limit a total_rows in
     loop_body a offset total_rows w
     = (yield c w1, AtYield offset total_rows limit c, Some c) ∧
     ∀ w', next a (AtYield offset total_rows limit c) w'
           = if len c <? limit then (w', Finished, None)
             else loop_body a (offset + chunk_size a) (total_rows + len c) w') ∧
  (∀ w w1 w2 d1 d2 fuel,
     budget_spent a 0 = false →
     fetch_data (request_limit a 0) 0 3 2 w = (w1, d1) →
     empty d1 = false →
     len d1 = chunk_size a →
     budget_spent a (len d1) = false →
     fetch_data (request_limit a (len d1)) (chunk_size a) 3 2 (yield d1 w1)
     = (w2, d2) →
     empty d2 = false →
     len d2 < chunk_size a →
     (3 ≤ fuel)%nat →
     fetch_chunks a fuel w = (yield d2 w2, Finished, [d1; d2], Completed)).
Proof.
  intros Hd. split.
  - intros offset total_rows w w1 c Hb Hf Hc limit. split; [|done].
    by apply loop_body_unfiltered.
  - intros w w1 w2 d1 d2 fuel Hb0 Hf1 Hd1 Hlen Hb1 Hf2 Hd2 Hshort Hfuel.
    destruct fuel as [|[|[|fuel]]]; [lia..|].
    unfold fetch_chunks, fetch_data_chunked.
    cbn [for_each next].
    rewrite (loop_body_unfiltered a 0 0 w w1 d1) by done.
    cbn [with_chunk app next].
    pose proof (request_limit_le a 0 Hb0) as Hl0.
    rewrite (proj2 (Z.ltb_ge _ _)) by lia.
    rewrite !Z.add_0_l.
    rewrite (loop_body_unfiltered a _ _ _ w2 d2) by done.
    cbn [with_chunk app next].
    destruct (len d2 <? request_limit a (len d1)) eqn:Hstop; [done|].
    unfold loop_body.
    by rewrite (short_page_spends_budget a (len d1) d2).
Qed.
End StopRule.

(** C3, witness: two pages, of two rows and of one. *)
Lemma short_page_ends_sequence_witness :
  @fetch_chunks csv_pandas (table_source three_cases) unfiltered 3 world0
  = (mkWorld 2 [ReadCsv 2 0; Yield 2; ReadCsv 2 2; Yield 1], Finished,
     [mkFrame case_columns [case_in "2020-02"; case_in "2020-03"];
      mkFrame case_columns [case_in "2020-03"]], Completed).
Proof.
  refine (proj2 (@short_page_ends_sequence csv_pandas (table_source three_cases)
                   unfiltered _)
            world0 (mkWorld 1 [ReadCsv 2 0])
            (mkWorld 2 [ReadCsv 2 0; Yield 2; ReadCsv 2 2])
            (mkFrame case_columns [case_in "2020-02"; case_in "2020-03"])
            (mkFrame case_columns [case_in "2020-03"]) 3%nat _ _ _ _ _ _ _ _ _);
    try reflexivity; vm_compute; congruence.
Defined.

(** C3, counterexample to the claim as stated, in three runs against
    sources whose first page comes back full (two rows for a limit of two).
    With a start date, one row of that page is filtered out: the generator
    yields the row left and stops without a second request.  With
    [max_rows = 2] and no filter, the generator stops after the full page
    because the budget is spent.  Without budget or filter, a second page
    with no row at all ends the sequence after one chunk. *)
Lemma stop_rule_counterexample :
  @http (table_source three_cases) 0 2 0
  = Response (mkFrame case_columns [case_in "2020-02"; case_in "2020-03"]) ∧
  (let run := @fetch_chunks csv_pandas (table_source three_cases) from_march
                5 world0 in
   trace (world_of run) = [ReadCsv 2 0; Yield 1] ∧
   len <$> chunks_of run = [1] ∧
   status_of run = Completed) ∧
  (let run := @fetch_chunks csv_pandas (table_source three_cases) capped
                5 world0 in
   trace (world_of run) = [ReadCsv 2 0; Yield 2] ∧
   len <$> chunks_of run = [2] ∧
   status_of run = Completed) ∧
  (let run := @fetch_chunks csv_pandas (table_source two_cases) unfiltered
                5 world0 in
   trace (world_of run) = [ReadCsv 2 0; Yield 2; ReadCsv 2 2] ∧
   len <$> chunks_of run = [2] ∧
   status_of run = Completed).
Proof. repeat split; vm_compute; reflexivity. Qed.

(** ** mysql_handler.py *)

Lemma update_volatile_lookup new old col :
  update_volatile new old !! col
  = if bool_decide (col ∈ volatile) then Some (get col new) else old !! col.
Proof.
  unfold update_volatile. induction volatile as [|c l IH]; simpl; [done|].
  destruct (decide (col = c)) as [->|Hne].
  - rewrite lookup_insert_eq. rewrite bool_decide_eq_true_2; [done|by left].
  - rewrite lookup_insert_ne by done. rewrite IH.
    apply (f_equal (λ b : bool, if b then _ else _)).
    apply bool_decide_ext. rewrite elem_of_cons.
    split; [by right|by intros [?|?]].
Qed.

Lemma insert_sql_past new table rest :
  Forall (λ old, duplicate_key new old = false) table →
  insert_sql new (table ++ rest) = table ++ insert_sql new rest.
Proof.
  induction 1 as [|old table Hold _ IH]; simpl; [done|].
  by rewrite Hold, IH.
Qed.

Lemma insert_sql_fresh new table :
  Forall (λ old, duplicate_key new old = false) table →
  insert_sql new table = table ++ [new].
Proof.
  intros Hall. rewrite <-(app_nil_r table) at 1.
  by rewrite insert_sql_past.
Qed.

Lemma duplicate_key_other new old :
  key_of old ≠ key_of new → duplicate_key new old = false.
Proof.
  intros Hne. unfold duplicate_key. rewrite bool_decide_eq_false_2 by done.
  apply andb_false_r.
Qed.

(** C2 (amended). Two rows with the same key, no column of which is NULL,
    upserted into a table that holds no row with that key: the table gains
    one row, whose four volatile columns hold the values of the second row
    and whose every other column holds what the first row inserted. *)
Theorem second_upsert_overwrites_volatile
    (table : list (gmap string cell)) (r1 r2 : gmap string cell) :
  key_of r2 = key_of r1 →
  forallb notna (key_of r1) = true →
  Forall (λ old, key_of old ≠ key_of r1) table →
  ∃ stored,
    insert_sql r2 (insert_sql r1 table) = table ++ [stored] ∧
    (∀ col, col ∈ volatile → stored !! col = Some (get col r2)) ∧
    (∀ col, col ∉ volatile → stored !! col = r1 !! col).
Proof.
  intros Hkey Hnull Hfresh. exists (update_volatile r2 r1).
  split; [|split].
  - rewrite (insert_sql_fresh r1 table).
    2:{ eapply Forall_impl; [exact Hfresh|]. intros old. apply duplicate_key_other. }
    rewrite (insert_sql_past r2 table).
    2:{ eapply Forall_impl; [exact Hfresh|]. intros old Hold.
        apply duplicate_key_other. by rewrite Hkey. }
    simpl. unfold duplicate_key. rewrite Hkey, Hnull.
    by rewrite bool_decide_eq_true_2.
  - intros col Hcol. rewrite update_volatile_lookup.
    by rewrite bool_decide_eq_true_2.
  - intros col Hcol. rewrite update_volatile_lookup.
    by rewrite bool_decide_eq_false_2.
Qed.

(** C2, witness: the same New York case of March 2020 reported twice, the
    second time as deceased. *)
Lemma second_upsert_overwrites_volatile_witness :
  ∃ stored,
    insert_sql (case_record (Str "2020-03-01") "Yes")
      (insert_sql (case_record (Str "2020-03-01") "No") [])
    = [] ++ [stored] ∧
    (∀ col, col ∈ volatile →
       stored !! col = Some (get col (case_record (Str "2020-03-01") "Yes"))) ∧
    (∀ col, col ∉ volatile →
       stored !! col = case_record (Str "2020-03-01") "No" !! col).
Proof.
  apply (second_upsert_overwrites_volatile []
           (case_record (Str "2020-03-01") "No")
           (case_record (Str "2020-03-01") "Yes")).
  - reflexivity.
  - reflexivity.
  - constructor.
Defined.

(** C2, counterexample to the claim as stated.  A feed without a case_month
    column makes [load_cdc_data] bind NULL to case_month; two such rows with
    the same key do not collide, so the second load adds a second row and
    the first one keeps its [death_yn]. *)
Lemma null_month_counterexample :
  build_rows (undated_batch "No") = Some [case_record NA "No"] ∧
  build_rows (undated_batch "Yes") = Some [case_record NA "Yes"] ∧
  key_of (case_record NA "Yes") = key_of (case_record NA "No") ∧
  (let (h, _) :=
     @load_cdc_data accepting (mkHandler (Some []) 0) (undated_batch "No") in
   @load_cdc_data accepting h (undated_batch "Yes"))
  = (mkHandler (Some [case_record NA "No"; case_record NA "Yes"]) 2, Returns).
Proof. repeat split; vm_compute; reflexivity. Qed.

(** A dated case reported twice is stored once, with the [death_yn] of the
    second report. *)
Example dated_case_merges :
  insert_sql (case_record (Str "2020-03-01") "Yes")
    (insert_sql (case_record (Str "2020-03-01") "No") [])
  = [case_record (Str "2020-03-01") "Yes"].
Proof. apply (bool_decide_unpack _). vm_compute. exact I. Qed.

Lemma expected_cols_nodup : NoDup (expected_cols.*1).
Proof. apply (bool_decide_unpack _). by vm_compute. Qed.

Lemma row_data_lookup d r col dflt :
  (col, dflt) ∈ expected_cols →
  row_data d r !! col = Some (if has_column col d then get col r else dflt).
Proof.
  intros Hin. unfold row_data. apply elem_of_list_to_map_1.
  - rewrite <-list_fmap_compose.
    rewrite (list_fmap_ext _ fst expected_cols) by done.
    apply expected_cols_nodup.
  - apply list_elem_of_fmap. by exists (col, dflt).
Qed.

(** The record built for one row. *)
Lemma build_row_defaults (d : DataFrame) (r : gmap string cell) :
  (build_row d r = None ↔
   has_column "case_month" d = true ∧
   case_month_str (get "case_month" r) = None) ∧
  (∀ record, build_row d r = Some record →
     ∀ col dflt, (col, dflt) ∈ expected_cols → has_column col d = false →
                 record !! col = Some dflt).
Proof.
  assert (get "case_month" (row_data d r)
          = if has_column "case_month" d then get "case_month" r else NA) as Hcm.
  { unfold get at 1. rewrite (row_data_lookup d r "case_month" NA); [done|].
    by left. }
  pose proof (row_data_lookup d r) as Hlook.
  unfold build_row. rewrite Hcm. clear Hcm.
  generalize dependent (row_data d r). intros rd Hlook.
  split.
  - destruct (has_column "case_month" d).
    + destruct (case_month_str (get "case_month" r));
        (split; [done|by intros [_ ?]]).
    + split; [done|by intros [? _]].
  - intros record Hb col dflt Hin Hc.
    pose proof (Hlook col dflt Hin) as Hcol. rewrite Hc in Hcol.
    destruct (decide (col = "case_month")) as [->|Hne].
    + rewrite Hc in Hb. injection Hb as <-. rewrite lookup_insert_eq.
      rewrite (Hlook "case_month" NA), Hc in Hcol by (by left). done.
    + destruct (case_month_str _) as [cm|]; [|done].
      injection Hb as <-. by rewrite lookup_insert_ne.
Qed.

Section LoaderFacts.
Context {db : Engine}.

(** C10. [load_cdc_data] turns no row away for a column the batch lacks.
    On a connection whose cursor opens, the call raises in its row loop
    exactly when some row holds a case_month that is present and neither
    missing nor a timestamp, whatever columns the batch has.  Otherwise it
    builds one record per row, in order, in which every column the batch
    lacks holds the default of [expected_cols], 'Unknown' for res_state and
    0 for state_fips_code among them; and these are the records that the
    engine, if it accepts the batch, upserts into the table. *)
Theorem missing_column_takes_default (h : MySQLHandler) (d : DataFrame)
    (table : list (gmap string cell)) :
  conn h = Some table →
  cursor_error (calls h) = false →
  (build_rows d = None ↔
   ∃ r, r ∈ rows d ∧ has_column "case_month" d = true ∧
        case_month_str (get "case_month" r) = None) ∧
  (build_rows d = None →
   load_cdc_data h d = (mkHandler (Some table) (S (calls h)), Raises)) ∧
  (∀ records, build_rows d = Some records →
     length records = length (rows d) ∧
     (∀ i r, rows d !! i = Some r →
        ∃ record, records !! i = Some record ∧
          (∀ col dflt, (col, dflt) ∈ expected_cols →
                       has_column col d = false → record !! col = Some dflt) ∧
          (has_column "res_state" d = false →
           record !! "res_state" = Some (Str "Unknown")) ∧
          (has_column "state_fips_code" d = false →
           record !! "state_fips_code" = Some (Int 0))) ∧
     (engine_error (calls h) table records = false →
      conn (load_cdc_data h d).1 = Some (executemany records table))).
Proof.
  intros Hconn Hcursor. split; [|split].
  - unfold build_rows. rewrite eq_None_not_Some, mapM_is_Some.
    rewrite <-Exists_Forall_neg.
    2:{ intros r. unfold compose.
        destruct (build_row d r); [left; by eexists|right; by intros [? ?]]. }
    rewrite Exists_exists. split.
    + intros (r & Hr & Hnone). exists r. split; [done|].
      apply (build_row_defaults d r). unfold compose in Hnone.
      by apply eq_None_not_Some.
    + intros (r & Hr & Hc & Hm). exists r. split; [done|].
      unfold compose. apply eq_None_not_Some.
      by apply (build_row_defaults d r).
  - intros Hnone. unfold load_cdc_data. by rewrite Hconn, Hcursor, Hnone.
  - intros records Hbuilt. pose proof Hbuilt as Hrecords.
    unfold build_rows in Hrecords.
    apply mapM_Some in Hrecords. split; [|split].
    + symmetry. by eapply Forall2_length.
    + intros i r Hr.
      destruct (Forall2_lookup_l _ _ _ _ _ Hrecords Hr) as (record & Hl & Hb).
      exists record. split; [done|].
      pose proof (proj2 (build_row_defaults d r) record Hb) as Hdflt.
      split; [done|]. split; intros Hc.
      * apply (Hdflt "res_state" (Str "Unknown")); [|done]. by right; left.
      * apply (Hdflt "state_fips_code" (Int 0)); [|done]. by right; right; left.
    + intros Hok. unfold load_cdc_data.
      rewrite Hconn, Hcursor, Hbuilt, Hok.
      by destruct (close_error (calls h)).
Qed.
End LoaderFacts.

(** C10, witness: a batch without case_month, state_fips_code and fourteen
    more columns, loaded into the empty table. *)
Lemma missing_column_takes_default_witness :
  (build_rows (undated_batch "No") = None ↔
   ∃ r, r ∈ rows (undated_batch "No") ∧
        has_column "case_month" (undated_batch "No") = true ∧
        case_month_str (get "case_month" r) = None) ∧
  (build_rows (undated_batch "No") = None →
   @load_cdc_data accepting (mkHandler (Some []) 0) (undated_batch "No")
   = (mkHandler (Some []) 1, Raises)) ∧
  (∀ records, build_rows (undated_batch "No") = Some records →
     length records = length (rows (undated_batch "No")) ∧
     (∀ i r, rows (undated_batch "No") !! i = Some r →
        ∃ record, records !! i = Some record ∧
          (∀ col dflt, (col, dflt) ∈ expected_cols →
                       has_column col (undated_batch "No") = false →
                       record !! col = Some dflt) ∧
          (has_column "res_state" (undated_batch "No") = false →
           record !! "res_state" = Some (Str "Unknown")) ∧
          (has_column "state_fips_code" (undated_batch "No") = false →
           record !! "state_fips_code" = Some (Int 0))) ∧
     (@engine_error accepting 0 [] records = false →
      conn (@load_cdc_data accepting (mkHandler (Some []) 0)
              (undated_batch "No")).1
      = Some (executemany records []))).
Proof.
  apply (@missing_column_takes_default accepting (mkHandler (Some []) 0)
           (undated_batch "No") []).
  - reflexivity.
  - reflexivity.
Defined.

(** The record stored for the one row of that batch. *)
Example undated_batch_stored :
  conn (@load_cdc_data accepting (mkHandler (Some []) 0) (undated_batch "No")).1
  = Some [case_record NA "No"].
Proof. apply (bool_decide_unpack _). vm_compute. exact I. Qed.

(** A month that is still text makes the call raise, all columns present
    or not. *)
Example text_month_raises :
  @load_cdc_data accepting (mkHandler (Some []) 0) early_onset_batch
  = (mkHandler (Some []) 1, Raises).
Proof. vm_compute. reflexivity. Qed.
(** ** Further properties of data_transformer.py *)

Section TransformerExact.
Context {pd : Pandas}.

(** X1. On a non-empty batch [clean_and_transform] raises when an interval
    column the batch has holds, among the rows the date step kept, a value
    that is not finite; otherwise it returns exactly this frame: the
    columns of the batch, followed by process when the batch lacks it; and,
    in their order, the rows of the batch whose case_month is read as a date
    under the format of the column and whose state_fips_code is not
    missing, each transformed by [transform_row].  No row is dropped for its
    res_state. *)
Theorem clean_exact (b : DataFrame) :
  empty b = false →
  clean b
  = if finite_intervals b
    then Some (mkFrame (if has_column "process" b then columns b
                        else columns b ++ ["process"])
                       (transform_row b <$> List.filter (kept b) (rows b)))
    else None.
Proof. intros Hb. rewrite clean_value, Hb. apply transform_exact. Qed.
End TransformerExact.

(** X1, witness: of the three rows of [mixed_batch] the one whose month does
    not parse goes, the one without res_state stays. *)
Lemma clean_exact_witness :
  @clean csv_pandas mixed_batch
  = if @finite_intervals csv_pandas mixed_batch
    then Some (mkFrame (if has_column "process" mixed_batch
                        then columns mixed_batch
                        else columns mixed_batch ++ ["process"])
                 (@transform_row csv_pandas mixed_batch
                    <$> List.filter (@kept csv_pandas mixed_batch)
                          (rows mixed_batch)))
    else None.
Proof. apply (@clean_exact csv_pandas mixed_batch). reflexivity. Defined.

(** The scenario of the specification, as the code runs it: two rows come
    out, not one. *)
Example mixed_batch_scenario :
  (λ d, (λ r, (get "case_month" r, get "res_state" r)) <$> rows d)
    <$> @clean csv_pandas mixed_batch
  = Some [(Timestamp 1583020800000000000, Str "NY");
          (Timestamp 1585699200000000000, Str "Unknown")].
Proof. apply (bool_decide_unpack _). vm_compute. exact I. Qed.

(** The format of the dates is that of the column: a date written with its
    day is dropped from a column of months, and a no-break space is
    stripped like a blank. *)
Example column_format_scenario :
  (λ d, (λ r, (get "case_month" r, get "res_state" r)) <$> rows d)
    <$> @clean csv_pandas odd_batch
  = Some [(Timestamp 1583020800000000000, Str "NY")].
Proof. apply (bool_decide_unpack _). vm_compute. exact I. Qed.

Section TransformerShape.
Context {pd : Pandas}.

(** X2. Every row that [clean_and_transform] returns for a non-empty batch
    is clean in each column the batch has: case_month holds a timestamp,
    the two interval columns hold int64 integers, the twelve text columns
    hold text without surrounding whitespace, state_fips_code is not
    missing; and the frame returned has a process column. *)
Theorem clean_output_shape (b d : DataFrame) (r : gmap string cell) :
  empty b = false →
  clean b = Some d →
  r ∈ rows d →
  has_column "process" d = true ∧
  (has_column case_month b = true →
   ∃ t, r !! case_month = Some (Timestamp t)) ∧
  (∀ col, col ∈ numerical_cols → has_column col b = true →
          ∃ z, r !! col = Some (Int z) ∧ int64 z = true) ∧
  (∀ col, col ∈ str_cols → has_column col b = true →
          ∃ s, r !! col = Some (Str s) ∧ strip s = s) ∧
  (has_column "state_fips_code" b = true →
   ∃ c, r !! "state_fips_code" = Some c ∧ c ≠ NA).
Proof.
  intros Hb Hclean Hr.
  destruct (clean_cleaned b d Hb Hclean) as [Hdate Hnum Hstr Hfips Hproc].
  split; [done|]. split; [|split; [|split]].
  - intros Hc.
    destruct (Hdate (has_column_clean b d _ Hclean Hc) r Hr) as (c & ? & t & ->).
    eauto.
  - intros col Hcol Hc.
    destruct (Hnum col Hcol (has_column_clean b d _ Hclean Hc) r Hr)
      as (c & ? & z & -> & ?).
    eauto.
  - intros col Hcol Hc.
    destruct (Hstr col Hcol (has_column_clean b d _ Hclean Hc) r Hr)
      as (c & ? & s & -> & ?).
    eauto.
  - intros Hc. by apply (Hfips (has_column_clean b d _ Hclean Hc) r Hr).
Qed.

(** X3. [clean_and_transform] returns at most as many rows as it was
    given, whatever the batch. *)
Theorem clean_never_adds_rows (b d : DataFrame) :
  clean b = Some d → len d ≤ len b.
Proof.
  rewrite clean_value. destruct (empty b); [intros [= <-]; lia|].
  rewrite transform_exact. destruct (finite_intervals b); [|done].
  intros [= <-]. unfold len. cbn [rows].
  rewrite length_fmap. pose proof (filter_length_le (kept b) (rows b)). lia.
Qed.
End TransformerShape.

(** X2, witness: the first row that comes out of [mixed_batch]. *)
Lemma clean_output_shape_witness :
  has_column "process" mixed_cleaned = true ∧
  (has_column case_month mixed_batch = true →
   ∃ t, row_of [("case_month", Timestamp 1583020800000000000);
                ("res_state", Str "NY"); ("state_fips_code", Int 36);
                ("process", Str "Unknown")] !! case_month
        = Some (Timestamp t)) ∧
  (∀ col, col ∈ numerical_cols → has_column col mixed_batch = true →
     ∃ z, row_of [("case_month", Timestamp 1583020800000000000);
                  ("res_state", Str "NY"); ("state_fips_code", Int 36);
                  ("process", Str "Unknown")] !! col
          = Some (Int z) ∧ int64 z = true) ∧
  (∀ col, col ∈ str_cols → has_column col mixed_batch = true →
     ∃ s, row_of [("case_month", Timestamp 1583020800000000000);
                  ("res_state", Str "NY"); ("state_fips_code", Int 36);
                  ("process", Str "Unknown")] !! col
          = Some (Str s) ∧ strip s = s) ∧
  (has_column "state_fips_code" mixed_batch = true →
   ∃ c, row_of [("case_month", Timestamp 1583020800000000000);
                ("res_state", Str "NY"); ("state_fips_code", Int 36);
                ("process", Str "Unknown")] !! "state_fips_code"
        = Some c ∧ c ≠ NA).
Proof.
  apply (@clean_output_shape csv_pandas mixed_batch mixed_cleaned).
  - reflexivity.
  - apply (bool_decide_unpack _). vm_compute. exact I.
  - apply (bool_decide_unpack _). vm_compute. exact I.
Defined.

(** X3, witness: three rows in, two out. *)
Lemma clean_never_adds_rows_witness : len mixed_cleaned ≤ len mixed_batch.
Proof.
  apply (@clean_never_adds_rows csv_pandas mixed_batch mixed_cleaned).
  apply (bool_decide_unpack _). vm_compute. exact I.
Defined.
(** ** Further properties of api_client.py *)

Section RetryFacts.
Context {pd : Pandas} {src : Source}.

Lemma fetch_attempts_recovers limit offset retries wait d (k : nat) :
  ∀ (j n : Z) (w : world),
    j + n = retries → Z.of_nat k < n →
    all_fail src w limit offset k →
    http (attempts w + k) limit offset = Response d →
    fetch_attempts (seqZ j n) limit offset retries wait w
    = (mkWorld (attempts w + S k)
               (trace w ++ retried_trace limit offset wait k), d).
Proof.
  induction k as [|k IH]; intros j n w Hj Hn Hfail Hok.
  - rewrite seqZ_cons by lia. cbn [fetch_attempts read_csv].
    rewrite Nat.add_0_r in Hok. rewrite Hok. f_equal. f_equal. lia.
  - rewrite seqZ_cons by lia. cbn [fetch_attempts read_csv].
    set (w1 := mkWorld (S (attempts w)) (trace w ++ [ReadCsv limit offset])).
    assert (fetch_attempts (seqZ (Z.succ j) (Z.pred n)) limit offset retries
              wait (sleep wait w1)
            = (mkWorld (attempts w + S (S k))
                 (trace w ++ retried_trace limit offset wait (S k)), d))
      as Hrest.
    { rewrite (IH (Z.succ j) (Z.pred n)); [|lia|lia| |].
      - subst w1. cbn [sleep attempts trace]. f_equal. f_equal; [lia|].
        unfold retried_trace. cbn [replicate concat].
        rewrite <-!app_assoc. done.
      - intros i d' Hi. subst w1. cbn [sleep attempts].
        replace (S (attempts w) + i)%nat with (attempts w + S i)%nat by lia.
        apply Hfail. lia.
      - subst w1. cbn [sleep attempts].
        replace (S (attempts w) + k)%nat with (attempts w + S k)%nat by lia.
        done. }
    rewrite (proj2 (Z.ltb_lt j (retries - 1))) by lia.
    pose proof (Hfail 0%nat) as H0. rewrite Nat.add_0_r in H0.
    destruct (http (attempts w) limit offset) as [d0| |] eqn:Hr.
    + exfalso. apply (H0 d0); [lia|done].
    + exact Hrest.
    + exact Hrest.
Qed.



End RetryFacts.



Lemma offsets_scan_app chunk offset tr1 tr2 :
  offsets_scan chunk offset (tr1 ++ tr2)
  = offsets_scan chunk offset tr1 ≫= λ o, offsets_scan chunk o tr2.
Proof.
  revert offset. induction tr1 as [|e tr1 IH]; intros offset; simpl; [done|].
  destruct e; [|done..]. by destruct (bool_decide _).
Qed.

Lemma offsets_scan_requests chunk limit offset wait tr :
  Forall (λ e, e = ReadCsv limit offset ∨ e = Sleep wait) tr →
  offsets_scan chunk offset tr = Some offset.
Proof.
  induction 1 as [|e tr [->| ->] _ IH]; simpl; [done| |done].
  by rewrite bool_decide_eq_true_2.
Qed.

Section OffsetFacts.
Context {pd : Pandas} {src : Source}.

Lemma loop_body_offsets a offset total_rows w w' g y :
  loop_body a offset total_rows w = (w', g, y) →
  ∃ new, trace w' = trace w ++ new ∧
         offsets_scan (chunk_size a) offset new
         = Some (default offset (next_offset a g)).
Proof.
  unfold loop_body. destruct (budget_spent a total_rows).
  { intros [= <- <- <-]. exists []. by rewrite app_nil_r. }
  destruct (fetch_data _ _ _ _ w) as [w1 chunk] eqn:Hf.
  apply fetch_attempts_effects in Hf as [(new & Htr & Hall) _].
  pose proof (offsets_scan_requests (chunk_size a) _ _ _ _ Hall) as Hscan.
  destruct (empty chunk).
  { intros [= <- <- <-]. eauto. }
  destruct (empty (filter_dates a chunk) && dates_requested a).
  { intros [= <- <- <-]. eauto. }
  intros [= <- <- <-]. exists (new ++ [Yield (len (filter_dates a chunk))]).
  split; [simpl; by rewrite Htr, app_assoc|].
  rewrite offsets_scan_app, Hscan. done.
Qed.

Lemma next_offsets a w0 g w w' g' y :
  (∃ new, trace w = trace w0 ++ new ∧
          ∃ o, offsets_scan (chunk_size a) 0 new = Some o ∧
               ∀ o', next_offset a g = Some o' → o' = o) →
  next a g w = (w', g', y) →
  ∃ new, trace w' = trace w0 ++ new ∧
         ∃ o, offsets_scan (chunk_size a) 0 new = Some o ∧
              ∀ o', next_offset a g' = Some o' → o' = o.
Proof.
  intros (new & Htr & o & Hscan & Hnext) Hn.
  assert (∀ offset total_rows,
            offset = o → loop_body a offset total_rows w = (w', g', y) →
            ∃ new, trace w' = trace w0 ++ new ∧
                   ∃ o, offsets_scan (chunk_size a) 0 new = Some o ∧
                        ∀ o', next_offset a g' = Some o' → o' = o) as Hloop.
  { intros offset total_rows -> Hl.
    apply loop_body_offsets in Hl as (new' & Htr' & Hscan').
    exists (new ++ new'). split; [by rewrite Htr', Htr, app_assoc|].
    exists (default o (next_offset a g')).
    split; [by rewrite offsets_scan_app, Hscan|].
    by intros o' ->. }
  destruct g as [offset t|offset t l ch|]; simpl in Hn.
  - eapply Hloop; [|done]. by apply Hnext.
  - destruct (len ch <? l).
    + injection Hn as <- <- <-. exists new. split; [done|]. by exists o.
    + eapply Hloop; [|done]. by apply Hnext.
  - injection Hn as <- <- <-. exists new. split; [done|]. by exists o.
Qed.

(** X6. Whatever the loop body does with the chunks, every request of a
    run of [fetch_data_chunked] asks for the offset [chunk_size] times the
    number of chunks yielded before it: the offset advances by [chunk_size]
    per chunk, not by the number of rows the chunk had. *)
Theorem offset_advances_by_chunk_size {St : Type} (a : fetch_args)
    (body : St → DataFrame → St * DataFrame * control)
    (fuel : nat) (w : world) (s : St) :
  ∃ new, trace (world_of (for_each a body fuel fetch_data_chunked w s))
         = trace w ++ new ∧
         is_Some (offsets_scan (chunk_size a) 0 new).
Proof.
  pose proof (for_each_invariant
    (λ g w' (_ : St),
       ∃ new, trace w' = trace w ++ new ∧
              ∃ o, offsets_scan (chunk_size a) 0 new = Some o ∧
                   ∀ o', next_offset a g = Some o' → o' = o) a body) as Hinv.
  destruct (Hinv
    ltac:(intros g0 w1 s0 w2 g2 HI Hn; exact (next_offsets a w _ _ _ _ _ HI Hn))
    ltac:(intros g0 w1 s0 w2 g2 c HI Hn;
          destruct (next_offsets a w _ _ _ _ _ HI Hn) as (new & ? & o & ? & Ho);
          exists new; split; [done|]; exists o; split; [done|];
          by destruct g2)
    fuel fetch_data_chunked w s) as (new & Htr & o & Hscan & _).
  { exists []. rewrite app_nil_r. split; [done|]. exists 0. split; [done|].
    by intros o' [= <-]. }
  exists new. split; [done|]. by exists o.
Qed.
End OffsetFacts.

Section DateFilterFacts.
Context {pd : Pandas} {src : Source}.

Lemma filter_dates_in_range a c r :
  dates_requested a = true →
  has_column case_month c = true →
  r ∈ rows (filter_dates a c) →
  in_date_range a r.
Proof.
  intros Hd Hc. unfold filter_dates, in_date_range. rewrite Hd, Hc.
  set (c1 := setitem case_month _ c).
  unfold dates_requested in Hd.
  destruct (start_date a) as [d1|] eqn:Hs, (end_date a) as [d2|] eqn:He;
    [| | |done]; cbn [select rows]; intros Hr.
  - apply elem_of_filter in Hr as [Hr H2]. apply elem_of_filter in Hr as [_ H1].
    unfold on_or_after in H1. unfold on_or_before in H2.
    destruct (get case_month r) as [| | |t]; [done..|]. exists t.
    split; [done|]. split; intros d [= <-]; lia.
  - apply elem_of_filter in Hr as [_ H1]. unfold on_or_after in H1.
    destruct (get case_month r) as [| | |t]; [done..|]. exists t.
    split; [done|]. split; [intros d [= <-]; lia|done].
  - apply elem_of_filter in Hr as [_ H2]. unfold on_or_before in H2.
    destruct (get case_month r) as [| | |t]; [done..|]. exists t.
    split; [done|]. split; [done|intros d [= <-]; lia].
Qed.

Lemma has_column_filter_dates a c col :
  has_column col (filter_dates a c) = has_column col c.
Proof.
  unfold filter_dates. destruct (dates_requested a); [|done].
  destruct (has_column case_month c) eqn:Hc; [|done].
  assert (has_column col (setitem case_month
            (λ r, to_datetime (column case_month c) (get case_month r)) c)
          = has_column col c) as H1.
  { rewrite has_column_setitem. destruct (decide (col = case_month)) as [->|Hne].
    - rewrite Hc. done.
    - rewrite bool_decide_eq_false_2 by done. apply orb_false_r. }
  unfold has_column in *.
  destruct (start_date a), (end_date a); cbn [select columns]; done.
Qed.

Lemma next_in_date_range a g w w' g' c r :
  dates_requested a = true →
  next a g w = (w', g', Some c) →
  has_column case_month c = true →
  r ∈ rows c →
  in_date_range a r.
Proof.
  intros Hd Hn Hc Hr.
  assert (∀ offset total_rows,
            loop_body a offset total_rows w = (w', g', Some c) →
            in_date_range a r) as Hloop.
  { intros offset total_rows. unfold loop_body.
    destruct (budget_spent a total_rows); [done|].
    destruct (fetch_data _ _ _ _ w) as [w1 chunk].
    destruct (empty chunk); [done|].
    destruct (empty (filter_dates a chunk) && dates_requested a); [done|].
    intros [= <- <- <-]. rewrite has_column_filter_dates in Hc.
    by eapply filter_dates_in_range. }
  destruct g as [o t|o t l ch|]; simpl in Hn; [by eapply Hloop| |done].
  destruct (len ch <? l); [done|]. by eapply Hloop.
Qed.

(** X7. When a start or an end date is requested, every row of every
    chunk [fetch_data_chunked] yields from a feed with a case_month column
    holds a parsed case_month whose day lies within the range requested;
    rows whose case_month does not parse are not yielded. *)
Theorem yielded_rows_in_date_range (a : fetch_args) (fuel : nat) (w : world)
    (c : DataFrame) (r : gmap string cell) :
  dates_requested a = true →
  c ∈ chunks_of (fetch_chunks a fuel w) →
  has_column case_month c = true →
  r ∈ rows c →
  in_date_range a r.
Proof.
  intros Hd Hin Hc Hr.
  assert (Forall (λ c, has_column case_month c = true →
                       ∀ r, r ∈ rows c → in_date_range a r)
            (chunks_of (fetch_chunks a fuel w))) as Hall.
  { unfold chunks_of, fetch_chunks.
    apply (for_each_invariant
             (λ _ _ acc, Forall (λ c, has_column case_month c = true →
                                      ∀ r, r ∈ rows c → in_date_range a r) acc)).
    - done.
    - intros g0 w0 acc w' g' c0 Hacc Hn. simpl.
      apply Forall_app. split; [done|]. constructor; [|done].
      intros Hc0 r0 Hr0. by eapply next_in_date_range.
    - constructor. }
  rewrite Forall_forall in Hall. by apply (Hall c).
Qed.

(** X8. A fetch whose three attempts all fail ends the sequence as the end
    of the data would: the loop over the generator completes normally, with
    no further chunk, and the loop body is not run again. *)
Theorem failed_fetch_ends_sequence {St : Type} (a : fetch_args)
    (body : St → DataFrame → St * DataFrame * control)
    (offset total_rows : Z) (fuel : nat) (w : world) (s : St) :
  budget_spent a total_rows = false →
  all_fail src w (request_limit a total_rows) offset 3 →
  for_each a body (S fuel) (AtLoop offset total_rows) w s
  = (mkWorld (attempts w + 3)
       (trace w ++ failed_trace (request_limit a total_rows) offset 2 3),
     Finished, s, Completed).
Proof.
  intros Hb Hfail. cbn [for_each next]. unfold loop_body. rewrite Hb.
  unfold fetch_data.
  rewrite (fetch_attempts_all_fail _ offset 3 2 3 0 w); [done|lia|done].
Qed.

Lemma fetch_data_first_attempt limit offset w d :
  http (attempts w) limit offset = Response d →
  fetch_data limit offset 3 2 w
  = (mkWorld (S (attempts w)) (trace w ++ [ReadCsv limit offset]), d).
Proof.
  intros Hok. unfold fetch_data.
  rewrite (fetch_attempts_recovers limit offset 3 2 d 0 0 3 w);
    [|lia|lia|intros k d' Hk; lia|by rewrite Nat.add_0_r].
  f_equal. f_equal. lia.
Qed.

Lemma endless_run a fuel :
  max_rows a = None →
  dates_requested a = false →
  (∀ n o, ∃ d, http n (chunk_size a) o = Response d ∧
               len d = chunk_size a ∧ empty d = false) →
  ∀ g w acc,
    (match g with
     | AtLoop _ _ => True
     | AtYield _ _ limit c => limit = chunk_size a ∧ len c = chunk_size a
     | Finished => False
     end) →
    let run := for_each a (λ acc chunk, (acc ++ [chunk], chunk, Continue))
                 fuel g w acc in
    status_of run = Running ∧
    length (chunks_of run) = (length acc + fuel)%nat.
Proof.
  intros Hmax Hdates Hsrc.
  assert (∀ offset total_rows w,
            ∃ w' c, loop_body a offset total_rows w
                    = (w', AtYield offset total_rows (chunk_size a) c, Some c) ∧
                    len c = chunk_size a) as Hloop.
  { intros offset total_rows w. unfold loop_body, budget_spent, request_limit.
    rewrite Hmax.
    destruct (Hsrc (attempts w) offset) as (d & Hd & Hlen & Hne).
    rewrite (fetch_data_first_attempt _ _ _ d Hd), Hne.
    rewrite filter_dates_off by done. rewrite Hne. cbn [andb]. eauto. }
  induction fuel as [|fuel IH]; intros g w acc Hg; cbn zeta.
  - unfold status_of, chunks_of. simpl. split; [done|lia].
  - cbn [for_each].
    assert (∃ w' o t c, next a g w = (w', AtYield o t (chunk_size a) c, Some c) ∧
                        len c = chunk_size a) as (w' & o & t & c & Hn & Hlen).
    { destruct g as [o t|o t l ch|]; [| |done]; cbn [next].
      - destruct (Hloop o t w) as (w' & c & ? & ?). eauto 10.
      - destruct Hg as [-> Hch]. rewrite Hch, Z.ltb_irrefl.
        destruct (Hloop (o + chunk_size a) (t + chunk_size a) w)
          as (w' & c & ? & ?).
        eauto 10. }
    rewrite Hn. cbn [with_chunk].
    destruct (IH (AtYield o t (chunk_size a) c) w' (acc ++ [c])) as [Hst Hlen'];
      [done|].
    split; [done|]. rewrite Hlen', length_app. simpl. lia.
Qed.

(** X9. Without [max_rows] and without a date filter, against a source
    that answers every request with a full, non-empty page, the generator
    never finishes: after any number of resumptions it has yielded that many
    chunks and is still running. *)
Theorem unbounded_without_max_rows (a : fetch_args) (fuel : nat) (w : world) :
  max_rows a = None →
  dates_requested a = false →
  (∀ n o, ∃ d, http n (chunk_size a) o = Response d ∧
               len d = chunk_size a ∧ empty d = false) →
  status_of (fetch_chunks a fuel w) = Running ∧
  length (chunks_of (fetch_chunks a fuel w)) = fuel.
Proof.
  intros Hmax Hdates Hsrc.
  by apply (endless_run a fuel Hmax Hdates Hsrc fetch_data_chunked w []).
Qed.
End DateFilterFacts.

(** X7, witness: the row that the filter from March 2020 lets through. *)
Lemma yielded_rows_in_date_range_witness :
  in_date_range from_march
    (row_of [("case_month", Timestamp 1583020800000000000);
             ("res_state", Str "NY"); ("state_fips_code", Int 36)]).
Proof.
  apply (@yielded_rows_in_date_range csv_pandas (table_source three_cases)
           from_march 5 world0
           (mkFrame case_columns
              [row_of [("case_month", Timestamp 1583020800000000000);
                       ("res_state", Str "NY"); ("state_fips_code", Int 36)]])).
  - reflexivity.
  - apply (bool_decide_unpack _). vm_compute. exact I.
  - reflexivity.
  - apply (bool_decide_unpack _). vm_compute. exact I.
Defined.

(** X8, witness: the source is down from the start. *)
Lemma failed_fetch_ends_sequence_witness :
  @for_each csv_pandas unreachable (list DataFrame) unfiltered
    (λ acc chunk, (acc ++ [chunk], chunk, Continue)) 1 (AtLoop 0 0) world0 []
  = (mkWorld 3 [ReadCsv 2 0; Sleep 2; ReadCsv 2 0; Sleep 2; ReadCsv 2 0],
     Finished, [], Completed).
Proof.
  apply (@failed_fetch_ends_sequence csv_pandas unreachable (list DataFrame)
           unfiltered (λ acc chunk, (acc ++ [chunk], chunk, Continue))
           0 0 0 world0 []).
  - reflexivity.
  - intros k d _. discriminate.
Defined.

(** X9, witness: pages of two rows without end. *)
Lemma unbounded_without_max_rows_witness :
  status_of (@fetch_chunks csv_pandas endless_source unfiltered 4 world0)
  = Running ∧
  length (chunks_of (@fetch_chunks csv_pandas endless_source unfiltered 4 world0))
  = 4%nat.
Proof.
  apply (@unbounded_without_max_rows csv_pandas endless_source unfiltered 4 world0).
  - reflexivity.
  - reflexivity.
  - intros n o. exists (page 2). done.
Defined.

(** ** Further properties of mysql_handler.py *)

Lemma duplicate_key_collides new old :
  duplicate_key new old = collides (key_of new) (key_of old).
Proof. done. Qed.

Lemma collides_sym k1 k2 : collides k1 k2 = collides k2 k1.
Proof.
  unfold collides. destruct (decide (k1 = k2)) as [->|Hne]; [done|].
  rewrite !bool_decide_eq_false_2 by done. by rewrite !andb_false_r.
Qed.

Lemma key_of_update_volatile new old :
  key_of (update_volatile new old) = key_of old.
Proof.
  unfold key_of. apply list_fmap_ext. intros i col Hcol. unfold get.
  rewrite update_volatile_lookup. rewrite bool_decide_eq_false_2; [done|].
  apply list_elem_of_lookup_2 in Hcol. intros Hv.
  apply list_elem_of_In in Hcol, Hv. simpl in Hcol, Hv.
  intuition (subst; done).
Qed.

Lemma update_volatile_keeps new old : same_but_volatile old (update_volatile new old).
Proof.
  intros col Hcol. rewrite update_volatile_lookup.
  by rewrite bool_decide_eq_false_2.
Qed.

(** [insert_sql] by the position of the first collision. *)
Lemma insert_sql_find new table :
  insert_sql new table
  = match find_duplicate new table with
    | Some p => alter (update_volatile new) p table
    | None => table ++ [new]
    end.
Proof.
  induction table as [|old table IH]; simpl; [done|].
  destruct (duplicate_key new old); [done|]. rewrite IH.
  by destruct (find_duplicate new table).
Qed.

Lemma cons_inv {A} (x y : A) (l k : list A) :
  x :: l = y :: k → x = y ∧ l = k.
Proof. by intros [= -> ->]. Qed.

Lemma find_duplicate_keys new new' table table' :
  key_of new = key_of new' →
  key_of <$> table = key_of <$> table' →
  find_duplicate new table = find_duplicate new' table'.
Proof.
  intros Hk. revert table'.
  induction table as [|old table IH]; intros [|old' table'] Ht; try done.
  rewrite !fmap_cons in Ht. apply cons_inv in Ht as [Ho Ht].
  cbn [find_duplicate].
  rewrite !duplicate_key_collides, Hk, Ho. by rewrite (IH table').
Qed.

Lemma find_duplicate_lt new table p :
  find_duplicate new table = Some p → (p < length table)%nat.
Proof.
  revert p. induction table as [|old table IH]; intros p; simpl; [done|].
  destruct (duplicate_key new old); [intros [= <-]; lia|].
  destruct (find_duplicate new table) as [q|]; [|done].
  intros [= <-]. specialize (IH q eq_refl). lia.
Qed.

Lemma find_duplicate_Some new table p :
  find_duplicate new table = Some p →
  ∃ old, table !! p = Some old ∧ duplicate_key new old = true.
Proof.
  revert p. induction table as [|old table IH]; intros p; simpl; [done|].
  destruct (duplicate_key new old) eqn:Hd; [intros [= <-]; eauto|].
  destruct (find_duplicate new table) as [q|]; [|done].
  intros [= <-]. by apply IH.
Qed.

Lemma find_duplicate_None new table :
  find_duplicate new table = None →
  Forall (λ old, duplicate_key new old = false) table.
Proof.
  induction table as [|old table IH]; simpl; [constructor|].
  destruct (duplicate_key new old) eqn:Hd; [done|].
  destruct (find_duplicate new table); [done|].
  intros _. constructor; [done|]. by apply IH.
Qed.

Lemma keys_alter_update new (p : nat) (table : list (gmap string cell)) :
  key_of <$> alter (update_volatile new) p table = key_of <$> table.
Proof.
  revert p. induction table as [|old table IH]; intros [|p]; simpl; [done..| |].
  - by rewrite key_of_update_volatile.
  - f_equal. apply IH.
Qed.

(** The keys of the table after an upsert. *)
Lemma keys_insert_sql new table :
  key_of <$> insert_sql new table
  = match find_duplicate new table with
    | Some _ => key_of <$> table
    | None => (key_of <$> table) ++ [key_of new]
    end.
Proof.
  rewrite insert_sql_find. destruct (find_duplicate new table).
  - apply keys_alter_update.
  - by rewrite fmap_app.
Qed.

Lemma unique_keys_snoc ks k :
  unique_keys ks → Forall (λ k', collides k k' = false) ks →
  unique_keys (ks ++ [k]).
Proof.
  induction ks as [|k0 ks IH]; simpl; [done|].
  intros [Hk0 Hks] Hk. apply Forall_cons in Hk as [Hkk0 Hk]. split.
  - apply Forall_app. split; [done|]. constructor; [|done].
    by rewrite collides_sym.
  - by apply IH.
Qed.

Lemma insert_sql_unique new table :
  unique_case_holds table → unique_case_holds (insert_sql new table).
Proof.
  unfold unique_case_holds. intros Hu. rewrite keys_insert_sql.
  destruct (find_duplicate new table) eqn:Hf; [done|].
  apply unique_keys_snoc; [done|].
  apply find_duplicate_None in Hf. apply Forall_fmap.
  eapply Forall_impl; [exact Hf|]. done.
Qed.

Lemma executemany_unique rows table :
  unique_case_holds table → unique_case_holds (executemany rows table).
Proof.
  unfold executemany. revert table.
  induction rows as [|r rows IH]; intros table Hu; simpl; [done|].
  by apply IH, insert_sql_unique.
Qed.

Section StorageFacts.
Context {db : Engine}.

(** The table a load leaves: the one it found, or that table with the
    records of the batch upserted. *)
Lemma load_cdc_data_conn h d table :
  conn h = Some table →
  conn (load_cdc_data h d).1 = Some table ∨
  ∃ records, build_rows d = Some records ∧
             conn (load_cdc_data h d).1 = Some (executemany records table).
Proof.
  intros Hc. unfold load_cdc_data. rewrite Hc.
  destruct (cursor_error (calls h)); [by left|].
  destruct (build_rows d) as [records|]; [|by left].
  destruct (engine_error (calls h) table records).
  - left. by destruct (rollback_error (calls h)), (close_error (calls h)).
  - right. exists records. by destruct (close_error (calls h)).
Qed.

(** X10. [load_cdc_data] keeps the unique key of the table: if no two
    stored rows share a key without NULL before the load, none do after it,
    whatever the batch, whether or not the engine accepts it and however
    the call ends. *)
Theorem load_keeps_unique_case (h h' : MySQLHandler) (e : exit)
    (d : DataFrame) (table : list (gmap string cell)) :
  conn h = Some table →
  unique_case_holds table →
  load_cdc_data h d = (h', e) →
  ∃ table', conn h' = Some table' ∧ unique_case_holds table'.
Proof.
  intros Hc Hu Hload.
  destruct (load_cdc_data_conn h d table Hc) as [Ht|(records & _ & Ht)];
    rewrite Hload in Ht; cbn [fst] in Ht; eexists; (split; [done|]);
    [done|by apply executemany_unique].
Qed.
End StorageFacts.

(** *** Stored rows through an upsert *)

Lemma insert_sql_keeps new table (i : nat) old :
  table !! i = Some old →
  ∃ now, insert_sql new table !! i = Some now ∧
         key_of now = key_of old ∧ same_but_volatile old now.
Proof.
  intros Hi. rewrite insert_sql_find.
  destruct (find_duplicate new table) as [p|].
  - destruct (decide (p = i)) as [->|Hne].
    + exists (update_volatile new old).
      rewrite list_lookup_alter_eq, Hi.
      split; [done|]. split; [apply key_of_update_volatile|].
      apply update_volatile_keeps.
    + exists old. rewrite list_lookup_alter_ne by done. by split.
  - exists old. rewrite lookup_app_l by (by eapply lookup_lt_Some). by split.
Qed.

Lemma insert_sql_length new table :
  (length table ≤ length (insert_sql new table) ≤ S (length table))%nat.
Proof.
  rewrite insert_sql_find. destruct (find_duplicate new table).
  - rewrite length_alter. lia.
  - rewrite length_app. simpl. lia.
Qed.

Lemma executemany_keeps rows table (i : nat) old :
  table !! i = Some old →
  ∃ now, executemany rows table !! i = Some now ∧
         key_of now = key_of old ∧ same_but_volatile old now.
Proof.
  unfold executemany. revert table old.
  induction rows as [|r rows IH]; intros table old Hi; simpl.
  - exists old. by split.
  - destruct (insert_sql_keeps r table i old Hi) as (mid & Hm & Hk & Hs).
    destruct (IH _ _ Hm) as (now & Hn & Hk' & Hs').
    exists now. split; [done|]. split; [congruence|].
    intros col Hcol. by rewrite Hs', Hs.
Qed.

Lemma executemany_length rows table :
  (length table ≤ length (executemany rows table)
   ≤ length table + length rows)%nat.
Proof.
  unfold executemany. revert table.
  induction rows as [|r rows IH]; intros table; simpl; [lia|].
  pose proof (IH (insert_sql r table)). pose proof (insert_sql_length r table).
  lia.
Qed.

Section StoredRows.
Context {db : Engine}.

(** X11. A load never deletes, moves or re-keys a stored row: after
    [load_cdc_data], however it ended, every row stored before is at its
    old position with its key and every column outside the four volatile
    ones unchanged, and the table has grown by at most the number of rows of
    the batch. *)
Theorem load_keeps_stored_rows (h h' : MySQLHandler) (e : exit)
    (d : DataFrame) (table : list (gmap string cell)) :
  conn h = Some table →
  load_cdc_data h d = (h', e) →
  ∃ table',
    conn h' = Some table' ∧
    (length table ≤ length table' ≤ length table + length (rows d))%nat ∧
    ∀ (i : nat) old, table !! i = Some old →
      ∃ now, table' !! i = Some now ∧
             key_of now = key_of old ∧ same_but_volatile old now.
Proof.
  intros Hc Hload.
  destruct (load_cdc_data_conn h d table Hc) as [Ht|(rs & Hb & Ht)];
    rewrite Hload in Ht; cbn [fst] in Ht.
  - exists table. split; [done|]. split; [lia|].
    intros i old Hi. exists old. by split.
  - exists (executemany rs table). split; [done|].
    apply length_mapM in Hb. split.
    + pose proof (executemany_length rs table). lia.
    + intros i old Hi. by apply executemany_keeps.
Qed.
End StoredRows.

(** *** Loading a batch again *)

Lemma find_duplicate_app_l new table rest p :
  find_duplicate new table = Some p →
  find_duplicate new (table ++ rest) = Some p.
Proof.
  revert p. induction table as [|old table IH]; intros p; simpl; [done|].
  destruct (duplicate_key new old); [done|].
  destruct (find_duplicate new table) as [q|]; [|done].
  intros [= <-]. by rewrite (IH q).
Qed.

Lemma find_duplicate_snoc new table x :
  find_duplicate new table = None →
  find_duplicate new (table ++ [x])
  = if duplicate_key new x then Some (length table) else None.
Proof.
  induction table as [|old table IH]; simpl.
  - by destruct (duplicate_key new x).
  - destruct (duplicate_key new old); [done|].
    destruct (find_duplicate new table); [done|]. intros _.
    rewrite IH by done. by destruct (duplicate_key new x).
Qed.

Lemma find_duplicate_alter new x (p : nat) table :
  find_duplicate new (alter (update_volatile x) p table)
  = find_duplicate new table.
Proof. apply find_duplicate_keys; [done|]. apply keys_alter_update. Qed.

Lemma update_volatile_absorb x y z :
  update_volatile x (update_volatile y z) = update_volatile x z.
Proof.
  apply map_eq. intros col. rewrite !update_volatile_lookup.
  by destruct (bool_decide (col ∈ volatile)).
Qed.

Lemma update_volatile_self r : has_volatile r → update_volatile r r = r.
Proof.
  intros Hr. apply map_eq. intros col. rewrite update_volatile_lookup.
  case_bool_decide as Hcol; [|done].
  destruct (Hr col Hcol) as [c Hc]. unfold get. by rewrite Hc.
Qed.

(** Upserting a row twice in a row is upserting it once. *)
Lemma insert_sql_twice r table :
  forallb notna (key_of r) = true → has_volatile r →
  insert_sql r (insert_sql r table) = insert_sql r table.
Proof.
  intros Hnull Hvol. rewrite (insert_sql_find r table).
  destruct (find_duplicate r table) as [p|] eqn:Hf.
  - rewrite insert_sql_find, find_duplicate_alter, Hf.
    rewrite list_alter_alter_eq. apply list_alter_ext; [|done].
    intros old _. apply update_volatile_absorb.
  - rewrite insert_sql_find, find_duplicate_snoc by done.
    unfold duplicate_key. rewrite Hnull, bool_decide_eq_true_2 by done.
    cbn [andb]. rewrite alter_app_r_alt by lia. rewrite Nat.sub_diag.
    cbn [alter list_alter]. by rewrite update_volatile_self.
Qed.

(** A later row of the same key makes the earlier upsert void. *)
Lemma insert_sql_same_key r r' table :
  collides (key_of r) (key_of r') = true →
  is_Some (find_duplicate r' table) →
  insert_sql r' (insert_sql r table) = insert_sql r' table.
Proof.
  intros Hcol [p Hp]. apply andb_true_iff in Hcol as [_ Hk].
  apply bool_decide_eq_true in Hk.
  assert (find_duplicate r table = Some p) as Hr
    by (by rewrite (find_duplicate_keys r r' table table)).
  rewrite (insert_sql_find r table), Hr.
  rewrite !insert_sql_find, find_duplicate_alter, Hp.
  rewrite list_alter_alter_eq. apply list_alter_ext; [|done].
  intros old _. apply update_volatile_absorb.
Qed.

(** Upserts of rows of different keys commute when the second one updates. *)
Lemma insert_sql_other_key r r' table :
  collides (key_of r) (key_of r') = false →
  is_Some (find_duplicate r' table) →
  insert_sql r' (insert_sql r table) = insert_sql r (insert_sql r' table).
Proof.
  intros Hcol [q Hq].
  rewrite (insert_sql_find r table), (insert_sql_find r' table), Hq.
  destruct (find_duplicate r table) as [p|] eqn:Hp.
  - rewrite !insert_sql_find, !find_duplicate_alter, Hp, Hq.
    apply list_alter_alter_ne. intros <-.
    apply find_duplicate_Some in Hp as (old & Ho & Hd).
    apply find_duplicate_Some in Hq as (old' & Ho' & Hd').
    assert (old' = old) as -> by congruence.
    rewrite duplicate_key_collides in Hd, Hd'.
    apply andb_true_iff in Hd as [Hn Hk], Hd' as [_ Hk'].
    apply bool_decide_eq_true in Hk, Hk'.
    unfold collides in Hcol. rewrite Hn in Hcol.
    rewrite bool_decide_eq_true_2 in Hcol by congruence. done.
  - rewrite !insert_sql_find, find_duplicate_alter, Hp.
    rewrite (find_duplicate_app_l r' table [r] q Hq).
    apply alter_app_l. by eapply find_duplicate_lt.
Qed.

Lemma find_duplicate_insert_sql r x table :
  is_Some (find_duplicate r table) →
  is_Some (find_duplicate r (insert_sql x table)).
Proof.
  intros [p Hp]. rewrite insert_sql_find.
  destruct (find_duplicate x table).
  - rewrite find_duplicate_alter. eauto.
  - rewrite (find_duplicate_app_l r table [x] p Hp). eauto.
Qed.

Lemma find_duplicate_after_insert r table :
  forallb notna (key_of r) = true →
  is_Some (find_duplicate r (insert_sql r table)).
Proof.
  intros Hnull. rewrite insert_sql_find.
  destruct (find_duplicate r table) as [p|] eqn:Hf.
  - rewrite find_duplicate_alter. eauto.
  - rewrite find_duplicate_snoc by done.
    unfold duplicate_key. rewrite Hnull, bool_decide_eq_true_2 by done. eauto.
Qed.

Lemma executemany_snoc rows r table :
  executemany (rows ++ [r]) table = insert_sql r (executemany rows table).
Proof. unfold executemany. by rewrite foldl_app. Qed.

Lemma executemany_present rows table r :
  r ∈ rows → forallb notna (key_of r) = true →
  is_Some (find_duplicate r (executemany rows table)).
Proof.
  revert table. induction rows as [|x rows IH] using rev_ind; intros table.
  - by intros ?%elem_of_nil.
  - intros [Hin| ->%list_elem_of_singleton]%elem_of_app Hnull;
      rewrite executemany_snoc.
    + by apply find_duplicate_insert_sql, IH.
    + by apply find_duplicate_after_insert.
Qed.

(** An upsert of [r] before a run of updates is void when [r] is upserted
    again after them. *)
Lemma insert_sql_around rows r : ∀ table,
  forallb notna (key_of r) = true → has_volatile r →
  Forall (λ r', is_Some (find_duplicate r' table)) rows →
  insert_sql r (executemany rows (insert_sql r table))
  = insert_sql r (executemany rows table).
Proof.
  induction rows as [|r' rows IH]; intros table Hnull Hvol Hall.
  - by apply insert_sql_twice.
  - apply Forall_cons in Hall as [Hr' Hall].
    change (executemany (r' :: rows) ?t)
      with (executemany rows (insert_sql r' t)).
    destruct (collides (key_of r) (key_of r')) eqn:Hcol.
    + by rewrite insert_sql_same_key.
    + rewrite insert_sql_other_key by done. apply IH; [done..|].
      eapply Forall_impl; [exact Hall|]. intros x.
      apply find_duplicate_insert_sql.
Qed.

Lemma executemany_twice rows : ∀ table,
  Forall (λ r, forallb notna (key_of r) = true ∧ has_volatile r) rows →
  executemany rows (executemany rows table) = executemany rows table.
Proof.
  induction rows as [|r rows IH] using rev_ind; intros table Hall; [done|].
  apply Forall_app in Hall as [Hall [[Hnull Hvol] _]%Forall_cons].
  rewrite !executemany_snoc.
  rewrite insert_sql_around; [by rewrite IH|done..|].
  apply Forall_forall. intros x Hx.
  rewrite Forall_forall in Hall. destruct (Hall x Hx) as [Hn _].
  by apply executemany_present.
Qed.

Lemma build_row_has_volatile d r record :
  build_row d r = Some record → has_volatile record.
Proof.
  unfold build_row. pose proof (row_data_lookup d r) as Hlook.
  generalize dependent (row_data d r). intros rd Hlook Hb col Hcol.
  destruct (case_month_str _) as [cm|]; [|done].
  injection Hb as <-.
  assert (∃ dflt, (col, dflt) ∈ expected_cols) as [dflt Hin].
  { apply list_elem_of_In in Hcol. simpl in Hcol.
    exists (Str "Unknown"). apply list_elem_of_In. simpl.
    intuition (subst; tauto). }
  rewrite lookup_insert_ne.
  - rewrite (Hlook col dflt) by done. eauto.
  - intros <-. apply list_elem_of_In in Hcol. simpl in Hcol.
    intuition done.
Qed.

Section Reload.
Context {db : Engine}.

(** X12. Once the engine has accepted a batch none of whose records has a
    NULL in its key, loading the same batch again leaves the table as the
    first load left it, whether the engine accepts it this time or not and
    however the second call ends: each record finds the row stored for its
    key and rewrites its volatile columns, the last record of a key winning
    both times. *)
Theorem reload_changes_nothing (h h1 h2 : MySQLHandler) (e1 e2 : exit)
    (d : DataFrame) (table records : list (gmap string cell)) :
  conn h = Some table →
  build_rows d = Some records →
  Forall (λ r, forallb notna (key_of r) = true) records →
  cursor_error (calls h) = false →
  engine_error (calls h) table records = false →
  load_cdc_data h d = (h1, e1) →
  load_cdc_data h1 d = (h2, e2) →
  conn h1 = Some (executemany records table) ∧ conn h2 = conn h1.
Proof.
  intros Hc Hb Hnull Hcur He Hload1 Hload2.
  assert (Forall (λ r, forallb notna (key_of r) = true ∧ has_volatile r)
            records) as Hall.
  { pose proof Hb as Hb'. apply mapM_Some_1 in Hb'.
    apply Forall_forall. intros r Hr. split.
    - rewrite Forall_forall in Hnull. by apply Hnull.
    - apply list_elem_of_lookup in Hr as [i Hi].
      destruct (Forall2_lookup_r _ _ _ _ _ Hb' Hi) as (r0 & _ & Hr0).
      by eapply build_row_has_volatile. }
  assert (conn h1 = Some (executemany records table)) as Hc1.
  { unfold load_cdc_data in Hload1. rewrite Hc, Hcur, Hb, He in Hload1.
    destruct (close_error (calls h)); by injection Hload1 as <- _. }
  split; [done|].
  destruct (load_cdc_data_conn h1 d _ Hc1) as [Ht|(rs & Hb2 & Ht)];
    rewrite Hload2 in Ht; cbn [fst] in Ht; rewrite Ht, Hc1; [done|].
  rewrite Hb in Hb2. injection Hb2 as <-. by rewrite executemany_twice.
Qed.
End Reload.

(** X10, witness: [dated_batch] loaded into a table of two cases, one of
    which it reports again. *)
Lemma load_keeps_unique_case_witness :
  ∃ table',
    conn (mkHandler
            (Some [case_record (Str "2020-03-01") "Yes";
                   case_record (Str "2020-04-01") "No";
                   <["res_state" := Str "CA"]>
                     (case_record (Str "2020-03-01") "No")]) 1)
    = Some table' ∧
    unique_case_holds table'.
Proof.
  apply (@load_keeps_unique_case accepting
           (mkHandler (Some [case_record (Str "2020-03-01") "No";
                             case_record (Str "2020-04-01") "No"]) 0)
           (mkHandler
              (Some [case_record (Str "2020-03-01") "Yes";
                     case_record (Str "2020-04-01") "No";
                     <["res_state" := Str "CA"]>
                       (case_record (Str "2020-03-01") "No")]) 1)
           Returns dated_batch
           [case_record (Str "2020-03-01") "No";
            case_record (Str "2020-04-01") "No"]).
  - reflexivity.
  - repeat split; repeat (constructor; [by vm_compute|]); constructor.
  - apply (bool_decide_unpack _). vm_compute. exact I.
Defined.

(** X11, witness: a second report of a stored case. *)
Lemma load_keeps_stored_rows_witness :
  ∃ table',
    conn (mkHandler (Some [case_record (Str "2020-03-01") "Yes"]) 1)
    = Some table' ∧
    (length [case_record (Str "2020-03-01") "No"] ≤ length table'
     ≤ length [case_record (Str "2020-03-01") "No"]
       + length (rows (mkFrame ["case_month"; "res_state"; "death_yn"]
           [row_of [("case_month", Timestamp 1583020800000000000);
                    ("res_state", Str "NY"); ("death_yn", Str "Yes")]])))%nat ∧
    ∀ (i : nat) old,
      [case_record (Str "2020-03-01") "No"] !! i = Some old →
      ∃ now, table' !! i = Some now ∧
             key_of now = key_of old ∧ same_but_volatile old now.
Proof.
  apply (@load_keeps_stored_rows accepting
           (mkHandler (Some [case_record (Str "2020-03-01") "No"]) 0)
           (mkHandler (Some [case_record (Str "2020-03-01") "Yes"]) 1)
           Returns
           (mkFrame ["case_month"; "res_state"; "death_yn"]
              [row_of [("case_month", Timestamp 1583020800000000000);
                       ("res_state", Str "NY"); ("death_yn", Str "Yes")]])
           [case_record (Str "2020-03-01") "No"]).
  - reflexivity.
  - apply (bool_decide_unpack _). vm_compute. exact I.
Defined.

Lemma dated_batch_records :
  build_rows dated_batch
  = Some [<["res_state" := Str "NY"]> (case_record (Str "2020-03-01") "No");
          <["res_state" := Str "CA"]> (case_record (Str "2020-03-01") "No");
          <["res_state" := Str "NY"]> (case_record (Str "2020-03-01") "Yes")].
Proof. apply (bool_decide_unpack _). vm_compute. exact I. Qed.

(** X12, witness: [dated_batch], whose first and last rows share a key,
    loaded twice into the empty table. *)
Lemma reload_changes_nothing_witness :
  conn (mkHandler
          (Some [<["res_state" := Str "NY"]>
                   (case_record (Str "2020-03-01") "Yes");
                 <["res_state" := Str "CA"]>
                   (case_record (Str "2020-03-01") "No")]) 1)
  = Some (executemany
            [<["res_state" := Str "NY"]> (case_record (Str "2020-03-01") "No");
             <["res_state" := Str "CA"]> (case_record (Str "2020-03-01") "No");
             <["res_state" := Str "NY"]> (case_record (Str "2020-03-01") "Yes")]
            []) ∧
  conn (mkHandler
          (Some [<["res_state" := Str "NY"]>
                   (case_record (Str "2020-03-01") "Yes");
                 <["res_state" := Str "CA"]>
                   (case_record (Str "2020-03-01") "No")]) 2)
  = conn (mkHandler
            (Some [<["res_state" := Str "NY"]>
                     (case_record (Str "2020-03-01") "Yes");
                   <["res_state" := Str "CA"]>
                     (case_record (Str "2020-03-01") "No")]) 1).
Proof.
  apply (@reload_changes_nothing accepting (mkHandler (Some []) 0) _ _
           Returns Returns dated_batch []
           [<["res_state" := Str "NY"]> (case_record (Str "2020-03-01") "No");
            <["res_state" := Str "CA"]> (case_record (Str "2020-03-01") "No");
            <["res_state" := Str "NY"]> (case_record (Str "2020-03-01") "Yes")]).
  - reflexivity.
  - apply dated_batch_records.
  - repeat (constructor; [by vm_compute|]). constructor.
  - reflexivity.
  - reflexivity.
  - apply (bool_decide_unpack _). vm_compute. exact I.
  - apply (bool_decide_unpack _). vm_compute. exact I.
Defined.

(** Without the first acceptance the property fails: a batch the engine
    refused and then accepts changes the table at the second load. *)
Example refused_load_repeated :
  (let (h1, _) :=
     @load_cdc_data refusing_once (mkHandler (Some []) 0) dated_batch in
   (conn h1,
    length <$> conn (@load_cdc_data refusing_once h1 dated_batch).1))
  = (Some [], Some 2%nat).
Proof. vm_compute. reflexivity. Qed.

(** *** Records and the table *)

Lemma key_in_insert_sql new table :
  key_of new ∈ key_of <$> insert_sql new table.
Proof.
  rewrite keys_insert_sql. destruct (find_duplicate new table) as [p|] eqn:Hf.
  - apply find_duplicate_Some in Hf as (old & Ho & Hd).
    rewrite duplicate_key_collides in Hd.
    apply andb_true_iff in Hd as [_ Hk]. apply bool_decide_eq_true in Hk.
    rewrite Hk. apply list_elem_of_fmap_2. by eapply list_elem_of_lookup_2.
  - apply elem_of_app. right. by left.
Qed.

Lemma keys_grow new table k :
  k ∈ key_of <$> table → k ∈ key_of <$> insert_sql new table.
Proof.
  intros Hk. rewrite keys_insert_sql.
  destruct (find_duplicate new table); [done|]. apply elem_of_app. by left.
Qed.

Lemma keys_executemany rows table r :
  r ∈ rows → key_of r ∈ key_of <$> executemany rows table.
Proof.
  revert table. induction rows as [|x rows IH] using rev_ind; intros table.
  - by intros ?%elem_of_nil.
  - intros [Hin| ->%list_elem_of_singleton]%elem_of_app;
      rewrite executemany_snoc.
    + by apply keys_grow, IH.
    + apply key_in_insert_sql.
Qed.

Section LoadedRecords.
Context {db : Engine}.

(** X13. When the cursor opens and the engine accepts the batch, every
    record built from it is in the table afterwards: a stored row has its
    key.  The call returns, unless closing the cursor raises. *)
Theorem loaded_records_are_stored (h : MySQLHandler) (d : DataFrame)
    (table records : list (gmap string cell)) (r : gmap string cell) :
  conn h = Some table →
  build_rows d = Some records →
  cursor_error (calls h) = false →
  engine_error (calls h) table records = false →
  r ∈ records →
  ∃ table' stored,
    load_cdc_data h d
    = (mkHandler (Some table') (S (calls h)),
       if close_error (calls h) then Raises else Returns) ∧
    stored ∈ table' ∧ key_of stored = key_of r.
Proof.
  intros Hc Hb Hcur He Hr. exists (executemany records table).
  pose proof (keys_executemany records table r Hr) as Hk.
  apply list_elem_of_fmap_1 in Hk as (stored & Hks & Hs).
  exists stored. unfold load_cdc_data. rewrite Hc, Hcur, Hb, He.
  by destruct (close_error (calls h)).
Qed.
End LoadedRecords.

(** X13, witness: the New York record of [dated_batch]. *)
Lemma loaded_records_are_stored_witness :
  ∃ table' stored,
    @load_cdc_data accepting (mkHandler (Some []) 0) dated_batch
    = (mkHandler (Some table') 1,
       if @close_error accepting 0 then Raises else Returns) ∧
    stored ∈ table' ∧
    key_of stored
    = key_of (<["res_state" := Str "NY"]> (case_record (Str "2020-03-01") "No")).
Proof.
  apply (@loaded_records_are_stored accepting (mkHandler (Some []) 0)
           dated_batch []
           [<["res_state" := Str "NY"]> (case_record (Str "2020-03-01") "No");
            <["res_state" := Str "CA"]> (case_record (Str "2020-03-01") "No");
            <["res_state" := Str "NY"]> (case_record (Str "2020-03-01") "Yes")]).
  - reflexivity.
  - apply dated_batch_records.
  - reflexivity.
  - reflexivity.
  - left.
Defined.
(** ** The transformer and the loader together *)

Section CleanThenLoad.
Context {pd : Pandas} {db : Engine}.

Lemma build_rows_clean b d : clean b = Some d → is_Some (build_rows d).
Proof.
  intros Hclean.
  apply mapM_is_Some_2, Forall_forall. intros r Hr. unfold compose.
  unfold build_row.
  assert (get "case_month" (row_data d r)
          = if has_column "case_month" d
            then get "case_month" r else NA) as ->.
  { unfold get at 1.
    rewrite (row_data_lookup d r "case_month" NA); [done|]. by left. }
  destruct (has_column "case_month" d) eqn:Hc; [|by eexists].
  destruct (empty b) eqn:Hb.
  - rewrite clean_value, Hb in Hclean. injection Hclean as <-.
    unfold empty in Hb. apply has_column_true in Hc.
    destruct (columns b); [by apply elem_of_nil in Hc|].
    destruct (rows b); [by apply elem_of_nil in Hr|done].
  - destruct (clean_cleaned b d Hb Hclean) as [Hdate _ _ _ _].
    destruct (Hdate Hc r Hr) as (c & Hl & t & ->).
    unfold get. change case_month with "case_month" in Hl. rewrite Hl.
    by eexists.
Qed.

(** A load that raises although the tuples could be built was let down by
    the connector. *)
Lemma load_raises_in_connector h d h' :
  is_Some (build_rows d) →
  load_cdc_data h d = (h', Raises) →
  ∃ table, conn h = Some table ∧
    (cursor_error (calls h) = true ∨ rollback_error (calls h) = true ∨
     close_error (calls h) = true).
Proof.
  intros [records Hb]. unfold load_cdc_data. rewrite Hb.
  destruct (conn h) as [table|]; [|done]. intros Hload.
  exists table. split; [done|].
  destruct (cursor_error (calls h)); [by left|].
  destruct (rollback_error (calls h)); [by right; left|].
  destruct (close_error (calls h)); [by right; right|].
  by destruct (engine_error (calls h) table records).
Qed.

(** X14. On a frame that [clean_and_transform] returned, whatever batch
    that was, the row loop of [load_cdc_data] does not raise: every
    case_month it meets there is a timestamp or, in a feed without the
    column, absent.  The call then raises only when opening the cursor,
    rolling back or closing the cursor does; an engine error is swallowed.
    On a frame that still holds a case_month as text, the call raises as
    soon as the cursor is open. *)
Theorem load_after_clean (h : MySQLHandler) (b d : DataFrame) :
  clean b = Some d →
  is_Some (build_rows d) ∧
  (∀ h', load_cdc_data h d = (h', Raises) →
     ∃ table, conn h = Some table ∧
       (cursor_error (calls h) = true ∨ rollback_error (calls h) = true ∨
        close_error (calls h) = true)) ∧
  (∀ raw r s table,
     conn h = Some table → cursor_error (calls h) = false →
     has_column "case_month" raw = true → r ∈ rows raw →
     get "case_month" r = Str s →
     load_cdc_data h raw = (mkHandler (Some table) (S (calls h)), Raises)).
Proof.
  intros Hclean. pose proof (build_rows_clean b d Hclean) as Hb.
  split; [done|]. split.
  - intros h'. by apply load_raises_in_connector.
  - intros raw r s table Hc Hcur Hcol Hr Hs.
    assert (build_rows raw = None) as Hnone.
    { apply eq_None_not_Some. unfold build_rows.
      rewrite mapM_is_Some, Forall_forall. intros Hall.
      destruct (Hall r Hr) as [record Hrec].
      apply (eq_None_not_Some (build_row raw r)); [|by eexists].
      apply (build_row_defaults raw r). split; [done|]. by rewrite Hs. }
    unfold load_cdc_data. by rewrite Hc, Hcur, Hnone.
Qed.
End CleanThenLoad.

(** X14, witness: [mixed_batch], cleaned, against the empty table. *)
Lemma load_after_clean_witness :
  is_Some (build_rows mixed_cleaned) ∧
  (∀ h', @load_cdc_data accepting (mkHandler (Some []) 0) mixed_cleaned
         = (h', Raises) →
     ∃ table, conn (mkHandler (Some []) 0) = Some table ∧
       (@cursor_error accepting 0 = true ∨ @rollback_error accepting 0 = true ∨
        @close_error accepting 0 = true)) ∧
  (∀ raw r s table,
     conn (mkHandler (Some []) 0) = Some table →
     @cursor_error accepting 0 = false →
     has_column "case_month" raw = true → r ∈ rows raw →
     get "case_month" r = Str s →
     @load_cdc_data accepting (mkHandler (Some []) 0) raw
     = (mkHandler (Some table) 1, Raises)).
Proof.
  apply (@load_after_clean csv_pandas accepting (mkHandler (Some []) 0)
           mixed_batch mixed_cleaned).
  apply (bool_decide_unpack _). vm_compute. exact I.
Defined.
(** ** Further properties of main.py *)

Section FetchLoop.
Context {pd : Pandas} {src : Source} {db : Engine}.

Lemma next_sim a g g' w : gen_sim g g' → next a g w = next a g' w.
Proof.
  destruct g as [o t|o t l c|], g' as [o' t'|o' t' l' c'|]; try done; simpl.
  - by intros [-> ->].
  - by intros (-> & -> & -> & ->).
Qed.

Lemma gen_sim_with_chunk g c c' :
  len c = len c' → gen_sim (with_chunk c g) (with_chunk c' g).
Proof. intros Hlen. by destruct g. Qed.

Lemma len_clean_le c d : clean c = Some d → len d ≤ len c.
Proof.
  rewrite clean_value. destruct (empty c); [intros [= <-]; lia|].
  rewrite transform_exact. destruct (finite_intervals c); [|done].
  intros [= <-]. unfold len. cbn [rows]. rewrite length_fmap.
  pose proof (filter_length_le (kept c) (rows c)). lia.
Qed.

(** What the loop body does with a non-empty chunk: it goes on to the next
    or lets an exception through, and counts at most the rows of the
    chunk. *)
Lemma process_chunk_step s c :
  empty c = false →
  ((process_chunk s c).2 = Continue ∨ (process_chunk s c).2 = Raise) ∧
  len (process_chunk s c).1.2 = len c ∧
  total_processed_rows s ≤ total_processed_rows (process_chunk s c).1.1
  ≤ total_processed_rows s + len c.
Proof.
  intros Hc. assert (0 ≤ len c) by (unfold len; lia).
  split; [|split; [apply process_chunk_keeps_len|]].
  - unfold process_chunk. rewrite Hc. cbn [negb].
    destruct (clean_and_transform c) as [t [|]]; [|by right].
    destruct (empty (deref t)); cbn [negb]; [by left|].
    destruct (load_cdc_data _ _) as [h' [|]]; [by left|by right].
  - unfold process_chunk. rewrite Hc. cbn [negb].
    pose proof (len_clean_le c) as Hle. unfold clean in Hle.
    destruct (clean_and_transform c) as [t [|]]; [|simpl; lia].
    specialize (Hle _ eq_refl).
    assert (0 ≤ len (deref t)) by (unfold len; lia).
    destruct (empty (deref t)); cbn [negb]; [simpl; lia|].
    destruct (load_cdc_data _ _) as [h' [|]]; simpl; lia.
Qed.

(** The loop of [_handle_fetch] and plain iteration over the generator,
    step for step up to the first exception. *)
Lemma handle_fetch_simulates a fuel : ∀ g g' w s acc,
  gen_sim g g' →
  0 ≤ total_processed_rows s ≤ rows_yielded acc →
  ∃ fuel',
    (fuel' ≤ fuel)%nat ∧
    world_of (for_each a process_chunk fuel g w s)
    = world_of (for_each a (λ acc chunk, (acc ++ [chunk], chunk, Continue))
                  fuel' g' w acc) ∧
    0 ≤ total_processed_rows (state_of (for_each a process_chunk fuel g w s))
    ≤ rows_yielded
        (chunks_of (for_each a (λ acc chunk, (acc ++ [chunk], chunk, Continue))
                      fuel' g' w acc)) ∧
    (status_of (for_each a process_chunk fuel g w s) = Raised ∨
     fuel' = fuel ∧
     status_of (for_each a process_chunk fuel g w s)
     = status_of (for_each a (λ acc chunk, (acc ++ [chunk], chunk, Continue))
                    fuel g' w acc) ∧
     (status_of (for_each a process_chunk fuel g w s) = Running ∨
      status_of (for_each a process_chunk fuel g w s) = Completed)).
Proof.
  induction fuel as [|fuel IH]; intros g g' w s acc Hsim Htot.
  - exists 0%nat. unfold world_of, status_of, state_of, chunks_of. simpl.
    repeat split; [lia..|]. right. repeat split. by left.
  - cbn [for_each]. rewrite <-(next_sim a g g' w Hsim).
    destruct (next a g w) as [[w' g1] [c|]] eqn:Hn.
    + apply next_yields in Hn as Hy. destruct Hy as [Hc _].
      destruct (process_chunk_step s c Hc) as (Hctl & Hlen & Hs).
      assert (0 ≤ len c) by (unfold len; lia).
      destruct (process_chunk s c) as [[s' c'] ctl]. simpl in Hctl, Hlen, Hs.
      destruct Hctl as [-> | ->].
      * destruct (IH (with_chunk c' g1) (with_chunk c g1) w' s' (acc ++ [c]))
          as (fuel' & Hle & Hw & Hrows & Hst).
        { by apply gen_sim_with_chunk. }
        { rewrite rows_yielded_app. lia. }
        exists (S fuel'). split; [lia|]. cbn [for_each].
        rewrite <-(next_sim a g g' w Hsim), Hn.
        split; [done|]. split; [done|].
        destruct Hst as [?|(-> & ? & ?)]; [by left|by right].
      * exists 1%nat. split; [lia|]. cbn [for_each].
        rewrite <-(next_sim a g g' w Hsim), Hn.
        unfold world_of, status_of, state_of, chunks_of. simpl.
        split; [done|]. split; [|by left].
        rewrite rows_yielded_app. simpl. lia.
    + exists (S fuel). split; [lia|]. cbn [for_each].
      rewrite <-(next_sim a g g' w Hsim), Hn.
      unfold world_of, status_of, state_of, chunks_of. simpl.
      split; [done|]. split; [lia|]. right. repeat split. by right.
Qed.

(** X15. [_handle_fetch] drives the generator as plain iteration would,
    although [clean_and_transform] writes to the chunks in place, up to the
    first exception that leaves its loop body: it has issued the requests,
    sleeps and yields of plain iteration over some number of chunks; unless
    an exception ended it, that number is the whole run and it ends as
    plain iteration does, so never by its [break]; and the rows it counts
    as processed are at most the rows yielded. *)
Theorem fetch_loop_follows_generator (a : fetch_args) (fuel : nat) (w : world)
    (h : MySQLHandler) :
  ∃ fuel',
    (fuel' ≤ fuel)%nat ∧
    world_of (handle_fetch a fuel w h) = world_of (fetch_chunks a fuel' w) ∧
    0 ≤ total_processed_rows (state_of (handle_fetch a fuel w h))
    ≤ rows_yielded (chunks_of (fetch_chunks a fuel' w)) ∧
    (status_of (handle_fetch a fuel w h) = Raised ∨
     fuel' = fuel ∧
     status_of (handle_fetch a fuel w h) = status_of (fetch_chunks a fuel w) ∧
     (status_of (handle_fetch a fuel w h) = Running ∨
      status_of (handle_fetch a fuel w h) = Completed)).
Proof.
  apply (handle_fetch_simulates a fuel fetch_data_chunked fetch_data_chunked
           w (mkFetch h 0 false) []); [done|simpl; lia].
Qed.

(** X16. With [max_rows] set to [m], against a source that returns no more
    rows than it is asked for, [_handle_fetch] never counts more than [m]
    rows as processed, and its loop has ended after at most [m + 1] chunks,
    by the end of the sequence or by an exception. *)
Theorem processed_rows_within_budget (a : fetch_args) (m : Z) (fuel : nat)
    (w : world) (h : MySQLHandler) :
  max_rows a = Some m →
  0 ≤ m →
  honours_limit src →
  total_processed_rows (state_of (handle_fetch a fuel w h)) ≤ m ∧
  ((Z.to_nat m < fuel)%nat →
   status_of (handle_fetch a fuel w h) = Completed ∨
   status_of (handle_fetch a fuel w h) = Raised).
Proof.
  intros Hmax Hm Hsrc.
  destruct (handle_fetch_simulates a fuel fetch_data_chunked fetch_data_chunked
              w (mkFetch h 0 false) []) as (fuel' & _ & _ & Htot & Hst);
    [done|simpl; lia|].
  assert (budget_inv a m w fetch_data_chunked w []) as Hinv.
  { exists []. rewrite app_nil_r. simpl. done. }
  split.
  - destruct (fetch_run_budget a m Hmax Hsrc w fuel' _ _ _ Hinv)
      as [(new & _ & _ & Hle & _) _].
    unfold handle_fetch. lia.
  - intros Hfuel. destruct Hst as [?|(-> & Hst & _)]; [by right|left].
    destruct (fetch_run_budget a m Hmax Hsrc w fuel _ _ _ Hinv)
      as [_ Hdone].
    unfold handle_fetch. rewrite Hst. apply Hdone.
    simpl. rewrite Z.sub_0_r. lia.
Qed.
End FetchLoop.

(** X16, witness: the budget of 150 rows against the source of 250. *)
Lemma processed_rows_within_budget_witness :
  total_processed_rows
    (state_of (@handle_fetch csv_pandas paged_source accepting
                 (mkArgs 100 (Some 150) None None) 5 world0
                 (mkHandler (Some []) 0))) ≤ 150 ∧
  ((Z.to_nat 150 < 5)%nat →
   status_of (@handle_fetch csv_pandas paged_source accepting
                (mkArgs 100 (Some 150) None None) 5 world0
                (mkHandler (Some []) 0)) = Completed ∨
   status_of (@handle_fetch csv_pandas paged_source accepting
                (mkArgs 100 (Some 150) None None) 5 world0
                (mkHandler (Some []) 0)) = Raised).
Proof.
  apply (@processed_rows_within_budget csv_pandas paged_source accepting
           (mkArgs 100 (Some 150) None None) 150 5 world0
           (mkHandler (Some []) 0)).
  - reflexivity.
  - lia.
  - intros n limit offset d [= <-]. unfold len, page. simpl.
    rewrite length_replicate. lia.
Defined.

(** An infinite interval in the feed ends [_handle_fetch] by the exception
    of [astype(int)], after the first chunk was yielded. *)
Example infinite_interval_ends_fetch :
  let run := @handle_fetch csv_pandas
               (λ _ _ _, Response infinite_interval_batch) accepting
               (mkArgs 1 None None None) 3 world0 (mkHandler (Some []) 0) in
  status_of run = Raised ∧ trace (world_of run) = [ReadCsv 1 0; Yield 1] ∧
  total_processed_rows (state_of run) = 0.
Proof. vm_compute. done. Qed.
(** ** The aggregate queries *)

Example total_cases_scenario :
  let d := @query_total_cases_by_state answering
             (mkHandler (Some three_stored) 0) None in
  grouped "res_state" d = [Str "NY"; Str "CA"] ∧ total_cases d = [2; 1].
Proof. split; vm_compute; reflexivity. Qed.

Lemma count_group_keys v gs :
  (count_group v gs).*1
  = if bool_decide (v ∈ gs.*1) then gs.*1 else gs.*1 ++ [v].
Proof.
  induction gs as [|[v' n] gs IH]; [done|]. cbn [count_group fst snd].
  destruct (decide (v' = v)) as [->|Hv].
  - rewrite bool_decide_eq_true_2 by done. cbn.
    rewrite bool_decide_eq_true_2; [done|left].
  - rewrite (bool_decide_eq_false_2 (v' = v)) by done.
    rewrite !fmap_cons, IH. cbn [fst].
    destruct (bool_decide (v ∈ gs.*1)) eqn:Hin.
    + apply bool_decide_eq_true in Hin.
      rewrite bool_decide_eq_true_2; [done|by right].
    + apply bool_decide_eq_false in Hin.
      rewrite bool_decide_eq_false_2; [done|].
      rewrite elem_of_cons. intros [->|Hin']; done.
Qed.

Lemma count_group_nodup v gs : NoDup gs.*1 → NoDup (count_group v gs).*1.
Proof.
  intros Hnd. rewrite count_group_keys. case_bool_decide as Hin; [done|].
  apply NoDup_app. split_and!; [done| |apply NoDup_singleton].
  intros w Hw Hw'. apply list_elem_of_singleton in Hw'. by subst w.
Qed.

Lemma count_group_positive v gs :
  Forall (λ n, 1 ≤ n) gs.*2 → Forall (λ n, 1 ≤ n) (count_group v gs).*2.
Proof.
  induction gs as [|[v' n] gs IH]; intros Hall; cbn [count_group fst snd].
  - by repeat constructor.
  - rewrite fmap_cons in Hall. apply Forall_cons in Hall as [Hn Hall].
    cbn [snd] in Hn.
    destruct (bool_decide (v' = v)); rewrite fmap_cons; cbn [snd]; constructor;
      [lia|done|done|by apply IH].
Qed.

Lemma count_group_sum v gs :
  sum_counts (count_group v gs).*2 = sum_counts gs.*2 + 1.
Proof.
  unfold sum_counts.
  induction gs as [|[v' n] gs IH]; cbn [count_group fst snd]; [done|].
  destruct (bool_decide (v' = v)); rewrite !fmap_cons; cbn [snd foldr]; lia.
Qed.

Lemma count_group_tally v w gs :
  tally w (count_group v gs)
  = tally w gs + (if bool_decide (v = w) then 1 else 0).
Proof.
  unfold tally, sum_counts.
  induction gs as [|[v' n] gs IH]; cbn [count_group fst snd List.filter].
  - destruct (bool_decide (v = w)); cbn; lia.
  - destruct (decide (v' = v)) as [->|Hv].
    + rewrite (bool_decide_eq_true_2 (v = v)) by done.
      cbn [List.filter fst snd].
      destruct (bool_decide (v = w)); rewrite ?fmap_cons;
        cbn [snd foldr]; lia.
    + rewrite (bool_decide_eq_false_2 (v' = v)) by done.
      cbn [List.filter fst snd].
      destruct (bool_decide (v' = w)); rewrite ?fmap_cons;
        cbn [snd foldr]; lia.
Qed.

Lemma group_by_snoc col table r :
  group_by col (table ++ [r]) = count_group (get col r) (group_by col table).
Proof. unfold group_by. by rewrite foldl_app. Qed.

Lemma group_by_nodup col table : NoDup (group_by col table).*1.
Proof.
  induction table as [|r table IH] using rev_ind; [constructor|].
  rewrite group_by_snoc. by apply count_group_nodup.
Qed.

Lemma group_by_positive col table : Forall (λ n, 1 ≤ n) (group_by col table).*2.
Proof.
  induction table as [|r table IH] using rev_ind; [constructor|].
  rewrite group_by_snoc. by apply count_group_positive.
Qed.

Lemma group_by_sum col table :
  sum_counts (group_by col table).*2 = Z.of_nat (length table).
Proof.
  induction table as [|r table IH] using rev_ind; [done|].
  rewrite group_by_snoc, count_group_sum, IH, length_app. simpl. lia.
Qed.

Lemma stored_with_snoc col v table r :
  stored_with col v (table ++ [r])
  = stored_with col v table ++ (if bool_decide (get col r = v) then [r] else []).
Proof.
  unfold stored_with. rewrite List.filter_app. cbn [List.filter].
  by case_bool_decide.
Qed.

Lemma group_by_tally col v table :
  tally v (group_by col table) = Z.of_nat (length (stored_with col v table)).
Proof.
  induction table as [|r table IH] using rev_ind; [done|].
  rewrite group_by_snoc, count_group_tally, IH, stored_with_snoc, length_app.
  case_bool_decide; simpl; lia.
Qed.

Lemma group_by_same col v table :
  (∀ r, r ∈ table → get col r = v) →
  group_by col table
  = if bool_decide (table = []) then []
    else [(v, Z.of_nat (length table))].
Proof.
  induction table as [|r table IH] using rev_ind; intros Hall; [done|].
  rewrite group_by_snoc, IH.
  2:{ intros r' Hr'. apply Hall, elem_of_app. by left. }
  rewrite (Hall r) by (apply elem_of_app; right; left).
  rewrite (bool_decide_eq_false_2 (table ++ [r] = [])) by (by destruct table).
  rewrite length_app. case_bool_decide as Ht.
  - subst table. done.
  - cbn [count_group fst snd]. rewrite bool_decide_eq_true_2 by done.
    do 2 f_equal. simpl. lia.
Qed.

Lemma insert_desc_perm g sorted : insert_desc g sorted ≡ₚ g :: sorted.
Proof.
  induction sorted as [|g' sorted IH]; cbn [insert_desc]; [done|].
  destruct (g'.2 <? g.2); [done|]. rewrite IH. apply Permutation_swap.
Qed.

Lemma order_by_perm gs : order_by_total_cases_desc gs ≡ₚ gs.
Proof.
  induction gs as [|g gs IH]; [done|].
  cbn [order_by_total_cases_desc foldr].
  fold (order_by_total_cases_desc gs). by rewrite insert_desc_perm, IH.
Qed.

Lemma sum_counts_perm counts counts' :
  counts ≡ₚ counts' → sum_counts counts = sum_counts counts'.
Proof.
  unfold sum_counts. induction 1; cbn [foldr]; lia.
Qed.

Lemma filter_perm {A} (p : A → bool) (l l' : list A) :
  l ≡ₚ l' → List.filter p l ≡ₚ List.filter p l'.
Proof.
  induction 1 as [|x l l' _ IH|x y l|l l' l'' _ IH _ IH']; cbn [List.filter].
  - done.
  - destruct (p x); by rewrite IH.
  - destruct (p x), (p y); try done. apply Permutation_swap.
  - by rewrite IH.
Qed.

Lemma tally_perm v gs gs' : gs ≡ₚ gs' → tally v gs = tally v gs'.
Proof.
  intros Hp. unfold tally. apply sum_counts_perm, fmap_Permutation.
  by apply filter_perm.
Qed.

Lemma descending_cons n counts :
  descending counts = true →
  Forall (λ n', n' ≤ n) (take 1 counts) →
  descending (n :: counts) = true.
Proof.
  destruct counts as [|n' counts]; [done|]. intros Hd Hall.
  apply Forall_cons in Hall as [Hn _].
  cbn [descending]. apply andb_true_intro. split; [lia|done].
Qed.

Lemma descending_tail n counts :
  descending (n :: counts) = true →
  descending counts = true ∧ Forall (λ n', n' ≤ n) (take 1 counts).
Proof.
  destruct counts as [|n' counts]; [by split; [|constructor]|].
  cbn [descending]. intros [Hn Hd]%andb_prop. split; [done|].
  repeat constructor. lia.
Qed.

Lemma insert_desc_descending g sorted :
  descending sorted.*2 = true → descending (insert_desc g sorted).*2 = true.
Proof.
  induction sorted as [|g' sorted IH]; intros Hd; cbn [insert_desc]; [done|].
  destruct (g'.2 <? g.2) eqn:Hlt.
  - rewrite fmap_cons. apply descending_cons; [done|].
    rewrite fmap_cons. repeat constructor. lia.
  - rewrite fmap_cons in Hd |- *. apply descending_tail in Hd as [Hd Hhd].
    apply descending_cons; [by apply IH|].
    destruct sorted as [|g'' sorted]; cbn [insert_desc].
    + repeat constructor. lia.
    + rewrite fmap_cons in Hhd. apply Forall_cons in Hhd as [Hg'' _].
      destruct (g''.2 <? g.2); rewrite fmap_cons; repeat constructor; lia.
Qed.

Lemma order_by_descending gs :
  descending (order_by_total_cases_desc gs).*2 = true.
Proof.
  induction gs as [|g gs IH]; [done|].
  cbn [order_by_total_cases_desc foldr]. by apply insert_desc_descending.
Qed.

Lemma rows_result_frame col gs :
  rows (result_frame col gs)
  = (λ g, row_of [(col, g.1); ("total_cases", Int g.2)]) <$> gs.
Proof. by destruct gs. Qed.

Lemma empty_result_frame col gs :
  empty (result_frame col gs) = bool_decide (gs = []).
Proof. by destruct gs. Qed.

Lemma get_result_row col v n :
  col ≠ "total_cases" →
  get col (row_of [(col, v); ("total_cases", Int n)]) = v ∧
  get "total_cases" (row_of [(col, v); ("total_cases", Int n)]) = Int n.
Proof.
  intros Hne. unfold get, row_of. cbn [list_to_map foldr fst snd uncurry].
  split.
  - by rewrite lookup_insert_eq.
  - by rewrite lookup_insert_ne, lookup_insert_eq.
Qed.

Lemma total_cases_result_frame col gs :
  col ≠ "total_cases" → total_cases (result_frame col gs) = gs.*2.
Proof.
  intros Hne. unfold total_cases.
  rewrite rows_result_frame, <-list_fmap_compose.
  apply list_fmap_ext. intros _ [v n] _. unfold compose. cbn [fst snd].
  by rewrite (proj2 (get_result_row col v n Hne)).
Qed.

Lemma grouped_result_frame col gs :
  col ≠ "total_cases" → grouped col (result_frame col gs) = gs.*1.
Proof.
  intros Hne. unfold grouped.
  rewrite rows_result_frame, <-list_fmap_compose.
  apply list_fmap_ext. intros _ [v n] _. unfold compose. cbn [fst snd].
  by rewrite (proj1 (get_result_row col v n Hne)).
Qed.

Lemma cases_for_result_frame col v gs :
  col ≠ "total_cases" → cases_for col v (result_frame col gs) = tally v gs.
Proof.
  intros Hne. unfold cases_for, tally, total_cases, stored_with. cbn [rows].
  rewrite rows_result_frame, filter_fmap, <-list_fmap_compose.
  f_equal. unfold compose.
  rewrite (List.filter_ext _ (λ g : cell * Z, bool_decide (g.1 = v))).
  2:{ intros [w n]. cbn [fst snd].
      by rewrite (proj1 (get_result_row col w n Hne)). }
  apply list_fmap_ext. intros _ [w n] _. cbn [fst snd].
  by rewrite (proj2 (get_result_row col w n Hne)).
Qed.

Lemma order_by_nil gs : order_by_total_cases_desc gs = [] ↔ gs = [].
Proof.
  split; [|by intros ->]. intros Hnil.
  apply Permutation_nil_r. rewrite <-Hnil. symmetry. apply order_by_perm.
Qed.

Lemma group_by_nil col table : group_by col table = [] ↔ table = [].
Proof.
  split; [|by intros ->]. intros Hnil.
  pose proof (group_by_sum col table) as Hsum. rewrite Hnil in Hsum.
  destruct table; [done|]. simpl in Hsum. lia.
Qed.

Section QueryFacts.
Context {rd : Reader}.

Lemma select_counts_ranked col selected :
  col ≠ "total_cases" → ranked col (select_counts col selected).
Proof.
  intros Hne. unfold select_counts, ranked.
  destruct (query_error col selected).
  { split_and!; [done|constructor|constructor]. }
  rewrite total_cases_result_frame, grouped_result_frame by done.
  split_and!.
  - apply order_by_descending.
  - rewrite (fmap_Permutation snd _ _ (order_by_perm _)).
    apply group_by_positive.
  - rewrite (fmap_Permutation fst _ _ (order_by_perm _)).
    apply group_by_nodup.
Qed.

Lemma select_counts_sum col selected :
  col ≠ "total_cases" → query_error col selected = false →
  sum_counts (total_cases (select_counts col selected))
  = Z.of_nat (length selected).
Proof.
  intros Hne Hok. unfold select_counts. rewrite Hok.
  rewrite total_cases_result_frame by done.
  rewrite (sum_counts_perm _ _ (fmap_Permutation snd _ _ (order_by_perm _))).
  apply group_by_sum.
Qed.

Lemma select_counts_cases_for col v selected :
  col ≠ "total_cases" → query_error col selected = false →
  cases_for col v (select_counts col selected)
  = Z.of_nat (length (stored_with col v selected)).
Proof.
  intros Hne Hok. unfold select_counts. rewrite Hok.
  rewrite cases_for_result_frame by done.
  rewrite (tally_perm _ _ _ (order_by_perm _)). apply group_by_tally.
Qed.

Lemma select_counts_empty col selected :
  query_error col selected = false →
  empty (select_counts col selected) = bool_decide (selected = []).
Proof.
  intros Hok. unfold select_counts. rewrite Hok, empty_result_frame.
  apply bool_decide_ext. by rewrite order_by_nil, group_by_nil.
Qed.

Lemma ranked_empty_frame col : ranked col empty_frame.
Proof. split_and!; [done|constructor|constructor]. Qed.

(** X17. Whatever the table and the engine, each of the three queries
    returns a ranking: counts from the largest down, every count at least
    one, and no value of the grouped column in two rows. *)
Theorem query_results_ranked (h : MySQLHandler) (state_code : option string) :
  ranked "res_state" (query_total_cases_by_state h state_code) ∧
  ranked "age_group" (query_cases_by_age_group h) ∧
  ranked "sex" (query_cases_by_sex h).
Proof.
  unfold query_total_cases_by_state, query_cases_by_age_group,
    query_cases_by_sex.
  destruct (conn h) as [table|].
  2:{ split_and!; apply ranked_empty_frame. }
  split_and!; [|by apply select_counts_ranked..].
  destruct state_code as [code|]; [|by apply select_counts_ranked].
  case_bool_decide; by apply select_counts_ranked.
Qed.

(** X18. On a connected handler whose engine answers, the counts of each
    unfiltered query add up to the number of stored rows, and the count a
    query reports for a value is the number of stored rows holding that
    value in the grouped column (NULL included): no row is counted twice or
    left out. *)
Theorem query_counts_are_exact (h : MySQLHandler)
    (table : list (gmap string cell)) (v : cell) :
  conn h = Some table →
  (∀ col, query_error col table = false) →
  (sum_counts (total_cases (query_total_cases_by_state h None))
   = Z.of_nat (length table) ∧
   cases_for "res_state" v (query_total_cases_by_state h None)
   = Z.of_nat (length (stored_with "res_state" v table))) ∧
  (sum_counts (total_cases (query_cases_by_age_group h))
   = Z.of_nat (length table) ∧
   cases_for "age_group" v (query_cases_by_age_group h)
   = Z.of_nat (length (stored_with "age_group" v table))) ∧
  (sum_counts (total_cases (query_cases_by_sex h))
   = Z.of_nat (length table) ∧
   cases_for "sex" v (query_cases_by_sex h)
   = Z.of_nat (length (stored_with "sex" v table))).
Proof.
  intros Hconn Hok.
  unfold query_total_cases_by_state, query_cases_by_age_group,
    query_cases_by_sex.
  rewrite Hconn.
  split_and!;
    first [by apply select_counts_sum | by apply select_counts_cases_for].
Qed.

(** X19. With a state code that is not empty, an answering engine returns
    for [query_total_cases_by_state] no row when no stored row has that
    res_state, and otherwise the single row of that state with the number
    of stored rows that have it. *)
Theorem state_filter_reports_one_state (h : MySQLHandler)
    (table : list (gmap string cell)) (code : string) :
  conn h = Some table →
  code ≠ "" →
  query_error "res_state" (stored_with "res_state" (Str code) table) = false →
  query_total_cases_by_state h (Some code)
  = result_frame "res_state"
      (if bool_decide (stored_with "res_state" (Str code) table = []) then []
       else [(Str code,
              Z.of_nat (length (stored_with "res_state" (Str code) table)))]).
Proof.
  intros Hconn Hcode Hok. unfold query_total_cases_by_state.
  rewrite Hconn, bool_decide_eq_false_2 by done.
  fold (stored_with "res_state" (Str code) table).
  unfold select_counts. rewrite Hok. f_equal.
  rewrite (group_by_same "res_state" (Str code)).
  - by case_bool_decide.
  - intros r [_ Hr]%elem_of_filter. by apply bool_decide_eq_true in Hr.
Qed.

(** X20. What the user of [query_data] sees, on a connected handler whose
    engine answers: a known query without a state filter prints results
    exactly when the table holds a row, and [total_cases] with a state code
    exactly when a stored row has that res_state. *)
Theorem query_prints_results_iff_rows (h : MySQLHandler)
    (table : list (gmap string cell)) (query_type code : string) :
  conn h = Some table →
  (∀ col selected, query_error col selected = false) →
  query_type ∈ ["total_cases"; "cases_by_age_group"; "cases_by_sex"] →
  code ≠ "" →
  (handle_query_data h query_type None = NoResults ↔ table = []) ∧
  (handle_query_data h "total_cases" (Some code) = NoResults ↔
   ∀ r, r ∈ table → get "res_state" r ≠ Str code).
Proof.
  intros Hconn Hok Hq Hcode.
  assert (∀ d, (if negb (empty d) then QueryResults d else NoResults)
               = NoResults ↔ empty d = true) as Hshow.
  { intros d. by destruct (empty d). }
  split.
  - repeat (apply elem_of_cons in Hq as [->|Hq]);
      [..|by apply elem_of_nil in Hq].
    + change (handle_query_data h "total_cases" None)
        with (if negb (empty (query_total_cases_by_state h None))
              then QueryResults (query_total_cases_by_state h None)
              else NoResults).
      unfold query_total_cases_by_state.
      rewrite Hconn, Hshow, select_counts_empty by done.
      by rewrite bool_decide_eq_true.
    + change (handle_query_data h "cases_by_age_group" None)
        with (if negb (empty (query_cases_by_age_group h))
              then QueryResults (query_cases_by_age_group h)
              else NoResults).
      unfold query_cases_by_age_group.
      rewrite Hconn, Hshow, select_counts_empty by done.
      by rewrite bool_decide_eq_true.
    + change (handle_query_data h "cases_by_sex" None)
        with (if negb (empty (query_cases_by_sex h))
              then QueryResults (query_cases_by_sex h)
              else NoResults).
      unfold query_cases_by_sex.
      rewrite Hconn, Hshow, select_counts_empty by done.
      by rewrite bool_decide_eq_true.
  - change (handle_query_data h "total_cases" (Some code))
      with (if negb (empty (query_total_cases_by_state h (Some code)))
            then QueryResults (query_total_cases_by_state h (Some code))
            else NoResults).
    unfold query_total_cases_by_state.
    rewrite Hconn, (bool_decide_eq_false_2 (code = "")) by done.
    rewrite Hshow, select_counts_empty by done.
    rewrite bool_decide_eq_true. split.
    + intros Hnil r Hr Heq.
      assert (r ∈ List.filter
                (λ r, bool_decide (get "res_state" r = Str code)) table) as Hin.
      { apply elem_of_filter. split; [done|]. by apply bool_decide_eq_true. }
      rewrite Hnil in Hin. by apply elem_of_nil in Hin.
    + intros Hnone.
      destruct (List.filter _ table) as [|r l] eqn:Hf; [done|].
      assert (r ∈ List.filter
                (λ r, bool_decide (get "res_state" r = Str code)) table) as Hin.
      { rewrite Hf. left. }
      apply elem_of_filter in Hin as [Hin Hr].
      apply bool_decide_eq_true in Hr. by destruct (Hnone r Hin).
Qed.
End QueryFacts.

(** X18, witness: the New York cases of [three_stored]. *)
Lemma query_counts_are_exact_witness :
  (sum_counts (total_cases (@query_total_cases_by_state answering
                              (mkHandler (Some three_stored) 0) None))
   = Z.of_nat (length three_stored) ∧
   cases_for "res_state" (Str "NY")
     (@query_total_cases_by_state answering (mkHandler (Some three_stored) 0) None)
   = Z.of_nat (length (stored_with "res_state" (Str "NY") three_stored))) ∧
  (sum_counts (total_cases (@query_cases_by_age_group answering
                              (mkHandler (Some three_stored) 0)))
   = Z.of_nat (length three_stored) ∧
   cases_for "age_group" (Str "NY")
     (@query_cases_by_age_group answering (mkHandler (Some three_stored) 0))
   = Z.of_nat (length (stored_with "age_group" (Str "NY") three_stored))) ∧
  (sum_counts (total_cases (@query_cases_by_sex answering
                              (mkHandler (Some three_stored) 0)))
   = Z.of_nat (length three_stored) ∧
   cases_for "sex" (Str "NY")
     (@query_cases_by_sex answering (mkHandler (Some three_stored) 0))
   = Z.of_nat (length (stored_with "sex" (Str "NY") three_stored))).
Proof.
  apply (@query_counts_are_exact answering (mkHandler (Some three_stored) 0)
           three_stored (Str "NY")).
  - reflexivity.
  - intros col. reflexivity.
Defined.

(** X19, witness: the two New York cases of [three_stored]. *)
Lemma state_filter_reports_one_state_witness :
  @query_total_cases_by_state answering (mkHandler (Some three_stored) 0)
    (Some "NY")
  = result_frame "res_state"
      (if bool_decide (stored_with "res_state" (Str "NY") three_stored = [])
       then []
       else [(Str "NY",
              Z.of_nat
                (length (stored_with "res_state" (Str "NY") three_stored)))]).
Proof.
  apply (@state_filter_reports_one_state answering
           (mkHandler (Some three_stored) 0) three_stored "NY").
  - reflexivity.
  - discriminate.
  - reflexivity.
Defined.

(** X20, witness: [cases_by_sex], and [total_cases --state TX], on
    [three_stored]. *)
Lemma query_prints_results_iff_rows_witness :
  (@handle_query_data answering (mkHandler (Some three_stored) 0)
     "cases_by_sex" None = NoResults ↔ three_stored = []) ∧
  (@handle_query_data answering (mkHandler (Some three_stored) 0)
     "total_cases" (Some "TX") = NoResults ↔
   ∀ r, r ∈ three_stored → get "res_state" r ≠ Str "TX").
Proof.
  apply (@query_prints_results_iff_rows answering
           (mkHandler (Some three_stored) 0) three_stored "cases_by_sex" "TX").
  - reflexivity.
  - intros col selected. reflexivity.
  - apply (bool_decide_unpack _). vm_compute. exact I.
  - discriminate.
Defined.

Example state_filter_scenario :
  let d := @query_total_cases_by_state answering
             (mkHandler (Some three_stored) 0) (Some "NY") in
  grouped "res_state" d = [Str "NY"] ∧ total_cases d = [2] ∧
  @handle_query_data answering (mkHandler (Some three_stored) 0)
    "total_cases" (Some "TX") = NoResults.
Proof. split_and!; vm_compute; reflexivity. Qed.
